(** * ADM (vf_adm.c): a shallow embedding and its checked properties

    The filter [libavfilter/vf_adm.c] computes the multi-scale detail measure
    of a distorted frame against a reference frame.  The code is dense
    single- and double-precision arithmetic, so the embedding works over the
    IEEE-754 specification floats of the standard library ([SpecFloat]):
    C [float] is binary32 (precision 24, emax 128), C [double] is binary64
    (precision 53, emax 1024), every operation rounds to nearest, ties to even.

    Layout of the file:
    - [RoundArith]   integer round-to-nearest-even;
    - [FloatTheory]  what the rounding of [SpecFloat] computes, for any format;
    - [F32], [F64]   the two C formats, casts and literals;
    - [ADM]          the functions of vf_adm.c, over the constants of adm.h and
                     the libm functions taken as section variables;
    - [Ref]          one concrete choice of those constants and functions;
    - the properties. *)

From Stdlib Require Import ZArith List Lia Bool SpecFloat QArith Qabs Qpower.
Import ListNotations.
Local Open Scope Z_scope.

Set Implicit Arguments.

(** * Integer rounding to nearest, ties to even *)

Module Round.

(** [rneP M P]: the quotient [M / P] rounded to the nearest integer, a tie
    going to the even neighbour. *)
Definition rneP (M P : Z) : Z :=
  let q := M / P in
  match 2 * (M mod P) ?= P with
  | Lt => q
  | Eq => if Z.even q then q else q + 1
  | Gt => q + 1
  end.

Definition rne (M k : Z) : Z := rneP M (2 ^ k).

End Round.

(** * Numbers of a floating-point format *)

Module FloatDefs.
Import Round.

(** The location read off a remainder [r] of a division by [P]. *)
Definition loc_of_rem (r P : Z) : location :=
  if r =? 0 then loc_Exact else loc_Inexact (2 * r ?= P).

(** The integer part of [(-1)^s * m * 2^e], rounded toward zero. *)
Definition cond_Zopp_trunc (s : bool) (m : positive) (e : Z) : Z :=
  cond_Zopp s (if 0 <=? e then Zpos m * 2 ^ e else Zpos m / 2 ^ (- e)).

(** Zero or a finite number: neither an infinity nor a NaN. *)
Definition is_finite (x : spec_float) : bool :=
  match x with
  | S754_zero _ | S754_finite _ _ _ => true
  | _ => false
  end.

(** The sign bit of a number, as [signbit] of math.h reads it; [false] for
    a NaN, which has no sign here. *)
Definition signbit (x : spec_float) : bool :=
  match x with
  | S754_zero s | S754_infinity s | S754_finite s _ _ => s
  | S754_nan => false
  end.

(** [+0] or [-0]. *)
Definition is_zero (x : spec_float) : bool :=
  match x with
  | S754_zero _ => true
  | _ => false
  end.

(** [+0], a positive number or [+inf]. *)
Definition nonneg (x : spec_float) : bool :=
  match x with
  | S754_zero false | S754_finite false _ _ | S754_infinity false => true
  | _ => false
  end.

(** [nonneg] or NaN: what a sum of absolute values or of cube roots is. *)
Definition nonneg_or_nan (x : spec_float) : bool :=
  match x with
  | S754_nan => true
  | _ => nonneg x
  end.

(** [b] is a NaN or is at least [a]. *)
Definition at_least (a b : spec_float) : Prop :=
  b = S754_nan \/ SFleb a b = true.

(** The value of a number, as a rational. *)
Definition F2Q (x : spec_float) : Q :=
  match x with
  | S754_finite s m e => inject_Z (cond_Zopp s (Zpos m)) * (2 # 1) ^ e
  | _ => 0
  end.

(** The mantissa [M] of a number at exponent [E], rescaled to an exponent
    [E0 <= E]. *)
Definition scaled (M E E0 : Z) : Z := M * 2 ^ (E - E0).

Section Format.
Variables prec emax : Z.

(** The number [q * 2^e] as the format stores it: a mantissa of [prec + 1]
  bits is halved, an exponent above the largest one overflows. *)
Definition norm (q e : Z) : Z * Z :=
if q <? 2 ^ prec then (q, e) else (2 ^ (prec - 1), e + 1).

Definition pack (s : bool) (q e : Z) : spec_float :=
if q =? 0 then S754_zero s
else
  if snd (norm q e) <=? emax - prec
  then S754_finite s (Z.to_pos (fst (norm q e))) (snd (norm q e))
  else S754_infinity s.

(** The three facts about a rounded mantissa [q] at exponent [e] that make
  [pack s q e] a canonical number. *)
Definition rounded (q e : Z) : Prop :=
0 <= q <= 2 ^ prec /\ SpecFloat.emin prec emax <= e /\
(SpecFloat.emin prec emax < e -> 2 ^ (prec - 1) <= q).

(** The mantissa of a number once it is written at the smallest exponent
  of the format. *)
Definition mant (x : spec_float) : Z :=
match x with
| S754_finite s m e => cond_Zopp s (Zpos m) * 2 ^ (e - SpecFloat.emin prec emax)
| _ => 0
end.

(** A cast between C floating types rounds the value into the target
  format (to nearest, ties to even). *)
Definition SFconv (x : spec_float) : spec_float :=
match x with
| S754_finite s m e => binary_round prec emax s m e
| _ => x
end.

End Format.

End FloatDefs.

(** * The two C formats *)

(** C [float]: IEEE-754 binary32. *)
Module F32.
Definition prec : Z := 24.
Definition emax : Z := 128.
Definition zero : spec_float := S754_zero false.
Definition one : spec_float := SFone prec emax.
Definition add := SFadd prec emax.
Definition sub := SFsub prec emax.
Definition mul := SFmul prec emax.
Definition div := SFdiv prec emax.
Definition abs := SFabs.
Definition ltb := SFltb.
Definition leb := SFleb.
Definition valid := valid_binary prec emax.
(** [(float) n] for an integer [n]. *)
Definition of_Z (n : Z) : spec_float := binary_normalize prec emax n 0 false.
(** [(float) d] for a double [d]. *)
Definition of_double : spec_float -> spec_float := FloatDefs.SFconv prec emax.

End F32.

(** C [double]: IEEE-754 binary64. *)
Module F64.
Definition prec : Z := 53.
Definition emax : Z := 1024.
Definition zero : spec_float := S754_zero false.
Definition one : spec_float := SFone prec emax.
Definition add := SFadd prec emax.
Definition sub := SFsub prec emax.
Definition mul := SFmul prec emax.
Definition div := SFdiv prec emax.
Definition ltb := SFltb.
Definition leb := SFleb.
Definition eqb := SFeqb.
Definition valid := valid_binary prec emax.
(** [(double) n] for an integer [n]. *)
Definition of_Z (n : Z) : spec_float := binary_normalize prec emax n 0 false.
(** [(double) x] for a float [x] (exact). *)
Definition of_float : spec_float -> spec_float := FloatDefs.SFconv prec emax.
(** The decimal literal [n / d], correctly rounded: [lit 1 100] is [1e-2]. *)
Definition lit (n d : positive) : spec_float :=
  SFdiv prec emax (S754_finite false n 0) (S754_finite false d 0).
(** [(int) x]: truncation toward zero.  A NaN, an infinity or a value out
    of the range of [int] gives [INT_MIN], as [cvttsd2si] does on the x86
    this filter is written for (the file includes [emmintrin.h]). *)
Definition to_int (x : spec_float) : Z :=
  match x with
  | S754_zero _ => 0
  | S754_finite s m e =>
      let t := FloatDefs.cond_Zopp_trunc s m e in
      if (- 2 ^ 31 <=? t) && (t <? 2 ^ 31) then t else - 2 ^ 31
  | _ => - 2 ^ 31
  end.

End F64.

(** * The filter: vf_adm.c *)

Module ADM.

(** Both C floating types are specification floats; the two names only say
    which format a value is in.  An arithmetic operation between two
    [float]s is done in binary32 and one with a [double] operand in binary64,
    as C does when FLT_EVAL_METHOD is 0 (SSE arithmetic).  A comparison of a
    [float] with a [double] literal ([kh < 0.0]) promotes the [float], which
    is exact, so it is written on the [float]. *)
Definition float := spec_float.
Definition double := spec_float.

(** ** Buffers

    A plane is a row-major buffer read as [x[i * px_stride + j]].  It is
    modelled by its rows; the row stride and the padding it leaves are
    abstracted.  C [int]s are unbounded integers: the buffer sizes keep every
    index computation far from the range of [int]. *)

Definition zth (A : Type) (d : A) (l : list A) (i : Z) : A :=
  if i <? 0 then d else nth (Z.to_nat i) l d.

Definition plane := list (list float).

(** [px p i j] is [p[i * px_stride + j]].  An index outside the plane is
    undefined behaviour in C (the code reads whatever memory lies there) and
    reads as [0] here: the functions below agree with the code where they
    read inside their planes, which for the whole filter is on the frames of
    [Spec.in_bounds], of at least 9 x 9 samples. *)
Definition px (p : plane) (i j : Z) : float :=
  zth F32.zero (zth [] p i) j.

(** The indices of [for (k = lo; k < hi; k++)]. *)
Definition zrange (lo hi : Z) : list Z :=
  map (fun k => lo + Z.of_nat k) (seq 0 (Z.to_nat (hi - lo))).

(** The plane written by two nested loops [for i < h] and [for j < w]
    storing [f i j] at [i * px_stride + j]. *)
Definition build (w h : Z) (f : Z -> Z -> float) : plane :=
  map (fun i => map (fun j => f i j) (zrange 0 w)) (zrange 0 h).

Record adm_dwt_band_t : Type := {
  band_a : plane;  (* Low-pass V + low-pass H. *)
  band_v : plane;  (* Low-pass V + high-pass H. *)
  band_h : plane;  (* High-pass V + low-pass H. *)
  band_d : plane   (* High-pass V + high-pass H. *)
}.

(** Modelled from the spec: adm.h is not under src/.  The CSF model of the
    spec has, per colour channel, tuned parameters [a], [k], [f0] and [g]
    per orientation; they are taken as C [float]s. *)
Record dwt_model_params : Type := {
  a : float;
  k : float;
  f0 : float;
  g : Z -> float
}.

(** The functions of libm the filter calls, and the SSE reciprocal estimate
    [_mm_rcp_ss] behind [rcp]: none is specified bit for bit, so the filter
    is modelled over any choice of them. *)
Record libm : Type := {
  cos : double -> double;
  log10 : double -> double;
  pow : double -> double -> double;
  powf : float -> float -> float;
  rcp_ss : float -> float
}.

(** The constants and tables of adm.h, which is not under src/. *)
Record adm_h : Type := {
  VIEW_DIST : float;
  REF_DISPLAY_HEIGHT : Z;
  ADM_BORDER_FACTOR : double;
  dwt2_db2_coeffs_lo : list float;
  dwt2_db2_coeffs_hi : list float;
  dwt_7_9_YCbCr_threshold : Z -> dwt_model_params;
  dwt_7_9_basis_function_amplitudes : Z -> Z -> float
}.

(** [M_PI] of math.h: the double nearest to pi, 0x1.921fb54442d18p+1. *)
Definition M_PI : double := S754_finite false 7074237752028440 (-51).

(** Modelled from the spec: FFABS of libavutil/common.h is not under src/;
    the spec writes the reflection as [idx = |idx|]. *)
Definition FFABS (x : Z) : Z := if x >=? 0 then x else - x.

(** The reflection both [adm_dwt2] and [adm_cm_thresh] apply to an index:
    [idx = FFABS(idx); if (idx >= dim) idx = 2 * dim - idx - 1;]. *)
Definition mirror (idx dim : Z) : Z :=
  let idx := FFABS idx in
  if idx >=? dim then 2 * dim - idx - 1 else idx.

Section Filter.
Variable L : libm.
Variable H : adm_h.

(** [rcp]: the hardware estimate refined by one Newton-Raphson step. *)
Definition rcp (x : float) : float :=
  let xi := rcp_ss L x in
  F32.add xi (F32.mul xi (F32.sub F32.one (F32.mul x xi))).

Definition DIVS (n d : float) : float := F32.mul n (rcp d).

Definition dwt_quant_step (params : dwt_model_params) (lambda theta : Z)
  : float :=
  let r : float :=
    F32.of_double
      (F64.div
         (F64.mul
            (F64.of_float (F32.mul (VIEW_DIST H) (F32.of_Z (REF_DISPLAY_HEIGHT H))))
            M_PI)
         (F64.of_Z 180)) in
  let temp : float :=
    F32.of_double
      (log10 L
         (F64.div
            (F64.mul
               (F64.mul (pow L (F64.of_Z 2) (F64.of_Z (lambda + 1)))
                        (F64.of_float (f0 params)))
               (F64.of_float (g params theta)))
            (F64.of_float r))) in
  let Q : float :=
    F32.of_double
      (F64.div
         (F64.mul
            (F64.mul (F64.of_Z 2) (F64.of_float (a params)))
            (pow L (F64.of_Z 10)
                 (F64.of_float (F32.mul (F32.mul (k params) temp) temp))))
         (F64.of_float (dwt_7_9_basis_function_amplitudes H lambda theta))) in
  Q.

Definition get_cube (val : float) : float := F32.mul (F32.mul val val) val.

(** [1.0 / 3.0], converted to the [float] parameter of [powf]. *)
Definition third : float := F32.of_double (F64.div (F64.of_Z 1) (F64.of_Z 3)).

Definition border (n : Z) (border_factor : double) : Z :=
  F64.to_int (F64.sub (F64.mul (F64.of_Z n) border_factor) (F64.lit 1 2)).

(** The accumulation of the two loops of [adm_sum_cube]. *)
Definition cube_sum (x : plane) (top bottom left right : Z) : float :=
  fold_left
    (fun sum i =>
       fold_left
         (fun sum j => F32.add sum (get_cube (F32.abs (px x i j))))
         (zrange left right) sum)
    (zrange top bottom) F32.zero.

(** The second term of the value [adm_sum_cube] returns. *)
Definition stabilizer (top bottom left right : Z) : float :=
  powf L
    (F32.of_double
       (F64.div (F64.of_Z ((bottom - top) * (right - left))) (F64.of_Z 32)))
    third.

Definition adm_sum_cube (x : plane) (w h : Z) (border_factor : double)
  : float :=
  let left := border w border_factor in
  let top := border h border_factor in
  let right := w - left in
  let bottom := h - top in
  F32.add (powf L (cube_sum x top bottom left right) third)
          (stabilizer top bottom left right).

(** *** adm_decouple *)

Definition cos_1deg_sq : float :=
  let x := F64.div (F64.mul (F64.of_Z 1) M_PI) (F64.of_Z 180) in
  F32.of_double (F64.mul (cos L x) (cos L x)).

Definition eps : float := F32.of_double (F64.lit 1 (10 ^ 30)).

(** [k < 0.0 ? 0.0 : (k > 1.0 ? 1.0 : k)] *)
Definition clip01 (k : float) : float :=
  if F32.ltb k F32.zero then F32.zero
  else if F32.ltb F32.one k then F32.one else k.

Definition angle_flag (cos_1deg_sq : float) (oh ov th tv : float) : bool :=
  let ot_dp := F32.add (F32.mul oh th) (F32.mul ov tv) in
  let o_mag_sq := F32.add (F32.mul oh oh) (F32.mul ov ov) in
  let t_mag_sq := F32.add (F32.mul th th) (F32.mul tv tv) in
  F32.leb F32.zero ot_dp
  && F32.leb (F32.mul (F32.mul cos_1deg_sq o_mag_sq) t_mag_sq)
             (F32.mul ot_dp ot_dp).

(** The restored value of one coefficient [t] of the distorted band, given
    the reference coefficient [o] of the same orientation and the flag of
    the pixel. *)
Definition restored (eps : float) (flag : bool) (o t : float) : float :=
  let k := clip01 (DIVS t (F32.add o eps)) in
  let tmp := F32.mul k o in
  if flag then t else tmp.

Definition adm_decouple (ref main : adm_dwt_band_t) (w h : Z)
  : adm_dwt_band_t * adm_dwt_band_t :=
  let cos_1deg_sq := cos_1deg_sq in
  let eps := eps in
  let flag i j :=
    angle_flag cos_1deg_sq
               (px (band_h ref) i j) (px (band_v ref) i j)
               (px (band_h main) i j) (px (band_v main) i j) in
  let r_of (sel : adm_dwt_band_t -> plane) i j :=
    restored eps (flag i j) (px (sel ref) i j) (px (sel main) i j) in
  let a_of (sel : adm_dwt_band_t -> plane) i j :=
    F32.sub (px (sel main) i j) (r_of sel i j) in
  ({| band_a := [];
      band_v := build w h (r_of band_v);
      band_h := build w h (r_of band_h);
      band_d := build w h (r_of band_d) |},
   {| band_a := [];
      band_v := build w h (a_of band_v);
      band_h := build w h (a_of band_h);
      band_d := build w h (a_of band_d) |}).

(** *** adm_csf *)

Definition rfactor (scale theta : Z) : float :=
  let factor1 := dwt_quant_step (dwt_7_9_YCbCr_threshold H 0) scale 1 in
  let factor2 := dwt_quant_step (dwt_7_9_YCbCr_threshold H 0) scale 2 in
  if theta =? 2
  then F32.of_double (F64.div (F64.of_Z 1) (F64.of_float factor2))
  else F32.of_double (F64.div (F64.of_Z 1) (F64.of_float factor1)).

(** [theta] is 0 for [band_h], 1 for [band_v] and 2 for [band_d]. *)
Definition adm_csf (src : adm_dwt_band_t) (orig_h scale w h : Z)
  : adm_dwt_band_t :=
  let dst (theta : Z) (src_ptr : plane) :=
    let rf := rfactor scale theta in
    build w h (fun i j => F32.mul rf (px src_ptr i j)) in
  {| band_a := [];
     band_v := dst 1 (band_v src);
     band_h := dst 0 (band_h src);
     band_d := dst 2 (band_d src) |}.

(** *** adm_cm_thresh and adm_cm *)

Definition filt_coeff (filt_i filt_j : Z) : float :=
  if (filt_i =? 1) && (filt_j =? 1)
  then F32.of_double (F64.div (F64.of_Z 1) (F64.of_Z 15))
  else F32.of_double (F64.div (F64.of_Z 1) (F64.of_Z 30)).

(** The inner two loops of [adm_cm_thresh] at pixel [(i, j)] of one
    orientation. *)
Definition thresh_sum (src_ptr : plane) (w h i j : Z) : float :=
  fold_left
    (fun sum filt_i =>
       fold_left
         (fun sum filt_j =>
            let src_i := mirror (i - 1 + filt_i) h in
            let src_j := mirror (j - 1 + filt_j) w in
            let img_coeff := F32.abs (px src_ptr src_i src_j) in
            F32.add sum (F32.mul (filt_coeff filt_i filt_j) img_coeff))
         (zrange 0 3) sum)
    (zrange 0 3) F32.zero.

Definition adm_cm_thresh (src : adm_dwt_band_t) (w h : Z) : plane :=
  build w h
    (fun i j =>
       fold_left (fun dst src_ptr => F32.add dst (thresh_sum src_ptr w h i j))
                 [band_h src; band_v src; band_d src] F32.zero).

Definition mask (x thr : float) : float :=
  let x := F32.sub (F32.abs x) thr in
  if F32.ltb x F32.zero then F32.zero else x.

Definition adm_cm (src : adm_dwt_band_t) (thresh : plane) (w h : Z)
  : adm_dwt_band_t :=
  let dst (src_ptr : plane) :=
    build w h (fun i j => mask (px src_ptr i j) (px thresh i j)) in
  {| band_a := [];
     band_v := dst (band_v src);
     band_h := dst (band_h src);
     band_d := dst (band_d src) |}.

(** *** adm_dwt2 *)

Definition filt_w : Z := Z.of_nat (length (dwt2_db2_coeffs_lo H)).
Definition filter_lo (i : Z) : float := zth F32.zero (dwt2_db2_coeffs_lo H) i.
Definition filter_hi (i : Z) : float := zth F32.zero (dwt2_db2_coeffs_hi H) i.

(** One filtering loop: [sum += filter[t] * img(mirror (2 * n - 1 + t))]
    for [t] from 0 to [filt_w - 1]. *)
Definition dwt_sum (filter : Z -> float) (img : Z -> float) (n dim : Z)
  : float :=
  fold_left
    (fun sum t => F32.add sum (F32.mul (filter t) (img (mirror (2 * n - 1 + t) dim))))
    (zrange 0 filt_w) F32.zero.

(** The vertical pass of output row [i]: the rows [temp_lo] and [temp_hi]. *)
Definition dwt_temp (filter : Z -> float) (src : plane) (w h i : Z)
  : list float :=
  map (fun j => dwt_sum filter (fun src_i => px src src_i j) i h) (zrange 0 w).

Definition adm_dwt2 (src : plane) (w h : Z) : adm_dwt_band_t :=
  let temp_lo i := dwt_temp filter_lo src w h i in
  let temp_hi i := dwt_temp filter_hi src w h i in
  let row (filter : Z -> float) (temp : Z -> list float) :=
    map (fun i =>
           let t := temp i in
           map (fun j => dwt_sum filter (zth F32.zero t) j w)
               (zrange 0 ((w + 1) ÷ 2)))
        (zrange 0 ((h + 1) ÷ 2)) in
  {| band_a := row filter_lo temp_lo;
     band_v := row filter_hi temp_lo;
     band_h := row filter_lo temp_hi;
     band_d := row filter_hi temp_hi |}.

Definition adm_buffer_copy (src : plane) (w h : Z) : plane :=
  build w h (fun i j => px src i j).

(** *** compute_adm2 *)

(** The variables the scale loop updates. *)
Record loop_state : Type := {
  curr_ref_scale : plane;
  curr_main_scale : plane;
  cur_w : Z;
  cur_h : Z;
  num : double;
  den : double;
  scores : list double   (* scores[0 .. 2 * scale - 1] *)
}.

Definition pool3 (b : adm_dwt_band_t) (w h : Z) : float :=
  let s := F32.zero in
  let s := F32.add s (adm_sum_cube (band_h b) w h (ADM_BORDER_FACTOR H)) in
  let s := F32.add s (adm_sum_cube (band_v b) w h (ADM_BORDER_FACTOR H)) in
  let s := F32.add s (adm_sum_cube (band_d b) w h (ADM_BORDER_FACTOR H)) in
  s.

(** One iteration of [for (scale = 0; scale < 4; scale++)]. *)
Definition scale_step (orig_h : Z) (st : loop_state) (scale : Z) : loop_state :=
  let ref_dwt2 := adm_dwt2 (curr_ref_scale st) (cur_w st) (cur_h st) in
  let main_dwt2 := adm_dwt2 (curr_main_scale st) (cur_w st) (cur_h st) in
  let w := (cur_w st + 1) ÷ 2 in
  let h := (cur_h st + 1) ÷ 2 in
  let '(decouple_r, decouple_a) := adm_decouple ref_dwt2 main_dwt2 w h in
  let csf_o := adm_csf ref_dwt2 orig_h scale w h in
  let csf_r := adm_csf decouple_r orig_h scale w h in
  let csf_a := adm_csf decouple_a orig_h scale w h in
  let mta := adm_cm_thresh csf_a w h in
  let cm_r := adm_cm csf_r mta w h in
  let num_scale := pool3 cm_r w h in
  let den_scale := pool3 csf_o w h in
  {| curr_ref_scale := adm_buffer_copy (band_a ref_dwt2) w h;
     curr_main_scale := adm_buffer_copy (band_a main_dwt2) w h;
     cur_w := w;
     cur_h := h;
     num := F64.add (num st) (F64.of_float num_scale);
     den := F64.add (den st) (F64.of_float den_scale);
     scores := scores st ++ [F64.of_float num_scale; F64.of_float den_scale] |}.

Definition numden_limit (w h : Z) : double :=
  F64.div (F64.mul (F64.lit 1 100) (F64.of_Z (w * h)))
          (F64.mul (F64.of_Z 1920) (F64.of_Z 1080)).

Definition scale_loop (ref main : plane) (w h : Z) : loop_state :=
  fold_left (scale_step h)
            (zrange 0 4)
            {| curr_ref_scale := ref; curr_main_scale := main;
               cur_w := w; cur_h := h;
               num := F64.zero; den := F64.zero; scores := [] |}.

Record adm_result : Type := {
  score : double;
  score_num : double;
  score_den : double;
  out_scores : list double
}.

(** [num = num < numden_limit ? 0 : num;] *)
Definition floor_at (limit x : double) : double :=
  if F64.ltb x limit then F64.zero else x.

Definition compute_adm2 (ref main : plane) (w h : Z) : adm_result :=
  let st := scale_loop ref main w h in
  let num := floor_at (numden_limit w h) (num st) in
  let den := floor_at (numden_limit w h) (den st) in
  {| score := if F64.eqb den F64.zero then F64.one else F64.div num den;
     score_num := num;
     score_den := den;
     out_scores := scores st |}.

(** *** offset_8bit, offset_10bit and do_adm *)

(** A frame plane of integer samples, [uint8_t] or [uint16_t], by rows. *)
Definition samples := list (list Z).

Definition sample (p : samples) (i j : Z) : Z := zth 0 (zth [] p i) j.

(** The body the macro [offset_fn] generates for either sample type:
    [ref_ptr_data[j] = (float) ref_ptr[j]] over the [w * h] samples. *)
Definition offset_fn (w h : Z) (ref main : samples) : plane * plane :=
  (build w h (fun i j => F32.of_Z (sample ref i j)),
   build w h (fun i j => F32.of_Z (sample main i j))).

Definition offset_8bit := offset_fn.
Definition offset_10bit := offset_fn.

Definition do_adm (depth w h : Z) (main ref : samples) : adm_result :=
  let '(ref_data, main_data) :=
    if depth <=? 8 then offset_8bit w h ref main
    else offset_10bit w h ref main in
  compute_adm2 ref_data main_data w h.

End Filter.

End ADM.

(** * One choice of libm and of adm.h

    The properties below hold for any [libm] and any [adm_h].  To run the
    filter on a frame one choice is fixed here: libm functions computed in
    fixed point with 120 fractional bits and rounded once (so within one unit
    in the last place of the real function, like a good libm), the exact
    reciprocal for [_mm_rcp_ss] (its error bound allows it), and for adm.h
    the Daubechies-2 taps and the Watson threshold table of the reference
    implementation of ADM. *)

Module Ref.
Import ADM.

Definition P : Z := 120.
Definition fx_one : Z := 2 ^ P.
Definition fx_mul (a b : Z) : Z := (a * b) / 2 ^ P.
Definition ln2_fx : Z := 921350637599661305226344307672478455.
Definition ln10_fx : Z := 3060660568284699479708353448060341289.

(** [acc + sum_{i <= j < i + n} x^j / j!], given [term = x^(i-1) / (i-1)!]. *)
Fixpoint exp_series (n : nat) (i term acc x : Z) : Z :=
  match n with
  | O => acc
  | S n => let term' := fx_mul term x / i in
           exp_series n (i + 1) term' (acc + term') x
  end.

Definition exp_fx (x : Z) : Z := exp_series 60 1 fx_one fx_one x.

(** [acc + sum t^i / i] over odd [i]. *)
Fixpoint atanh_series (n : nat) (i pw acc t2 : Z) : Z :=
  match n with
  | O => acc
  | S n => let pw' := fx_mul pw t2 in
           atanh_series n (i + 2) pw' (acc + pw' / i) t2
  end.

(** [ln (m * 2^e)] for [m > 0]: [ln] of the mantissa in [[1, 2)] through
    [2 * atanh ((x - 1) / (x + 1))], plus the exponent times [ln 2]. *)
Definition ln_fx (m : positive) (e : Z) : Z :=
  let d := Zdigits2 (Zpos m) in
  let x := Zpos m * 2 ^ (P - (d - 1)) in
  let t := ((x - fx_one) * fx_one) / (x + fx_one) in
  2 * atanh_series 60 3 t t (fx_mul t t) + (e + d - 1) * ln2_fx.

Definition to_fx (s : bool) (m : positive) (e : Z) : Z :=
  cond_Zopp s (if 0 <=? e + P then Zpos m * 2 ^ (e + P)
               else Zpos m / 2 ^ (- (e + P))).

Definition log10 (x : double) : double :=
  match x with
  | S754_zero _ => S754_infinity true
  | S754_infinity false => x
  | S754_finite false m e =>
      binary_normalize 53 1024 ((ln_fx m e * fx_one) / ln10_fx) (- P) false
  | _ => S754_nan
  end.

Definition pow (x y : double) : double :=
  match x, y with
  | S754_nan, _ | _, S754_nan => S754_nan
  | _, S754_zero _ => F64.one
  | S754_finite false m e, S754_finite sy my ey =>
      let z := fx_mul (to_fx sy my ey) (ln_fx m e) in
      let n := z / ln2_fx in
      binary_normalize 53 1024 (exp_fx (z - n * ln2_fx)) (n - P) false
  | _, _ => S754_nan
  end.

(** [acc + sum (-1)^j x^(2j) / (2j)!]. *)
Fixpoint cos_series (n : nat) (i term acc x2 : Z) : Z :=
  match n with
  | O => acc
  | S n => let term' := - (fx_mul term x2 / (i * (i + 1))) in
           cos_series n (i + 2) term' (acc + term') x2
  end.

Definition cos (x : double) : double :=
  match x with
  | S754_zero _ => F64.one
  | S754_finite s m e =>
      let xf := to_fx s m e in
      binary_normalize 53 1024 (cos_series 40 1 fx_one fx_one (fx_mul xf xf)) (- P) false
  | _ => S754_nan
  end.

(** The integer cube root, one bit at a time from bit [b] down. *)
Fixpoint icbrt (b : nat) (N r : Z) : Z :=
  let r' := r + 2 ^ Z.of_nat b in
  let r := if r' * r' * r' <=? N then r' else r in
  match b with
  | O => r
  | S b => icbrt b N r
  end.

(** The cube root rounded to nearest: the root of [m * 2^k] is taken with
    some 39 bits and a sticky bit, then rounded to the 24 bits of a float. *)
Definition cbrtf (x : float) : float :=
  match x with
  | S754_zero _ => F32.zero
  | S754_infinity false => x
  | S754_finite false m e =>
      let k := 90 + (e - 90) mod 3 in
      let N := Zpos m * 2 ^ k in
      let q := icbrt 63 N 0 in
      let sticky := if q * q * q =? N then 0 else 1 in
      binary_normalize 24 128 (2 * q + sticky) ((e - k) / 3 - 1) false
  | _ => S754_nan
  end.

(** [powf] is only ever called with the exponent [1.0 / 3.0]. *)
Definition powf (x y : float) : float :=
  match SFcompare y third with
  | Some Eq => cbrtf x
  | _ => S754_nan
  end.

Definition rcp_ss (x : float) : float := F32.div F32.one x.

Definition L : libm :=
  {| ADM.cos := cos; ADM.log10 := log10; ADM.pow := pow; ADM.powf := powf;
     ADM.rcp_ss := rcp_ss |}.

(** A float constant written with the decimal literal [n / d]. *)
Definition flit (n d : positive) : float := F32.of_double (F64.lit n d).
Definition fneg (x : float) : float := SFopp x.

Definition Y_threshold : dwt_model_params :=
  {| a := flit 495 1000; k := flit 466 1000; f0 := flit 401 1000;
     g := fun theta =>
            zth F32.zero [flit 1501 1000; flit 1 1; flit 534 1000; flit 1 1] theta |}.

Definition amplitudes : list (list float) :=
  [ [flit 62171 100000;  flit 67234 100000;  flit 72709 100000;  flit 67234 100000];
    [flit 34537 100000;  flit 41317 100000;  flit 49428 100000;  flit 41317 100000];
    [flit 18004 100000;  flit 22727 100000;  flit 28688 100000;  flit 22727 100000];
    [flit 91401 1000000; flit 11792 100000;  flit 15214 100000;  flit 11792 100000];
    [flit 45943 1000000; flit 59758 1000000; flit 77727 1000000; flit 59758 1000000];
    [flit 23013 1000000; flit 30018 1000000; flit 39156 1000000; flit 30018 1000000] ].

Definition H : adm_h :=
  {| VIEW_DIST := flit 3 1;
     REF_DISPLAY_HEIGHT := 1080;
     ADM_BORDER_FACTOR := F64.lit 1 10;
     dwt2_db2_coeffs_lo :=
       [ flit 482962913144690 1000000000000000;
         flit 836516303737469 1000000000000000;
         flit 224143868041857 1000000000000000;
         fneg (flit 129409522550921 1000000000000000) ];
     dwt2_db2_coeffs_hi :=
       [ fneg (flit 129409522550921 1000000000000000);
         fneg (flit 224143868041857 1000000000000000);
         flit 836516303737469 1000000000000000;
         fneg (flit 482962913144690 1000000000000000) ];
     dwt_7_9_YCbCr_threshold := fun _ => Y_threshold;
     dwt_7_9_basis_function_amplitudes := fun lambda theta => px amplitudes lambda theta |}.

(** Two 16x16 8-bit frames to run the filter on: a diagonal ramp and a
    checkerboard, and the all-black frame. *)
Definition ramp : samples :=
  map (fun i => map (fun j => (i * 16 + j * 3) mod 256) (zrange 0 16)) (zrange 0 16).
Definition checker : samples :=
  map (fun i => map (fun j => if Z.even (i + j) then 255 else 0) (zrange 0 16))
      (zrange 0 16).
Definition black : samples :=
  map (fun i => map (fun j => 0) (zrange 0 16)) (zrange 0 16).

(** Frame sizes in use, from the test frames to 8K. *)
Definition frame_sizes : list (Z * Z) :=
  [(16, 16); (176, 144); (352, 288); (640, 480); (720, 576); (1280, 720);
   (1920, 1080); (2560, 1440); (3840, 2160); (7680, 4320)].

(** The same frames as the float planes [compute_adm2] receives. *)
Definition plane_of (f : samples) : plane := fst (offset_fn 16 16 f f).

(** The first-scale wavelet bands of the two frames. *)
Definition ramp_dwt : adm_dwt_band_t := adm_dwt2 H (plane_of ramp) 16 16.
Definition checker_dwt : adm_dwt_band_t := adm_dwt2 H (plane_of checker) 16 16.

End Ref.

(** * The words of the specification

    Definitions that follow the sentences of the specification rather than
    the code; the properties compare them with the functions of [ADM]. *)

Module Spec.
Import FloatDefs ADM.

(** A plane of [h] rows of [w] samples. *)
Definition has_shape (p : plane) (w h : Z) : Prop :=
  length p = Z.to_nat h /\ Forall (fun row => length row = Z.to_nat w) p.

(** "Indices outside [0, dim) are reflected using a mirror rule
    idx = |idx|, then idx = 2*dim - idx - 1 if still out of range." *)
Definition reflect (idx dim : Z) : Z :=
  if (0 <=? idx) && (idx <? dim) then idx
  else
    let idx := Z.abs idx in
    if idx <? dim then idx else 2 * dim - idx - 1.

(** "weights 1/15 at center and 1/30 elsewhere", at the offset [(di, dj)]
    from the centre of the 3x3 window. *)
Definition weight (di dj : Z) : float :=
  if (di =? 0) && (dj =? 0)
  then F32.of_double (F64.div (F64.of_Z 1) (F64.of_Z 15))
  else F32.of_double (F64.div (F64.of_Z 1) (F64.of_Z 30)).

(** "a fixed 3x3 spatial filter applied to the absolute value of the
    impairment sub-band ... with the same mirror-reflection boundary rule" *)
Definition window_sum (p : plane) (w h i j : Z) : float :=
  fold_left
    (fun s di =>
       fold_left
         (fun s dj =>
            F32.add s (F32.mul (weight di dj)
                               (F32.abs (px p (reflect (i + di) h) (reflect (j + dj) w)))))
         [-1; 0; 1] s)
    [-1; 0; 1] F32.zero.

(** "for each pixel, sum over the three orientations" *)
Definition threshold (b : adm_dwt_band_t) (w h i j : Z) : float :=
  fold_left (fun acc p => F32.add acc (window_sum p w h i j))
            [band_h b; band_v b; band_d b] F32.zero.

(** The samples of the rows [top, bottom) and columns [left, right), row by
    row. *)
Definition region (x : plane) (top bottom left right : Z) : list float :=
  flat_map (fun i => map (fun j => px x i j) (zrange left right))
           (zrange top bottom).

(** [|v|^3] *)
Definition cube_abs (v : float) : float :=
  F32.mul (F32.mul (F32.abs v) (F32.abs v)) (F32.abs v).

(** The sum of a list, from the left. *)
Definition sum_list (l : list float) : float := fold_left F32.add l F32.zero.

(** "restored + impairment == distorted (within floating-point epsilon of
    the two added terms)": the sum of the values of [r] and [a] differs from
    the value of [t] by at most [2^-24] times the magnitude of [a]. *)
Definition within_epsilon (t r a : float) : Prop :=
  (Qabs (F2Q r + F2Q a - F2Q t) * inject_Z (2 ^ 24) <= Qabs (F2Q a))%Q.

(** The three orientations of a band. *)
Definition orientations : list (adm_dwt_band_t -> plane) :=
  [band_h; band_v; band_d].

(** What a cube root returns, whatever its accuracy: a number of the format
    that is not negative, or a NaN. *)
Definition cube_root_like (L : libm) : Prop :=
  forall x, F32.valid (powf L x third) = true /\
            nonneg_or_nan (powf L x third) = true.

(** The second term of [adm_sum_cube] on a [w x h] band. *)
Definition band_stabilizer (L : libm) (H : adm_h) (w h : Z) : float :=
  let left := border w (ADM_BORDER_FACTOR H) in
  let top := border h (ADM_BORDER_FACTOR H) in
  stabilizer L top (h - top) left (w - left).

(** The frame plane at the input of scale [n]: the approximation band of
    the previous scale, "width/height are halved ((n+1)/2) each iteration". *)
Fixpoint scale_input (H : adm_h) (n : nat) (p : plane) (w h : Z) : plane * Z * Z :=
  match n with
  | O => (p, w, h)
  | S n =>
      let '(p, w, h) := scale_input H n p w h in
      (adm_buffer_copy (band_a (adm_dwt2 H p w h)) ((w + 1) ÷ 2) ((h + 1) ÷ 2),
       (w + 1) ÷ 2, (h + 1) ÷ 2)
  end.

(** The wavelet bands of scale [n] and their size. *)
Definition scale_bands (H : adm_h) (n : nat) (p : plane) (w h : Z)
  : adm_dwt_band_t * Z * Z :=
  let '(p, w, h) := scale_input H n p w h in
  (adm_dwt2 H p w h, (w + 1) ÷ 2, (h + 1) ÷ 2).

(** A coefficient that is a number of the format, and neither an infinity
    nor a NaN. *)
Definition ok_coeff (x : float) : bool := F32.valid x && is_finite x.

(** Every H, V and D coefficient of a [w x h] band is [ok_coeff]. *)
Definition band_ok (B : adm_dwt_band_t) (w h : Z) : bool :=
  forallb
    (fun i =>
       forallb
         (fun j => ok_coeff (px (band_h B) i j) && ok_coeff (px (band_v B) i j)
                   && ok_coeff (px (band_d B) i j))
         (zrange 0 w))
    (zrange 0 h).

(** The detail bands of the four scales of a frame are [band_ok]. *)
Definition scales_ok (H : adm_h) (p : plane) (w h : Z) : bool :=
  forallb
    (fun n => band_ok (fst (fst (scale_bands H n p w h)))
                      (snd (fst (scale_bands H n p w h)))
                      (snd (scale_bands H n p w h)))
    [0; 1; 2; 3]%nat.

(** The reciprocal quantization steps of the four scales are finite. *)
Definition rfactors_ok (L : libm) (H : adm_h) : bool :=
  forallb
    (fun scale => is_finite (rfactor L H scale 0) && is_finite (rfactor L H scale 2))
    [0; 1; 2; 3].

(** [cos_1deg_sq] is a positive number of the format, at most one. *)
Definition cos_ok (L : libm) : bool :=
  match cos_1deg_sq L with
  | S754_finite false _ _ =>
      F32.valid (cos_1deg_sq L) && F32.leb (cos_1deg_sq L) F32.one
  | _ => false
  end.

(** The filter taps of adm.h are finite numbers. *)
Definition taps_finite (H : adm_h) : bool :=
  forallb is_finite (dwt2_db2_coeffs_lo H) && forallb is_finite (dwt2_db2_coeffs_hi H).

(** A frame dimension after [n] halvings. *)
Definition size_at (n : nat) (w : Z) : Z := Nat.iter n (fun x => (x + 1) ÷ 2) w.

(** What [adm_sum_cube] returns on a band of zeros: [powf (0, 1/3)] plus the
    stabilizer; and the three orientations of such a band pooled together. *)
Definition zero_pool (L : libm) (H : adm_h) (w h : Z) : float :=
  let c := F32.add (powf L F32.zero third) (band_stabilizer L H w h) in
  F32.add (F32.add (F32.add F32.zero c) c) c.

(** ** The frames the filter supports

    The wavelet filter has four taps: along a dimension of 1 its last tap
    reads index [-1], so the plane of each of the four scales must be at
    least 2 x 2, which is a frame of at least 9 x 9.  The pooled regions
    must start inside their bands, and [w * h] must be an [int]. *)
Definition in_bounds (H : adm_h) (w h : Z) : bool :=
  (filt_w H =? 4)
  && (Z.of_nat (length (dwt2_db2_coeffs_hi H)) =? 4)
  && (9 <=? w) && (9 <=? h) && (w * h <? 2 ^ 31)
  && forallb
       (fun n =>
          (0 <=? border (size_at (S n) w) (ADM_BORDER_FACTOR H))
          && (0 <=? border (size_at (S n) h) (ADM_BORDER_FACTOR H)))
       [0; 1; 2; 3]%nat.

(** ** The per-scale values

    "Per-scale numerator = sum of pooled masked-restored bands over H/V/D;
    per-scale denominator = sum of pooled CSF-weighted original-reference
    bands over H/V/D", on the wavelet bands of scale [n] of the two frames;
    the CSF is passed the height of the frame. *)
Definition pooled (L : libm) (H : adm_h) (b : adm_dwt_band_t) (w h : Z) : float :=
  sum_list (map (fun sel => adm_sum_cube L (sel b) w h (ADM_BORDER_FACTOR H))
                orientations).

Definition scale_num (L : libm) (H : adm_h) (n : nat) (ref main : plane) (w h : Z)
  : float :=
  let B := fst (fst (scale_bands H n ref w h)) in
  let B' := fst (fst (scale_bands H n main w h)) in
  let bw := snd (fst (scale_bands H n ref w h)) in
  let bh := snd (scale_bands H n ref w h) in
  let restored := fst (adm_decouple L B B' bw bh) in
  let impairment := snd (adm_decouple L B B' bw bh) in
  let thr :=
    adm_cm_thresh (adm_csf L H impairment h (Z.of_nat n) bw bh) bw bh in
  let masked := adm_cm (adm_csf L H restored h (Z.of_nat n) bw bh) thr bw bh in
  pooled L H masked bw bh.

Definition scale_den (L : libm) (H : adm_h) (n : nat) (ref : plane) (w h : Z)
  : float :=
  let B := fst (fst (scale_bands H n ref w h)) in
  let bw := snd (fst (scale_bands H n ref w h)) in
  let bh := snd (scale_bands H n ref w h) in
  pooled L H (adm_csf L H B h (Z.of_nat n) bw bh) bw bh.

(** ** The inputs of the decoupler

    What the sum invariant asks of one reference coefficient [o] and one
    distorted coefficient [t]: both are numbers of the format; and where the
    angular test fails, the estimate of [1 / (o + eps)] is a number of the
    format and [rcp (o + eps)] is finite, with the sign of [o + eps].  When
    [o + eps] is zero the estimate is an infinity and [rcp] gives a NaN. *)
Definition decouple_input_ok (L : libm) (flag : bool) (o t : float) : bool :=
  ok_coeff o && ok_coeff t
  && (flag
      || (F32.valid (rcp_ss L (F32.add o eps))
          && is_finite (rcp L (F32.add o eps))
          && Bool.eqb (signbit (rcp L (F32.add o eps))) (signbit (F32.add o eps)))).

End Spec.

(** * The filter context: vf_adm.c around [compute_adm2]

    The buffers the filter allocates and carves, and the sums it keeps from
    frame to frame.  A pointer into a buffer is a byte offset; [size_t] is
    the 64-bit unsigned type of x86-64 and wraps; an [int] is an unbounded
    integer, the properties say for which dimensions that is right. *)

Module Ctx.
Import ADM.

Definition SIZE_MAX : Z := 2 ^ 64 - 1.

(** The conversion of an integer to [size_t]. *)
Definition size_t (x : Z) : Z := x mod 2 ^ 64.

Definition sizeof_float : Z := 4.

Definition MAX_ALIGN : Z := 32.

(** [#define ALIGN_CEIL(x) ((x) + ((x) % MAX_ALIGN ? MAX_ALIGN - (x) % MAX_ALIGN : 0))]
    on a [size_t] operand. *)
Definition ALIGN_CEIL (x : Z) : Z :=
  size_t (x + (if x mod MAX_ALIGN =? 0 then 0
               else size_t (MAX_ALIGN - x mod MAX_ALIGN))).

(** [px_stride = stride / sizeof(float)], and the index of [x[i * px_stride + j]]. *)
Definition px_stride (stride : Z) : Z := stride / sizeof_float.

Definition px_index (stride i j : Z) : Z := i * px_stride stride + j.

(** ** init_dwt_band *)

(** The four planes of an [adm_dwt_band_t], as offsets into [data_buf]. *)
Record band_ptrs : Type := {
  ptr_a : Z;
  ptr_h : Z;
  ptr_v : Z;
  ptr_d : Z
}.

Definition init_dwt_band (data_top buf_sz : Z) : band_ptrs * Z :=
  let band_a := data_top in
  let data_top := data_top + buf_sz in
  let band_h := data_top in
  let data_top := data_top + buf_sz in
  let band_v := data_top in
  let data_top := data_top + buf_sz in
  let band_d := data_top in
  let data_top := data_top + buf_sz in
  ({| ptr_a := band_a; ptr_h := band_h; ptr_v := band_v; ptr_d := band_d |},
   data_top).

(** ** The buffers of compute_adm2 *)

Record adm_buffers : Type := {
  buf_stride : Z;
  buf_sz : Z;
  ref_scale : Z;
  main_scale : Z;
  ref_dwt2 : band_ptrs;
  main_dwt2 : band_ptrs;
  decouple_r : band_ptrs;
  decouple_a : band_ptrs;
  csf_o : band_ptrs;
  csf_r : band_ptrs;
  csf_a : band_ptrs;
  mta : Z;
  cm_r : band_ptrs;
  data_top : Z   (* where [data_top] stands after the last buffer *)
}.

(** The declarations of [compute_adm2] up to its scale loop: [data_buf] is
    cut into buffers of [buf_sz] bytes. *)
Definition compute_adm2_buffers (data_buf w h : Z) : adm_buffers :=
  let buf_stride := ALIGN_CEIL (size_t (((w + 1) ÷ 2) * sizeof_float)) in
  let buf_sz := size_t (buf_stride * ((h + 1) ÷ 2)) in
  let data_top := data_buf in
  let ref_scale := data_top in
  let data_top := data_top + buf_sz in
  let main_scale := data_top in
  let data_top := data_top + buf_sz in
  let '(ref_dwt2, data_top) := init_dwt_band data_top buf_sz in
  let '(main_dwt2, data_top) := init_dwt_band data_top buf_sz in
  let '(decouple_r, data_top) := init_dwt_band data_top buf_sz in
  let '(decouple_a, data_top) := init_dwt_band data_top buf_sz in
  let '(csf_o, data_top) := init_dwt_band data_top buf_sz in
  let '(csf_r, data_top) := init_dwt_band data_top buf_sz in
  let '(csf_a, data_top) := init_dwt_band data_top buf_sz in
  let mta := data_top in
  let data_top := data_top + buf_sz in
  let '(cm_r, data_top) := init_dwt_band data_top buf_sz in
  {| buf_stride := buf_stride; buf_sz := buf_sz;
     ref_scale := ref_scale; main_scale := main_scale;
     ref_dwt2 := ref_dwt2; main_dwt2 := main_dwt2;
     decouple_r := decouple_r; decouple_a := decouple_a;
     csf_o := csf_o; csf_r := csf_r; csf_a := csf_a;
     mta := mta; cm_r := cm_r; data_top := data_top |}.

(** The planes of a band and all the planes [compute_adm2] carves, in the
    order of their addresses. *)
Definition planes_of (b : band_ptrs) : list Z :=
  [ptr_a b; ptr_h b; ptr_v b; ptr_d b].

Definition carved (b : adm_buffers) : list Z :=
  [ref_scale b; main_scale b]
  ++ planes_of (ref_dwt2 b) ++ planes_of (main_dwt2 b)
  ++ planes_of (decouple_r b) ++ planes_of (decouple_a b)
  ++ planes_of (csf_o b) ++ planes_of (csf_r b) ++ planes_of (csf_a b)
  ++ [mta b] ++ planes_of (cm_r b).

(** ** The context and config_input_ref *)

Inductive errno : Type := EINVAL | ENOMEM.

(** What a callback returns: [0] or [AVERROR(e)]. *)
Inductive retcode : Type :=
| OK
| AVERROR (e : errno).

(** The fields of an [AVFilterLink] the filter reads. *)
Record AVFilterLink : Type := {
  w : Z;
  h : Z;
  format : Z   (* enum AVPixelFormat *)
}.

(** Of a pixel format descriptor the filter reads [comp[0].depth]. *)
Record AVPixFmtDescriptor : Type := {
  comp0_depth : Z
}.

(** A pointer field is [None] when it is [NULL] and [Some n] when it holds
    a block of [n] bytes. *)
Record ADMContext : Type := {
  desc : option AVPixFmtDescriptor;
  width : Z;
  height : Z;
  ref_data : option Z;
  main_data : option Z;
  data_buf : option Z;
  temp_lo : option Z;
  temp_hi : option Z;
  adm_sum : double;
  nb_frames : Z   (* uint64_t *)
}.

(** The private context as the framework hands it to [init]: zeroed. *)
Definition zeroed : ADMContext :=
  {| desc := None; width := 0; height := 0;
     ref_data := None; main_data := None; data_buf := None;
     temp_lo := None; temp_hi := None;
     adm_sum := F64.zero; nb_frames := 0 |}.

(** The allocator is outside the filter: whether its successive calls
    succeed is an input, one answer per call. *)
Definition av_malloc (answers : list bool) (size : Z) : option Z * list bool :=
  match answers with
  | true :: rest => (Some size, rest)
  | false :: rest => (None, rest)
  | [] => (None, [])
  end.

(** The assignments to the fields of the context. *)
Definition set_link (d : AVPixFmtDescriptor) (w h : Z) (s : ADMContext) : ADMContext :=
  {| desc := Some d; width := w; height := h;
     ref_data := ref_data s; main_data := main_data s; data_buf := data_buf s;
     temp_lo := temp_lo s; temp_hi := temp_hi s;
     adm_sum := adm_sum s; nb_frames := nb_frames s |}.

Definition set_ref_data (p : option Z) (s : ADMContext) : ADMContext :=
  {| desc := desc s; width := width s; height := height s;
     ref_data := p; main_data := main_data s; data_buf := data_buf s;
     temp_lo := temp_lo s; temp_hi := temp_hi s;
     adm_sum := adm_sum s; nb_frames := nb_frames s |}.

Definition set_main_data (p : option Z) (s : ADMContext) : ADMContext :=
  {| desc := desc s; width := width s; height := height s;
     ref_data := ref_data s; main_data := p; data_buf := data_buf s;
     temp_lo := temp_lo s; temp_hi := temp_hi s;
     adm_sum := adm_sum s; nb_frames := nb_frames s |}.

Definition set_data_buf (p : option Z) (s : ADMContext) : ADMContext :=
  {| desc := desc s; width := width s; height := height s;
     ref_data := ref_data s; main_data := main_data s; data_buf := p;
     temp_lo := temp_lo s; temp_hi := temp_hi s;
     adm_sum := adm_sum s; nb_frames := nb_frames s |}.

Definition set_temp_lo (p : option Z) (s : ADMContext) : ADMContext :=
  {| desc := desc s; width := width s; height := height s;
     ref_data := ref_data s; main_data := main_data s; data_buf := data_buf s;
     temp_lo := p; temp_hi := temp_hi s;
     adm_sum := adm_sum s; nb_frames := nb_frames s |}.

Definition set_temp_hi (p : option Z) (s : ADMContext) : ADMContext :=
  {| desc := desc s; width := width s; height := height s;
     ref_data := ref_data s; main_data := main_data s; data_buf := data_buf s;
     temp_lo := temp_lo s; temp_hi := p;
     adm_sum := adm_sum s; nb_frames := nb_frames s |}.

Definition set_sums (sum : double) (n : Z) (s : ADMContext) : ADMContext :=
  {| desc := desc s; width := width s; height := height s;
     ref_data := ref_data s; main_data := main_data s; data_buf := data_buf s;
     temp_lo := temp_lo s; temp_hi := temp_hi s;
     adm_sum := sum; nb_frames := n |}.

Section Config.
(** [av_pix_fmt_desc_get] of libavutil/pixdesc.c, a table lookup. *)
Variable av_pix_fmt_desc_get : Z -> AVPixFmtDescriptor.

(** [config_input_ref (inlink)], with [inputs0] and [inputs1] the links
    [ctx->inputs[0]] and [ctx->inputs[1]].  The result is [None] where the C
    is undefined: the division [SIZE_MAX / buf_sz] by zero. *)
Definition config_input_ref (inlink inputs0 inputs1 : AVFilterLink)
    (s : ADMContext) (answers : list bool)
  : option (retcode * ADMContext * list bool) :=
  if negb (w inputs0 =? w inputs1) || negb (h inputs0 =? h inputs1)
  then Some (AVERROR EINVAL, s, answers)
  else if negb (format inputs0 =? format inputs1)
  then Some (AVERROR EINVAL, s, answers)
  else
    let s := set_link (av_pix_fmt_desc_get (format inlink)) (w inputs0) (h inputs0) s in
    let stride := ALIGN_CEIL (size_t (w inputs0 * sizeof_float)) in
    let data_sz := size_t (stride * h inputs0) in
    let '(p, answers) := av_malloc answers data_sz in
    let s := set_ref_data p s in
    match p with
    | None => Some (AVERROR ENOMEM, s, answers)
    | Some _ =>
    let '(p, answers) := av_malloc answers data_sz in
    let s := set_main_data p s in
    match p with
    | None => Some (AVERROR ENOMEM, s, answers)
    | Some _ =>
    let buf_stride := ALIGN_CEIL (size_t (((w inputs0 + 1) ÷ 2) * sizeof_float)) in
    let buf_sz := size_t (buf_stride * ((h inputs0 + 1) ÷ 2)) in
    if buf_sz =? 0 then None
    else if SIZE_MAX / buf_sz <? 35 then Some (AVERROR EINVAL, s, answers)
    else
    let '(p, answers) := av_malloc answers (size_t (buf_sz * 35)) in
    let s := set_data_buf p s in
    match p with
    | None => Some (AVERROR ENOMEM, s, answers)
    | Some _ =>
    let '(p, answers) := av_malloc answers stride in
    let s := set_temp_lo p s in
    match p with
    | None => Some (AVERROR ENOMEM, s, answers)
    | Some _ =>
    let '(p, answers) := av_malloc answers stride in
    let s := set_temp_hi p s in
    match p with
    | None => Some (AVERROR ENOMEM, s, answers)
    | Some _ => Some (OK, s, answers)
    end end end end end.

End Config.

(** ** do_adm and uninit *)

Section Frames.
Variable L : libm.
Variable H : adm_h.

(** [do_adm]: the score of the frame pair, the value [set_meta] formats
    under the key lavfi.adm.score (its parameter is a [float]), and the two
    running sums.  A context without descriptor is a null dereference. *)
Definition do_adm (s : ADMContext) (main ref : samples)
  : option (ADMContext * float) :=
  match desc s with
  | None => None
  | Some d =>
      let r := ADM.do_adm L H (comp0_depth d) (width s) (height s) main ref in
      let meta := F32.of_double (score r) in
      Some (set_sums (F64.add (adm_sum s) (score r))
                     ((nb_frames s + 1) mod 2 ^ 64) s,
            meta)
  end.

(** [do_adm] on the frame pairs of a stream, in turn. *)
Fixpoint do_adm_all (s : ADMContext) (frames : list (samples * samples))
  : option ADMContext :=
  match frames with
  | [] => Some s
  | (main, ref) :: rest =>
      match do_adm s main ref with
      | None => None
      | Some (s, _) => do_adm_all s rest
      end
  end.

End Frames.

(** [uninit]: the average it logs, if it logs one, and the five pointers it
    frees. *)
Definition uninit (s : ADMContext) : option double * list (option Z) :=
  ((if 0 <? nb_frames s
    then Some (F64.div (adm_sum s) (F64.of_Z (nb_frames s)))
    else None),
   [ref_data s; main_data s; data_buf s; temp_lo s; temp_hi s]).

End Ctx.

(** * More frames to run the filter on *)

Module RefMore.
Import ADM.

(** The ramp frame in a buffer whose rows carry one more float of padding,
    and its wavelet bands; the bands of the black frame. *)
Definition padded_ramp : plane :=
  map (fun row => row ++ [F32.one]) (Ref.plane_of Ref.ramp).

Definition black_dwt : adm_dwt_band_t := adm_dwt2 Ref.H (Ref.plane_of Ref.black) 16 16.

(** One-pixel bands, to run the decoupler on chosen coefficients. *)
Definition one_px (h v d : float) : adm_dwt_band_t :=
  {| band_a := []; band_v := [[v]]; band_h := [[h]]; band_d := [[d]] |}.

(** A reference pixel whose horizontal coefficient is [-1e-30f], and a
    distorted pixel that points the other way. *)
Definition tiny_ref : adm_dwt_band_t := one_px (SFopp eps) F32.one F32.zero.
Definition turned_main : adm_dwt_band_t := one_px F32.one (SFopp F32.one) F32.zero.

(** A reference pixel of ones, and a distorted pixel whose horizontal
    coefficient is [+inf]. *)
Definition unit_ref : adm_dwt_band_t := one_px F32.one F32.one F32.zero.
Definition inf_main : adm_dwt_band_t := one_px (S754_infinity false) F32.one F32.zero.

(** The ramp with every sample multiplied by [2^40], and by [2^119]: the
    samples of both are finite numbers. *)
Definition huge_ramp : plane :=
  map (map (fun x => F32.mul x (F32.of_Z (2 ^ 40)))) (Ref.plane_of Ref.ramp).
Definition vast_ramp : plane :=
  map (map (fun x => F32.mul x (F32.of_Z (2 ^ 119)))) (Ref.plane_of Ref.ramp).

End RefMore.

(** * Facts on the integer rounding *)

Module RoundArith.
Import Round.

Lemma rneP_cases M P :
  0 < P ->
  let q := M / P in
  let r := M mod P in
  M = P * q + r /\ 0 <= r < P /\
  ((2 * r < P /\ rneP M P = q) \/
   (2 * r = P /\ rneP M P = (if Z.even q then q else q + 1)) \/
   (P < 2 * r /\ rneP M P = q + 1)).
Proof.
  intros HP q r.
  assert (Hdm : M = P * q + r) by (apply Z.div_mod; lia).
  assert (Hr : 0 <= r < P) by (apply Z.mod_pos_bound; lia).
  split; [exact Hdm|]. split; [exact Hr|].
  unfold rneP. fold q. fold r.
  destruct (Z.compare_spec (2 * r) P) as [H|H|H]; auto.
Qed.

Lemma rneP_bounds M P : 0 < P -> M / P <= rneP M P <= M / P + 1.
Proof.
  intros HP. destruct (rneP_cases M HP) as (_ & _ & [[_ ->]|[[_ ->]|[_ ->]]]);
    try lia.
  destruct (Z.even (M / P)); lia.
Qed.

Lemma rneP_error M P : 0 < P -> 2 * Z.abs (rneP M P * P - M) <= P.
Proof.
  intros HP. destruct (rneP_cases M HP) as (Hdm & Hr & [[H ->]|[[H ->]|[H ->]]]).
  - nia.
  - destruct (Z.even (M / P)); nia.
  - nia.
Qed.

Lemma rneP_mono M1 M2 P : 0 < P -> M1 <= M2 -> rneP M1 P <= rneP M2 P.
Proof.
  intros HP Hle.
  assert (Hq : M1 / P <= M2 / P) by (apply Z.div_le_mono; lia).
  destruct (Z.eq_dec (M1 / P) (M2 / P)) as [He|Hne].
  - destruct (rneP_cases M1 HP) as (Hd1 & Hr1 & C1).
    destruct (rneP_cases M2 HP) as (Hd2 & Hr2 & C2).
    rewrite <- He in *.
    assert (Hrr : M1 mod P <= M2 mod P) by nia.
    destruct C1 as [[H1 ->]|[[H1 ->]|[H1 ->]]];
      destruct C2 as [[H2 ->]|[[H2 ->]|[H2 ->]]];
      try destruct (Z.even (M1 / P)); lia.
  - pose proof (rneP_bounds M1 HP). pose proof (rneP_bounds M2 HP). lia.
Qed.

Lemma rneP_scale M P J : 0 < P -> 0 < J -> rneP (M * J) (P * J) = rneP M P.
Proof.
  intros HP HJ. unfold rneP.
  rewrite Z.div_mul_cancel_r by lia.
  rewrite Z.mul_mod_distr_r by lia.
  replace (2 * (M mod P * J)) with (2 * (M mod P) * J) by ring.
  rewrite <- Zmult_compare_compat_r by lia. reflexivity.
Qed.

Lemma rneP_exact M P : 0 < P -> rneP (M * P) P = M.
Proof.
  intros HP. unfold rneP. rewrite Z.div_mul, Z.mod_mul by lia.
  rewrite Z.mul_0_r. destruct (Z.compare_spec 0 P); lia.
Qed.

Lemma pow2_pos k : 0 <= k -> 0 < 2 ^ k.
Proof. intros. apply Z.pow_pos_nonneg; lia. Qed.

Lemma pow2_le a b : 0 <= a <= b -> 2 ^ a <= 2 ^ b.
Proof. intros. apply Z.pow_le_mono_r; lia. Qed.

Lemma pow2_lt a b : 0 <= a < b -> 2 ^ a < 2 ^ b.
Proof. intros. apply Z.pow_lt_mono_r; lia. Qed.

Lemma pow2_split a b : 0 <= a <= b -> 2 ^ b = 2 ^ (b - a) * 2 ^ a.
Proof.
  intros. rewrite <- Z.pow_add_r by lia. f_equal. lia.
Qed.

Lemma pow2_succ a : 0 <= a -> 2 ^ (a + 1) = 2 * 2 ^ a.
Proof. intros. rewrite Z.pow_add_r by lia. change (2 ^ 1) with 2. ring. Qed.

Lemma rne_bounds M k : 0 <= k -> M / 2 ^ k <= rne M k <= M / 2 ^ k + 1.
Proof. intros. apply rneP_bounds, pow2_pos; assumption. Qed.

Lemma rne_error M k : 0 <= k -> 2 * Z.abs (rne M k * 2 ^ k - M) <= 2 ^ k.
Proof. intros. apply rneP_error, pow2_pos; assumption. Qed.

Lemma rne_mono M1 M2 k : 0 <= k -> M1 <= M2 -> rne M1 k <= rne M2 k.
Proof. intros. apply rneP_mono; [apply pow2_pos|]; assumption. Qed.

Lemma rne_shift M k j : 0 <= k -> 0 <= j -> rne (M * 2 ^ j) (k + j) = rne M k.
Proof.
  intros. unfold rne. rewrite Z.pow_add_r by lia.
  apply rneP_scale; apply pow2_pos; assumption.
Qed.

Lemma rne_0 M : rne M 0 = M.
Proof.
  unfold rne. change (2 ^ 0) with 1.
  replace M with (M * 1) at 1 by ring. apply rneP_exact. lia.
Qed.

Lemma rne_exact M k : 0 <= k -> rne (M * 2 ^ k) k = M.
Proof. intros. apply rneP_exact, pow2_pos; assumption. Qed.

Lemma rne_nonneg M k : 0 <= k -> 0 <= M -> 0 <= rne M k.
Proof.
  intros Hk HM. pose proof (rne_bounds M Hk).
  assert (0 <= M / 2 ^ k) by (apply Z.div_pos; [lia|apply pow2_pos; lia]). lia.
Qed.

(** A value below [2^d] never rounds above [2^d]. *)
Lemma rne_upper M k d :
  0 <= k -> 0 <= d -> 0 <= M < 2 ^ d -> rne M k * 2 ^ k <= 2 ^ d.
Proof.
  intros Hk Hd HM. pose proof (pow2_pos Hk) as HP.
  destruct (Z_le_gt_dec k d) as [Hkd|Hkd].
  - rewrite (@pow2_split k d) in * by lia.
    pose proof (pow2_pos (k := d - k) ltac:(lia)) as HQ.
    pose proof (rne_bounds M Hk) as [_ Hb].
    assert (M / 2 ^ k < 2 ^ (d - k)) by (apply Z.div_lt_upper_bound; lia).
    nia.
  - assert (Hd' : 2 * 2 ^ d <= 2 ^ k).
    { rewrite <- pow2_succ by lia. apply pow2_le. lia. }
    unfold rne.
    destruct (rneP_cases M HP) as (Hdm & Hr & C).
    assert (Hq : M / 2 ^ k = 0) by (apply Z.div_small; lia).
    rewrite Hq in *. assert (M mod 2 ^ k = M) by lia.
    destruct C as [[H1 ->]|[[H1 ->]|[H1 ->]]]; simpl; lia.
Qed.

(** A value of at least [2^d] keeps at least [d - k] bits. *)
Lemma rne_lower M k d :
  0 <= k <= d -> 2 ^ d <= M -> 2 ^ (d - k) <= rne M k.
Proof.
  intros Hk HM. pose proof (pow2_pos (k := k) ltac:(lia)) as HP.
  pose proof (rne_bounds M (k := k) ltac:(lia)) as [Hb _].
  assert (2 ^ (d - k) <= M / 2 ^ k).
  { apply Z.div_le_lower_bound; [lia|].
    rewrite Z.mul_comm, <- pow2_split by lia. exact HM. }
  lia.
Qed.

End RoundArith.

(** * What the rounding of [SpecFloat] computes

    [SpecFloat] rounds by shifting a mantissa right while it tracks a round
    bit and a sticky bit.  This section relates that bit-level procedure to
    [rne], and derives the facts the properties of the filter rest on: the
    result of an operation is a canonical number of the format, rounding is
    monotone, and an addition or subtraction is off by at most half a unit in
    the last place. *)

Module FloatTheory.
Import Round RoundArith FloatDefs.

Lemma digits2_pos_bounds p :
  2 ^ (Zpos (digits2_pos p) - 1) <= Zpos p < 2 ^ Zpos (digits2_pos p).
Proof.
  induction p as [p IH|p IH|]; cbn [digits2_pos].
  - rewrite Pos2Z.inj_succ, Pos2Z.inj_xI.
    replace (Z.succ (Zpos (digits2_pos p)) - 1) with (Zpos (digits2_pos p) - 1 + 1) by lia.
    replace (Z.succ (Zpos (digits2_pos p))) with (Zpos (digits2_pos p) + 1) by lia.
    rewrite !pow2_succ by lia. lia.
  - rewrite Pos2Z.inj_succ, Pos2Z.inj_xO.
    replace (Z.succ (Zpos (digits2_pos p)) - 1) with (Zpos (digits2_pos p) - 1 + 1) by lia.
    replace (Z.succ (Zpos (digits2_pos p))) with (Zpos (digits2_pos p) + 1) by lia.
    rewrite !pow2_succ by lia. lia.
  - simpl. lia.
Qed.

Lemma Zdigits2_bounds M :
  0 < M -> 0 < Zdigits2 M /\ 2 ^ (Zdigits2 M - 1) <= M < 2 ^ Zdigits2 M.
Proof.
  destruct M as [|p|p]; try lia. intros _. cbn [Zdigits2].
  split; [lia|apply digits2_pos_bounds].
Qed.

Lemma Zdigits2_unique M d :
  0 < d -> 2 ^ (d - 1) <= M < 2 ^ d -> Zdigits2 M = d.
Proof.
  intros Hd HM.
  assert (0 < M) by (pose proof (pow2_pos (k := d - 1) ltac:(lia)); lia).
  destruct (Zdigits2_bounds H) as (Hp & Hb).
  destruct (Z.lt_trichotomy (Zdigits2 M) d) as [Hlt|[Heq|Hgt]]; [|exact Heq|].
  - pose proof (pow2_le (a := Zdigits2 M) (b := d - 1) ltac:(lia)). lia.
  - pose proof (pow2_le (a := d) (b := Zdigits2 M - 1) ltac:(lia)). lia.
Qed.

Lemma Zdigits2_shift M k :
  0 < M -> 0 <= k -> Zdigits2 (M * 2 ^ k) = Zdigits2 M + k.
Proof.
  intros HM Hk. destruct (Zdigits2_bounds HM) as (Hp & Hb).
  pose proof (pow2_pos Hk).
  apply Zdigits2_unique; [lia|].
  replace (Zdigits2 M + k - 1) with (Zdigits2 M - 1 + k) by lia.
  rewrite !Z.pow_add_r by lia. nia.
Qed.

(** ** The shift-right loop *)

Lemma shr_1_nonneg m r s :
  0 <= m ->
  shr_1 (Build_shr_record m r s) = Build_shr_record (m / 2) (Z.odd m) (r || s).
Proof.
  intros Hm. rewrite <- Z.div2_div.
  destruct m as [|[p|p|]|p]; try lia; reflexivity.
Qed.

Lemma iter_pos_nat (A : Type) (f : A -> A) p x :
  SpecFloat.iter_pos f p x = Nat.iter (Pos.to_nat p) f x.
Proof.
  revert x. induction p as [p IH|p IH|]; intros x; cbn [SpecFloat.iter_pos].
  - rewrite !IH, Pos2Nat.inj_xI.
    replace (S (2 * Pos.to_nat p))%nat
      with (Pos.to_nat p + (Pos.to_nat p + 1))%nat by lia.
    rewrite !Nat.iter_add. reflexivity.
  - rewrite !IH, Pos2Nat.inj_xO.
    replace (2 * Pos.to_nat p)%nat with (Pos.to_nat p + Pos.to_nat p)%nat by lia.
    rewrite Nat.iter_add. reflexivity.
  - reflexivity.
Qed.

Lemma iter_shr_1 m k :
  0 <= m ->
  let rec := Nat.iter k shr_1 (Build_shr_record m false false) in
  shr_m rec = m / 2 ^ Z.of_nat k /\
  loc_of_shr_record rec = loc_of_rem (m mod 2 ^ Z.of_nat k) (2 ^ Z.of_nat k).
Proof.
  intros Hm. cbv zeta. induction k as [|k IH].
  - cbn. rewrite Z.div_1_r, Z.mod_1_r. split; reflexivity.
  - rewrite Nat.iter_succ.
    destruct (Nat.iter k shr_1 (Build_shr_record m false false)) as [q r s].
    cbn [shr_m] in IH. destruct IH as (Hq & Hloc).
    assert (HP : 0 < 2 ^ Z.of_nat k) by (apply pow2_pos; lia).
    assert (Hq0 : 0 <= q) by (subst q; apply Z.div_pos; lia).
    rewrite (shr_1_nonneg r s Hq0). cbn [shr_m].
    rewrite Nat2Z.inj_succ. unfold Z.succ. rewrite pow2_succ by lia.
    set (P := 2 ^ Z.of_nat k) in *.
    assert (Hdm : m = P * q + m mod P) by (subst q; apply Z.div_mod; lia).
    assert (Hr : 0 <= m mod P < P) by (apply Z.mod_pos_bound; lia).
    assert (Hq2 : q = 2 * (q / 2) + q mod 2) by (apply Z.div_mod; lia).
    assert (Hr2 : 0 <= q mod 2 < 2) by (apply Z.mod_pos_bound; lia).
    assert (Hnew : m / (2 * P) = q / 2 /\ m mod (2 * P) = (q mod 2) * P + m mod P).
    { apply Z.div_mod_unique with (b := 2 * P).
      - left. apply Z.mod_pos_bound. lia.
      - left. nia.
      - rewrite <- Z.div_mod by lia. nia. }
    destruct Hnew as (-> & ->). split; [reflexivity|].
    rewrite Zodd_mod. unfold loc_of_rem in *.
    destruct (Z.eqb_spec (m mod P) 0) as [H0|H0];
      destruct r, s; cbn in Hloc; try discriminate;
      destruct (Z.eqb_spec (q mod 2) 1) as [H1|H1]; cbn [orb loc_of_shr_record];
      match goal with
      | |- context [?a =? 0] => destruct (Z.eqb_spec a 0) as [H2|H2]
      end; try nia; try reflexivity;
      try (f_equal; symmetry;
           first [apply Z.compare_lt_iff; nia | apply Z.compare_eq_iff; nia
                 | apply Z.compare_gt_iff; nia]).
Qed.

Lemma round_loc_of_rem M P :
  0 < P -> round_nearest_even (M / P) (loc_of_rem (M mod P) P) = rneP M P.
Proof.
  intros HP. unfold loc_of_rem, rneP, round_nearest_even.
  destruct (Z.eqb_spec (M mod P) 0) as [H0|H0].
  - rewrite H0, Z.mul_0_r. destruct (Z.compare_spec 0 P); lia.
  - destruct (2 * (M mod P) ?= P); reflexivity.
Qed.

Lemma shr_round M E n :
  0 <= M -> 0 <= n ->
  round_nearest_even
    (shr_m (fst (shr (Build_shr_record M false false) E n)))
    (loc_of_shr_record (fst (shr (Build_shr_record M false false) E n)))
    = rne M n /\
  shr_m (fst (shr (Build_shr_record M false false) E n)) = M / 2 ^ n /\
  snd (shr (Build_shr_record M false false) E n) = E + n.
Proof.
  intros HM Hn. unfold shr. destruct n as [|p|p]; try lia.
  - cbn [fst snd shr_m loc_of_shr_record round_nearest_even].
    rewrite rne_0, Z.div_1_r. lia.
  - cbn [fst snd]. rewrite iter_pos_nat.
    destruct (iter_shr_1 (Pos.to_nat p) HM) as (Hq & Hl).
    rewrite positive_nat_Z in Hq, Hl. rewrite Hq, Hl.
    split; [|split; reflexivity].
    apply round_loc_of_rem, pow2_pos; lia.
Qed.

(** ** Rounding in a format *)

Section Format.
Variables prec emax : Z.
Hypothesis Hprec : 0 < prec.
Hypothesis Hemax : prec < emax.
#[local] Set Default Proof Using "Hprec Hemax".

Abbreviation emin := (SpecFloat.emin prec emax).
Abbreviation fexp := (SpecFloat.fexp prec emax).
Abbreviation norm := (FloatDefs.norm prec).
Abbreviation pack := (FloatDefs.pack prec emax).
Abbreviation rounded := (FloatDefs.rounded prec emax).
Abbreviation mant := (FloatDefs.mant prec emax).

Ltac fx := unfold SpecFloat.fexp, SpecFloat.emin in *.

Lemma rounded_facts M E n :
  0 < M -> n = fexp (Zdigits2 M + E) - E -> 0 <= n ->
  0 <= rne M n <= 2 ^ prec /\ emin <= E + n /\
  (emin < E + n -> 2 ^ (prec - 1) <= rne M n).
Proof.
  intros HM Hn Hn0. destruct (Zdigits2_bounds HM) as (Hd & Hb).
  set (d := Zdigits2 M) in *.
  assert (Hn' : n = Z.max (d - prec) (emin - E)) by (fx; lia).
  pose proof (pow2_pos Hn0) as HP.
  split; [split|split].
  - apply rne_nonneg; lia.
  - pose proof (@rne_upper M n d Hn0 ltac:(lia) ltac:(lia)) as Hu.
    assert (2 ^ d <= 2 ^ prec * 2 ^ n).
    { rewrite <- Z.pow_add_r by lia. apply pow2_le. lia. }
    nia.
  - fx; lia.
  - intros He. assert (n = d - prec) by (fx; lia).
    replace (prec - 1) with (d - 1 - n) by lia.
    apply rne_lower; lia.
Qed.

Lemma canonical_of q e :
  0 < q < 2 ^ prec -> emin <= e -> (emin < e -> 2 ^ (prec - 1) <= q) ->
  fexp (Zdigits2 q + e) = e.
Proof.
  intros Hq He Hn. destruct (Zdigits2_bounds (proj1 Hq)) as (Hd & Hb).
  set (d := Zdigits2 q) in *.
  assert (d <= prec).
  { destruct (Z_le_gt_dec d prec); [assumption|].
    pose proof (pow2_le (a := prec) (b := d - 1) ltac:(lia)). lia. }
  destruct (Z.eq_dec e emin) as [->|Hne]; [fx; lia|].
  assert (prec <= d).
  { destruct (Z_le_gt_dec prec d); [assumption|].
    pose proof (pow2_le (a := d) (b := prec - 1) ltac:(lia)).
    specialize (Hn ltac:(lia)). lia. }
  fx; lia.
Qed.

Lemma shr_nonpos mrs e n : n <= 0 -> shr mrs e n = (mrs, e).
Proof using Type. destruct n; try reflexivity; lia. Qed.

(** What [binary_round_aux] returns on an exact mantissa that carries at
    least the bits the format keeps. *)
Theorem binary_round_aux_spec s M E :
  0 < M -> E <= fexp (Zdigits2 M + E) ->
  binary_round_aux prec emax s M E loc_Exact
  = pack s (rne M (fexp (Zdigits2 M + E) - E)) (fexp (Zdigits2 M + E)).
Proof.
  intros HM HE. set (e := fexp (Zdigits2 M + E)) in *.
  assert (Hn0 : 0 <= e - E) by lia.
  destruct (@rounded_facts M E (e - E) HM eq_refl Hn0) as (Hq & He & Hnorm).
  replace (E + (e - E)) with e in * by lia.
  unfold binary_round_aux, shr_fexp. cbn [shr_record_of_loc]. fold e.
  destruct (@shr_round M E (e - E) ltac:(lia) Hn0) as (H1 & _ & H3).
  destruct (shr (Build_shr_record M false false) E (e - E)) as [mrs' e'].
  cbn [fst snd] in H1, H3. rewrite H1. subst e'.
  replace (E + (e - E)) with e by lia.
  set (q := rne M (e - E)) in *. unfold FloatDefs.pack, FloatDefs.norm.
  destruct (Z.eqb_spec q 0) as [Hq0|Hq0].
  - rewrite Hq0. cbn [Zdigits2]. rewrite shr_nonpos by (fx; lia).
    reflexivity.
  - destruct (Z.ltb_spec q (2 ^ prec)) as [Hlt|Hge].
    + rewrite canonical_of, Z.sub_diag by (try assumption; lia).
      cbn [shr shr_m fst snd]. destruct q as [|p|p]; try lia. reflexivity.
    + assert (Hq2 : q = 2 ^ prec) by lia.
      assert (Hd : Zdigits2 q = prec + 1).
      { apply Zdigits2_unique; [lia|]. rewrite Hq2.
        replace (prec + 1 - 1) with prec by lia. split; [lia|].
        apply pow2_lt; lia. }
      rewrite Hd.
      assert (He1 : fexp (prec + 1 + e) - e = 1) by (fx; lia).
      rewrite He1.
      destruct (@shr_round q e 1 ltac:(lia) ltac:(lia)) as (_ & H2 & H4).
      destruct (shr (Build_shr_record q false false) e 1) as [mrs2 e2].
      cbn [fst snd] in H2, H4. rewrite H2, H4, Hq2.
      change (2 ^ 1) with 2.
      replace (2 ^ prec / 2) with (2 ^ (prec - 1)).
      2:{ replace prec with (prec - 1 + 1) at 2 by lia.
          rewrite pow2_succ by lia. rewrite Z.mul_comm, Z.div_mul; lia. }
      pose proof (pow2_pos (k := prec - 1) ltac:(lia)) as Hpp.
      cbn [fst snd].
      destruct (2 ^ (prec - 1)) as [|p|p]; try lia. reflexivity.
Qed.

Lemma shl_align_spec (m : positive) e e' :
  snd (shl_align m e e') = Z.min e e' /\
  Zpos (fst (shl_align m e e')) = Zpos m * 2 ^ (e - Z.min e e').
Proof.
  unfold shl_align. destruct (e' - e) as [|d|d] eqn:Hd; cbn [fst snd].
  - replace (Z.min e e') with e by lia. rewrite Z.sub_diag. split; lia.
  - replace (Z.min e e') with e by lia. rewrite Z.sub_diag. split; lia.
  - replace (Z.min e e') with e' by lia. split; [reflexivity|].
    rewrite (Pos.iter_swap_gen _ _ Zpos xO (Z.mul 2)) by reflexivity.
    change (Pos.iter (Z.mul 2) (Zpos m) d) with (Z.shiftl (Zpos m) (Zpos d)).
    rewrite Z.shiftl_mul_pow2 by lia. f_equal. f_equal. lia.
Qed.

Theorem binary_round_spec s (m : positive) E E0 :
  E0 <= E -> E0 <= fexp (Zdigits2 (Zpos m) + E) ->
  binary_round prec emax s m E
  = pack s (rne (scaled (Zpos m) E E0) (fexp (Zdigits2 (Zpos m) + E) - E0))
           (fexp (Zdigits2 (Zpos m) + E)).
Proof.
  intros H0 H1. unfold binary_round.
  change (Zpos (digits2_pos m)) with (Zdigits2 (Zpos m)).
  set (e := fexp (Zdigits2 (Zpos m) + E)) in *.
  destruct (shl_align_spec m E e) as (He & Hm).
  destruct (shl_align m E e) as [mz ez]. cbn [fst snd] in He, Hm.
  assert (Hdig : Zdigits2 (Zpos mz) + ez = Zdigits2 (Zpos m) + E).
  { rewrite Hm, Zdigits2_shift by lia. lia. }
  rewrite binary_round_aux_spec by (rewrite ?Hdig; fold e; lia).
  rewrite Hdig. fold e. f_equal.
  unfold scaled. rewrite Hm.
  replace (E - E0) with (E - Z.min E e + (ez - E0)) by lia.
  rewrite Z.pow_add_r, Z.mul_assoc by lia.
  replace (e - E0) with (e - ez + (ez - E0)) by lia.
  rewrite rne_shift by lia. rewrite He. reflexivity.
Qed.

Lemma binary_round_rounded (m : positive) E E0 :
  E0 <= E -> E0 <= fexp (Zdigits2 (Zpos m) + E) ->
  rounded (rne (scaled (Zpos m) E E0) (fexp (Zdigits2 (Zpos m) + E) - E0))
          (fexp (Zdigits2 (Zpos m) + E)).
Proof.
  intros H0 H1. set (e := fexp (Zdigits2 (Zpos m) + E)).
  assert (HM : 0 < scaled (Zpos m) E E0).
  { unfold scaled. pose proof (pow2_pos (k := E - E0) ltac:(lia)). nia. }
  assert (Hd : Zdigits2 (scaled (Zpos m) E E0) + E0 = Zdigits2 (Zpos m) + E).
  { unfold scaled. rewrite Zdigits2_shift by lia. lia. }
  destruct (@rounded_facts (scaled (Zpos m) E E0) E0 (e - E0) HM) as (A & B & C).
  - rewrite Hd. reflexivity.
  - fold e in H1. lia.
  - replace (E0 + (e - E0)) with e in * by lia. repeat split; tauto.
Qed.

Lemma norm_rounded q e :
  0 < q -> rounded q e ->
  0 < fst (norm q e) < 2 ^ prec /\ emin <= snd (norm q e) /\
  (emin < snd (norm q e) -> 2 ^ (prec - 1) <= fst (norm q e)) /\
  fst (norm q e) * 2 ^ (snd (norm q e) - e) = q.
Proof.
  intros Hq (Hb & He & Hn). unfold FloatDefs.norm.
  pose proof (pow2_pos (k := prec - 1) ltac:(lia)) as Hpp.
  assert (H2 : 2 ^ prec = 2 * 2 ^ (prec - 1)).
  { replace prec with (prec - 1 + 1) at 1 by lia. apply pow2_succ. lia. }
  destruct (Z.ltb_spec q (2 ^ prec)); cbn [fst snd].
  - rewrite Z.sub_diag, Z.mul_1_r. repeat split; first [lia | exact Hn].
  - replace (e + 1 - e) with 1 by lia. change (2 ^ 1) with 2.
    repeat split; lia.
Qed.

Lemma pack_valid s q e : rounded q e -> valid_binary prec emax (pack s q e) = true.
Proof.
  intros Hr. unfold FloatDefs.pack.
  destruct (Z.eqb_spec q 0); [reflexivity|].
  destruct (Z.leb_spec (snd (norm q e)) (emax - prec)); [|reflexivity].
  assert (Hq : 0 < q) by (destruct Hr; lia).
  destruct (norm_rounded Hq Hr) as (A & B & C & _).
  cbn [valid_binary]. unfold bounded, canonical_mantissa.
  change (Zpos (digits2_pos (Z.to_pos (fst (norm q e)))))
    with (Zdigits2 (Zpos (Z.to_pos (fst (norm q e))))).
  rewrite Z2Pos.id by lia. rewrite canonical_of by assumption.
  rewrite Z.eqb_refl. apply Z.leb_le. assumption.
Qed.

Lemma binary_round_valid s m E :
  valid_binary prec emax (binary_round prec emax s m E) = true.
Proof.
  set (E0 := Z.min E (fexp (Zdigits2 (Zpos m) + E))).
  rewrite (@binary_round_spec s m E E0) by (subst E0; lia).
  apply pack_valid, binary_round_rounded; subst E0; lia.
Qed.

(** Canonical numbers are fixed points of the rounding. *)
Lemma valid_finite_facts s m e :
  valid_binary prec emax (S754_finite s m e) = true ->
  fexp (Zdigits2 (Zpos m) + e) = e /\ e <= emax - prec /\ emin <= e /\
  Zpos m < 2 ^ prec /\ (emin < e -> 2 ^ (prec - 1) <= Zpos m).
Proof.
  cbn [valid_binary]. unfold bounded, canonical_mantissa.
  change (Zpos (digits2_pos m)) with (Zdigits2 (Zpos m)).
  intros H. apply andb_true_iff in H. destruct H as (H1 & H2).
  apply Z.eqb_eq in H1. apply Z.leb_le in H2.
  destruct (@Zdigits2_bounds (Zpos m) ltac:(lia)) as (Hd & Hb).
  set (d := Zdigits2 (Zpos m)) in *.
  assert (d <= prec) by (fx; lia).
  split; [exact H1|]. split; [exact H2|]. split; [fx; lia|]. split.
  - pose proof (pow2_le (a := d) (b := prec) ltac:(lia)). lia.
  - intros He. assert (d = prec) by (fx; lia). subst d. rewrite <- H0. lia.
Qed.

Lemma pack_canonical s m e :
  valid_binary prec emax (S754_finite s m e) = true ->
  pack s (Zpos m) e = S754_finite s m e.
Proof.
  intros H. destruct (valid_finite_facts _ _ _ H) as (_ & He & _ & Hm & _).
  unfold FloatDefs.pack, FloatDefs.norm. cbn [Z.eqb].
  destruct (Z.ltb_spec (Zpos m) (2 ^ prec)); try lia. cbn [fst snd].
  destruct (Z.leb_spec e (emax - prec)); try lia. reflexivity.
Qed.

Lemma binary_round_canonical s m e k :
  valid_binary prec emax (S754_finite s m e) = true -> 0 <= k ->
  binary_round prec emax s (Z.to_pos (Zpos m * 2 ^ k)) (e - k)
  = S754_finite s m e.
Proof.
  intros H Hk. destruct (valid_finite_facts _ _ _ H) as (Hc & _).
  pose proof (pow2_pos Hk) as HP.
  assert (Hid : Zpos (Z.to_pos (Zpos m * 2 ^ k)) = Zpos m * 2 ^ k)
    by (apply Z2Pos.id; nia).
  assert (Hd : Zdigits2 (Zpos (Z.to_pos (Zpos m * 2 ^ k))) + (e - k)
               = Zdigits2 (Zpos m) + e).
  { rewrite Hid, Zdigits2_shift by lia. lia. }
  rewrite (@binary_round_spec s _ (e - k) (e - k)) by (rewrite ?Hd, ?Hc; lia).
  rewrite Hd, Hc. unfold scaled. rewrite Z.sub_diag, Z.mul_1_r, Hid.
  replace (e - (e - k)) with k by lia. rewrite rne_exact by lia.
  apply pack_canonical. exact H.
Qed.

(** ** Rounding is monotone *)

Lemma Zdigits2_mono M1 M2 : 0 < M1 <= M2 -> Zdigits2 M1 <= Zdigits2 M2.
Proof.
  intros H. destruct (@Zdigits2_bounds M1 ltac:(lia)) as (Hd1 & Hb1).
  destruct (@Zdigits2_bounds M2 ltac:(lia)) as (Hd2 & Hb2).
  destruct (Z_le_gt_dec (Zdigits2 M1) (Zdigits2 M2)); [assumption|].
  pose proof (pow2_le (a := Zdigits2 M2) (b := Zdigits2 M1 - 1) ltac:(lia)).
  lia.
Qed.

Lemma rounded_value_mono M1 M2 E0 :
  0 < M1 <= M2 -> E0 <= fexp (Zdigits2 M1 + E0) ->
  rne M1 (fexp (Zdigits2 M1 + E0) - E0) * 2 ^ (fexp (Zdigits2 M1 + E0) - E0)
  <= rne M2 (fexp (Zdigits2 M2 + E0) - E0) * 2 ^ (fexp (Zdigits2 M2 + E0) - E0).
Proof.
  intros HM H1.
  pose proof (Zdigits2_mono HM) as Hd.
  destruct (@Zdigits2_bounds M1 ltac:(lia)) as (Hd1 & Hb1).
  destruct (@Zdigits2_bounds M2 ltac:(lia)) as (Hd2 & Hb2).
  set (d1 := Zdigits2 M1) in *. set (d2 := Zdigits2 M2) in *.
  set (e1 := fexp (d1 + E0)) in *. set (e2 := fexp (d2 + E0)).
  assert (He : e1 <= e2) by (subst e1 e2; fx; lia).
  destruct (Z.eq_dec e1 e2) as [Heq|Hne].
  - rewrite <- Heq. pose proof (pow2_pos (k := e1 - E0) ltac:(lia)).
    pose proof (@rne_mono M1 M2 (e1 - E0) ltac:(lia) ltac:(lia)). nia.
  - assert (Hn2 : e2 - E0 = d2 - prec) by (subst e1 e2; fx; lia).
    assert (Hdd : d1 < d2) by (subst e1 e2; fx; lia).
    pose proof (@rne_upper M1 (e1 - E0) d1 ltac:(lia) ltac:(lia) ltac:(lia)).
    pose proof (@rne_lower M2 (e2 - E0) (d2 - 1) ltac:(lia) ltac:(lia)) as Hl.
    pose proof (pow2_pos (k := e2 - E0) ltac:(lia)).
    assert (2 ^ (d2 - 1) = 2 ^ (d2 - 1 - (e2 - E0)) * 2 ^ (e2 - E0)).
    { rewrite <- Z.pow_add_r by lia. f_equal. lia. }
    pose proof (pow2_le (a := d1) (b := d2 - 1) ltac:(lia)).
    nia.
Qed.

Lemma pack_le q1 e1 q2 e2 E0 :
  rounded q1 e1 -> rounded q2 e2 -> E0 <= e1 -> E0 <= e2 ->
  q1 * 2 ^ (e1 - E0) <= q2 * 2 ^ (e2 - E0) ->
  SFleb (pack false q1 e1) (pack false q2 e2) = true.
Proof.
  intros R1 R2 H1 H2 HV. unfold FloatDefs.pack.
  destruct (Z.eqb_spec q1 0) as [Hz1|Hz1].
  { destruct (q2 =? 0); [reflexivity|].
    destruct (snd (norm q2 e2) <=? emax - prec); reflexivity. }
  assert (Hq1 : 0 < q1) by (destruct R1; lia).
  pose proof (pow2_pos (k := e1 - E0) ltac:(lia)) as HP1.
  pose proof (pow2_pos (k := e2 - E0) ltac:(lia)) as HP2.
  assert (Hq2 : 0 < q2) by (destruct R2; nia).
  destruct (Z.eqb_spec q2 0) as [Hz2|_]; [lia|].
  destruct (norm_rounded Hq1 R1) as (A1 & B1 & C1 & D1).
  destruct (norm_rounded Hq2 R2) as (A2 & B2 & C2 & D2).
  set (m1 := fst (norm q1 e1)) in *. set (f1 := snd (norm q1 e1)) in *.
  set (m2 := fst (norm q2 e2)) in *. set (f2 := snd (norm q2 e2)) in *.
  assert (Hf1 : e1 <= f1) by (subst f1; unfold FloatDefs.norm; destruct (q1 <? 2 ^ prec); cbn; lia).
  assert (Hf2 : e2 <= f2) by (subst f2; unfold FloatDefs.norm; destruct (q2 <? 2 ^ prec); cbn; lia).
  assert (HV' : m1 * 2 ^ (f1 - E0) <= m2 * 2 ^ (f2 - E0)).
  { replace (f1 - E0) with (f1 - e1 + (e1 - E0)) by lia.
    replace (f2 - E0) with (f2 - e2 + (e2 - E0)) by lia.
    rewrite !Z.pow_add_r, !Z.mul_assoc, D1, D2 by lia. exact HV. }
  pose proof (pow2_pos (k := prec - 1) ltac:(lia)) as Hpp.
  assert (H2p : 2 ^ prec = 2 * 2 ^ (prec - 1)).
  { replace prec with (prec - 1 + 1) at 1 by lia. apply pow2_succ. lia. }
  assert (Hord : f1 < f2 \/ (f1 = f2 /\ m1 <= m2)).
  { destruct (Z.lt_trichotomy f1 f2) as [Hlt|[Heq|Hgt]]; [left; exact Hlt| |].
    - right. split; [exact Heq|]. rewrite Heq in HV'.
      pose proof (pow2_pos (k := f2 - E0) ltac:(lia)). nia.
    - exfalso. specialize (C1 ltac:(lia)).
      pose proof (pow2_pos (k := f2 - E0) ltac:(lia)) as HQ.
      assert (2 * 2 ^ (f2 - E0) <= 2 ^ (f1 - E0)).
      { rewrite <- pow2_succ by lia. apply pow2_le. lia. }
      assert (m2 * 2 ^ (f2 - E0) < 2 ^ prec * 2 ^ (f2 - E0)) by nia.
      assert (2 ^ (prec - 1) * 2 ^ (f1 - E0) <= m1 * 2 ^ (f1 - E0)) by nia.
      nia. }
  destruct (Z.leb_spec f1 (emax - prec)) as [L1|L1];
    destruct (Z.leb_spec f2 (emax - prec)) as [L2|L2]; try reflexivity; try lia.
  unfold SFleb, SFcompare.
  destruct (Z.compare_spec f1 f2) as [Hc|Hc|Hc]; try reflexivity; try lia.
  change (Pos.compare_cont Eq (Z.to_pos m1) (Z.to_pos m2))
    with (Pos.compare (Z.to_pos m1) (Z.to_pos m2)).
  rewrite Pos2Z.inj_compare, !Z2Pos.id by lia.
  destruct (Z.compare_spec m1 m2); try reflexivity; lia.
Qed.

(** Rounding two positive numbers keeps their order ([SFleb] is the
    order of the format). *)
Theorem binary_round_mono m1 E1 m2 E2 E0 :
  E0 <= E1 -> E0 <= E2 ->
  scaled (Zpos m1) E1 E0 <= scaled (Zpos m2) E2 E0 ->
  SFleb (binary_round prec emax false m1 E1)
        (binary_round prec emax false m2 E2) = true.
Proof.
  intros H1 H2 HV. set (F := Z.min E0 emin).
  assert (HF1 : F <= fexp (Zdigits2 (Zpos m1) + E1)) by (subst F; fx; lia).
  assert (HF2 : F <= fexp (Zdigits2 (Zpos m2) + E2)) by (subst F; fx; lia).
  rewrite (@binary_round_spec false m1 E1 F) by (subst F; lia).
  rewrite (@binary_round_spec false m2 E2 F) by (subst F; lia).
  pose proof (@binary_round_rounded m1 E1 F ltac:(subst F; lia) HF1) as R1.
  pose proof (@binary_round_rounded m2 E2 F ltac:(subst F; lia) HF2) as R2.
  apply pack_le with (E0 := F); try assumption.
  assert (HS : forall m E, F <= E -> E0 <= E ->
               scaled (Zpos m) E F = scaled (Zpos m) E E0 * 2 ^ (E0 - F)).
  { intros m E HE HE0. unfold scaled. rewrite <- Z.mul_assoc, <- Z.pow_add_r by (subst F; lia).
    f_equal. f_equal. lia. }
  assert (Hd : forall m E, F <= E ->
               Zdigits2 (scaled (Zpos m) E F) + F = Zdigits2 (Zpos m) + E).
  { intros m E HE. unfold scaled. rewrite Zdigits2_shift by lia. lia. }
  rewrite <- (Hd m1 E1), <- (Hd m2 E2) by (subst F; lia).
  apply rounded_value_mono.
  - pose proof (pow2_pos (k := E0 - F) ltac:(subst F; lia)).
    pose proof (pow2_pos (k := E1 - E0) ltac:(lia)).
    rewrite !HS by (subst F; lia). unfold scaled in *. nia.
  - rewrite Hd by (subst F; lia). exact HF1.
Qed.

(** ** Order of the non-negative numbers *)

Lemma pack_nonneg q e : nonneg (pack false q e) = true.
Proof.
  unfold FloatDefs.pack. destruct (q =? 0); [reflexivity|].
  destruct (snd (norm q e) <=? emax - prec); reflexivity.
Qed.

Lemma binary_round_nonneg m E : nonneg (binary_round prec emax false m E) = true.
Proof.
  set (E0 := Z.min E (fexp (Zdigits2 (Zpos m) + E))).
  rewrite (@binary_round_spec false m E E0) by (subst E0; lia).
  apply pack_nonneg.
Qed.

Lemma SFleb_zero_nonneg x : nonneg x = true -> SFleb (S754_zero false) x = true.
Proof using Type. destruct x as [[|]|[|]| |[|] m e]; try discriminate; reflexivity. Qed.

Lemma SFleb_refl_nonneg x : nonneg x = true -> SFleb x x = true.
Proof using Type.
  destruct x as [[|]|[|]| |[|] m e]; try discriminate; try reflexivity.
  intros _. unfold SFleb, SFcompare. rewrite Z.compare_refl.
  change (Pos.compare_cont Eq m m) with (Pos.compare m m).
  rewrite Pos.compare_refl. reflexivity.
Qed.

Lemma SFleb_finite_iff m1 e1 m2 e2 :
  SFleb (S754_finite false m1 e1) (S754_finite false m2 e2) = true <->
  e1 < e2 \/ (e1 = e2 /\ Zpos m1 <= Zpos m2).
Proof using Type.
  unfold SFleb, SFcompare.
  change (Pos.compare_cont Eq m1 m2) with (Pos.compare m1 m2).
  rewrite Pos2Z.inj_compare.
  destruct (Z.compare_spec e1 e2); destruct (Z.compare_spec (Zpos m1) (Zpos m2));
    split; intros; try reflexivity; try discriminate; lia.
Qed.

Lemma SFleb_trans_nonneg a b c :
  nonneg b = true -> nonneg c = true ->
  SFleb a b = true -> SFleb b c = true -> SFleb a c = true.
Proof using Type.
  intros Hb Hc.
  destruct b as [[|]|[|]| |[|] mb eb]; try discriminate;
    destruct c as [[|]|[|]| |[|] mc ec]; try discriminate;
    destruct a as [[|]|[|]| |[|] ma ea]; try reflexivity; try discriminate;
    try (intros _ H; discriminate H); try (intros H _; discriminate H).
  rewrite !SFleb_finite_iff. lia.
Qed.

Lemma SFcompare_antisym a b :
  SFcompare b a = option_map CompOpp (SFcompare a b).
Proof using Type.
  destruct a as [[|]|[|]| |[|] ma ea]; destruct b as [[|]|[|]| |[|] mb eb];
    try reflexivity; cbn [SFcompare option_map];
    rewrite (Z.compare_antisym ea eb);
    change (Pos.compare_cont Eq mb ma) with (Pos.compare mb ma);
    change (Pos.compare_cont Eq ma mb) with (Pos.compare ma mb);
    rewrite (Pos.compare_antisym ma mb);
    destruct (ea ?= eb); cbn; try reflexivity;
    destruct (ma ?= mb)%positive; reflexivity.
Qed.

Lemma SFleb_not_ltb a b : SFleb a b = true -> SFltb b a = false.
Proof using Type.
  unfold SFleb, SFltb. rewrite (SFcompare_antisym a b).
  destruct (SFcompare a b) as [[| |]|]; cbn; congruence.
Qed.

(** Order of two canonical positive numbers, read on their values. *)
Lemma SFleb_value m1 e1 m2 e2 E0 :
  valid_binary prec emax (S754_finite false m1 e1) = true ->
  valid_binary prec emax (S754_finite false m2 e2) = true ->
  E0 <= e1 -> E0 <= e2 ->
  (SFleb (S754_finite false m1 e1) (S754_finite false m2 e2) = true <->
   scaled (Zpos m1) e1 E0 <= scaled (Zpos m2) e2 E0).
Proof.
  intros V1 V2 H1 H2.
  destruct (valid_finite_facts _ _ _ V1) as (_ & _ & A1 & B1 & C1).
  destruct (valid_finite_facts _ _ _ V2) as (_ & _ & A2 & B2 & C2).
  rewrite SFleb_finite_iff. unfold scaled.
  pose proof (pow2_pos (k := e1 - E0) ltac:(lia)) as P1.
  pose proof (pow2_pos (k := e2 - E0) ltac:(lia)) as P2.
  pose proof (pow2_pos (k := prec - 1) ltac:(lia)) as Hpp.
  assert (H2p : 2 ^ prec = 2 * 2 ^ (prec - 1)).
  { replace prec with (prec - 1 + 1) at 1 by lia. apply pow2_succ. lia. }
  destruct (Z.lt_trichotomy e1 e2) as [Hlt|[Heq|Hgt]].
  - specialize (C2 ltac:(lia)).
    assert (2 * 2 ^ (e1 - E0) <= 2 ^ (e2 - E0)).
    { rewrite <- pow2_succ by lia. apply pow2_le. lia. }
    split; [intros _|intros _; left; exact Hlt].
    assert (Zpos m1 * 2 ^ (e1 - E0) < 2 ^ prec * 2 ^ (e1 - E0)) by nia.
    assert (2 ^ (prec - 1) * 2 ^ (e2 - E0) <= Zpos m2 * 2 ^ (e2 - E0)) by nia.
    nia.
  - subst e2. split; [intros [?|[_ ?]]; [lia|nia]|intros; right; split; [reflexivity|nia]].
  - specialize (C1 ltac:(lia)).
    assert (2 * 2 ^ (e2 - E0) <= 2 ^ (e1 - E0)).
    { rewrite <- pow2_succ by lia. apply pow2_le. lia. }
    assert (Zpos m2 * 2 ^ (e2 - E0) < 2 ^ prec * 2 ^ (e2 - E0)) by nia.
    assert (2 ^ (prec - 1) * 2 ^ (e1 - E0) <= Zpos m1 * 2 ^ (e1 - E0)) by nia.
    split; [intros [?|[? _]]; lia|intros; nia].
Qed.

(** ** The operations return canonical numbers *)

Lemma binary_normalize_valid z e b :
  valid_binary prec emax (binary_normalize prec emax z e b) = true.
Proof.
  destruct z; cbn [binary_normalize]; [reflexivity| |]; apply binary_round_valid.
Qed.

Lemma SFadd_valid x y :
  valid_binary prec emax x = true -> valid_binary prec emax y = true ->
  valid_binary prec emax (SFadd prec emax x y) = true.
Proof.
  intros Hx Hy.
  destruct x as [[|]|[|]| |sx mx ex]; destruct y as [[|]|[|]| |sy my ey];
    try reflexivity; try assumption.
  apply binary_normalize_valid.
Qed.

Lemma SFsub_valid x y :
  valid_binary prec emax x = true -> valid_binary prec emax y = true ->
  valid_binary prec emax (SFsub prec emax x y) = true.
Proof.
  intros Hx Hy.
  destruct x as [[|]|[|]| |sx mx ex]; destruct y as [[|]|[|]| |sy my ey];
    try reflexivity; try assumption.
  apply binary_normalize_valid.
Qed.

Lemma Zdigits2_mul_lower a b :
  0 < a -> 0 < b -> Zdigits2 a + Zdigits2 b - 1 <= Zdigits2 (a * b).
Proof.
  intros Ha Hb.
  destruct (Zdigits2_bounds Ha) as (Hda & Hba).
  destruct (Zdigits2_bounds Hb) as (Hdb & Hbb).
  assert (Hab : 0 < a * b) by nia.
  destruct (Zdigits2_bounds Hab) as (Hd & Hbd).
  destruct (Z_le_gt_dec (Zdigits2 a + Zdigits2 b - 1) (Zdigits2 (a * b)));
    [assumption|exfalso].
  assert (2 ^ (Zdigits2 a - 1) * 2 ^ (Zdigits2 b - 1) <= a * b).
  { pose proof (pow2_pos (k := Zdigits2 a - 1) ltac:(lia)).
    pose proof (pow2_pos (k := Zdigits2 b - 1) ltac:(lia)). nia. }
  rewrite <- Z.pow_add_r in H by lia.
  pose proof (pow2_le (a := Zdigits2 (a * b))
                      (b := Zdigits2 a - 1 + (Zdigits2 b - 1)) ltac:(lia)).
  lia.
Qed.

(** The product of two canonical numbers already has the bits the format
    keeps: [SFmul] is one rounding of the exact product. *)
Lemma SFmul_finite sx mx ex sy my ey :
  valid_binary prec emax (S754_finite sx mx ex) = true ->
  valid_binary prec emax (S754_finite sy my ey) = true ->
  SFmul prec emax (S754_finite sx mx ex) (S754_finite sy my ey)
  = binary_round prec emax (xorb sx sy) (mx * my) (ex + ey).
Proof.
  intros Vx Vy.
  destruct (valid_finite_facts _ _ _ Vx) as (Cx & _ & Ex & Bx & Nx).
  destruct (valid_finite_facts _ _ _ Vy) as (Cy & _ & Ey & By & Ny).
  cbn [SFmul]. unfold binary_round.
  change (Zpos (digits2_pos (mx * my))) with (Zdigits2 (Zpos (mx * my))).
  assert (Hn : ex + ey <= fexp (Zdigits2 (Zpos (mx * my)) + (ex + ey))).
  { pose proof (@Zdigits2_mul_lower (Zpos mx) (Zpos my) ltac:(lia) ltac:(lia)) as Hd.
    rewrite <- Pos2Z.inj_mul in Hd.
    destruct (@Zdigits2_bounds (Zpos mx) ltac:(lia)) as (Hdx & _).
    destruct (@Zdigits2_bounds (Zpos my) ltac:(lia)) as (Hdy & _).
    fx. lia. }
  unfold shl_align.
  destruct (fexp (Zdigits2 (Zpos (mx * my)) + (ex + ey)) - (ex + ey)) eqn:Hs;
    try reflexivity. lia.
Qed.

Lemma SFmul_valid x y :
  valid_binary prec emax x = true -> valid_binary prec emax y = true ->
  valid_binary prec emax (SFmul prec emax x y) = true.
Proof.
  intros Hx Hy.
  destruct x as [[|]|[|]| |sx mx ex]; destruct y as [[|]|[|]| |sy my ey];
    try reflexivity.
  rewrite SFmul_finite by assumption. apply binary_round_valid.
Qed.

Lemma SFabs_valid x :
  valid_binary prec emax x = true -> valid_binary prec emax (SFabs x) = true.
Proof using Type. destruct x; auto. Qed.

(** ** Sums of non-negative numbers *)

Lemma SFadd_nonneg_or_nan x y :
  nonneg_or_nan x = true -> nonneg_or_nan y = true ->
  nonneg_or_nan (SFadd prec emax x y) = true.
Proof.
  destruct x as [[|]|[|]| |[|] mx ex]; try discriminate;
    destruct y as [[|]|[|]| |[|] my ey]; try discriminate; try reflexivity.
  intros _ _. cbn [SFadd cond_Zopp].
  set (z := _ + _).
  assert (Hz : 0 < z) by (subst z; lia).
  destruct z as [|p|p]; try lia. cbn [binary_normalize].
  pose proof (binary_round_nonneg p (Z.min ex ey)) as H.
  destruct (binary_round prec emax false p (Z.min ex ey)) as [[|]|[|]| |[|] ? ?];
    try discriminate; reflexivity.
Qed.

Lemma shl_align_value (m : positive) e e' :
  e' <= e -> Zpos (fst (shl_align m e e')) = Zpos m * 2 ^ (e - e').
Proof.
  intros H. destruct (shl_align_spec m e e') as (_ & Hm).
  rewrite Hm. f_equal. f_equal. lia.
Qed.

(** Adding a non-negative number never decreases a canonical
    non-negative number. *)
Lemma SFadd_ge_r x y :
  valid_binary prec emax y = true ->
  nonneg_or_nan x = true -> nonneg_or_nan y = true ->
  SFadd prec emax x y = S754_nan \/ SFleb y (SFadd prec emax x y) = true.
Proof.
  intros Vy.
  destruct x as [[|]|[|]| |[|] mx ex]; try discriminate;
    destruct y as [[|]|[|]| |[|] my ey]; try discriminate; intros _ _;
    try (left; reflexivity); try (right; reflexivity).
  - right. apply SFleb_refl_nonneg. reflexivity.
  - right. cbn [SFadd cond_Zopp].
    rewrite !shl_align_value by lia.
    set (ez := Z.min ex ey).
    pose proof (pow2_pos (k := ex - ez) ltac:(subst ez; lia)) as Px.
    pose proof (pow2_pos (k := ey - ez) ltac:(subst ez; lia)) as Py.
    set (z := _ + _). assert (Hz : 0 < z) by (subst z; nia).
    destruct z as [|p|p] eqn:Ez; try lia. cbn [binary_normalize].
    rewrite <- (@binary_round_canonical false my ey (ey - ez) Vy) at 1
      by (subst ez; lia).
    apply binary_round_mono with (E0 := ez); try (subst ez; lia).
    unfold scaled. replace (ey - (ey - ez) - ez) with 0 by lia.
    rewrite Z2Pos.id by nia. rewrite Z.sub_diag, !Z.mul_1_r.
    rewrite <- Ez. nia.
Qed.

Lemma SFadd_ge_l x y :
  valid_binary prec emax x = true ->
  nonneg_or_nan x = true -> nonneg_or_nan y = true ->
  SFadd prec emax x y = S754_nan \/ SFleb x (SFadd prec emax x y) = true.
Proof.
  intros Vx.
  destruct x as [[|]|[|]| |[|] mx ex]; try discriminate;
    destruct y as [[|]|[|]| |[|] my ey]; try discriminate; intros _ _;
    try (left; reflexivity); try (right; reflexivity).
  - right. apply SFleb_refl_nonneg. reflexivity.
  - right. cbn [SFadd cond_Zopp].
    rewrite !shl_align_value by lia.
    set (ez := Z.min ex ey).
    pose proof (pow2_pos (k := ex - ez) ltac:(subst ez; lia)) as Px.
    pose proof (pow2_pos (k := ey - ez) ltac:(subst ez; lia)) as Py.
    set (z := _ + _). assert (Hz : 0 < z) by (subst z; nia).
    destruct z as [|p|p] eqn:Ez; try lia. cbn [binary_normalize].
    rewrite <- (@binary_round_canonical false mx ex (ex - ez) Vx) at 1
      by (subst ez; lia).
    apply binary_round_mono with (E0 := ez); try (subst ez; lia).
    unfold scaled. replace (ex - (ex - ez) - ez) with 0 by lia.
    rewrite Z2Pos.id by nia. rewrite Z.sub_diag, !Z.mul_1_r.
    rewrite <- Ez. nia.
Qed.

(** ** Lower bounds that survive sums *)

Lemma nonneg_of_leb a b :
  nonneg_or_nan b = true -> SFleb a b = true -> nonneg b = true.
Proof using Type.
  destruct b as [[|]|[|]| |[|] m e]; try discriminate; try reflexivity.
  destruct a as [[|]|[|]| |[|] ? ?]; discriminate.
Qed.

Lemma at_least_add_l a b c :
  valid_binary prec emax b = true ->
  nonneg_or_nan b = true -> nonneg_or_nan c = true ->
  at_least a b -> at_least a (SFadd prec emax b c).
Proof.
  intros Vb Nb Nc [->|Hab]; [left; reflexivity|].
  destruct (SFadd_ge_l b c Vb Nb Nc) as [Hn|Hle]; [left; exact Hn|right].
  apply SFleb_trans_nonneg with (b := b); try assumption.
  - apply nonneg_of_leb with (a := a); assumption.
  - apply nonneg_of_leb with (a := b); [|assumption].
    apply SFadd_nonneg_or_nan; assumption.
Qed.

Lemma at_least_add_r b c :
  valid_binary prec emax c = true ->
  nonneg_or_nan b = true -> nonneg_or_nan c = true ->
  at_least c (SFadd prec emax b c).
Proof. intros Vc Nb Nc. apply SFadd_ge_r; assumption. Qed.

Lemma at_least_not_below (limit a b : spec_float) :
  nonneg_or_nan a = true -> nonneg_or_nan b = true ->
  SFleb limit a = true -> at_least a b -> SFltb b limit = false.
Proof using Type.
  intros Na Nb Hla [->|Hab].
  - destruct limit; reflexivity.
  - apply SFleb_not_ltb. apply SFleb_trans_nonneg with (b := a); try assumption.
    + apply nonneg_of_leb with (a := limit); assumption.
    + apply nonneg_of_leb with (a := a); assumption.
Qed.

Lemma at_least_trans a b c :
  nonneg_or_nan b = true -> nonneg_or_nan c = true ->
  at_least a b -> at_least b c -> at_least a c.
Proof using Type.
  intros Nb Nc [->|Hab] [->|Hbc]; try (left; reflexivity).
  - left. destruct c; try discriminate; reflexivity.
  - right. apply SFleb_trans_nonneg with (b := b); try assumption.
    + apply nonneg_of_leb with (a := a); assumption.
    + apply nonneg_of_leb with (a := b); assumption.
Qed.

Lemma SFadd_zero_l y :
  nonneg_or_nan y = true -> SFadd prec emax (S754_zero false) y = y.
Proof using Type.
  destruct y as [[|]|[|]| |[|] m e]; try discriminate; reflexivity.
Qed.

(** ** Exact results *)

Lemma SFsub_diag x : is_finite x = true -> SFsub prec emax x x = S754_zero false.
Proof using Type.
  destruct x as [[|]|[|]| |s m e]; try discriminate; try reflexivity.
  intros _. cbn [SFsub]. rewrite Z.sub_diag. reflexivity.
Qed.

Lemma SFsub_zero_r x : SFsub prec emax (SFabs x) (S754_zero false) = SFabs x.
Proof using Type. destruct x as [[|]|[|]| |s m e]; reflexivity. Qed.

Lemma SFabs_not_negative x : SFltb (SFabs x) (S754_zero false) = false.
Proof using Type. destruct x as [[|]|[|]| |s m e]; reflexivity. Qed.

Lemma SFabs_idem x : SFabs (SFabs x) = SFabs x.
Proof using Type. destruct x; reflexivity. Qed.

Lemma SFabs_zero x : is_zero x = true -> SFabs x = S754_zero false.
Proof using Type. destruct x; try discriminate; reflexivity. Qed.

Lemma SFmul_zero_r x z :
  is_finite x = true -> is_zero z = true -> is_zero (SFmul prec emax x z) = true.
Proof using Type.
  destruct x as [[|]|[|]| |s m e]; try discriminate;
    destruct z as [[|]|[|]| |sz mz ez]; try discriminate; reflexivity.
Qed.

Lemma SFadd_nonneg x y :
  nonneg x = true -> nonneg y = true -> nonneg (SFadd prec emax x y) = true.
Proof.
  destruct x as [[|]|[|]| |[|] mx ex]; try discriminate;
    destruct y as [[|]|[|]| |[|] my ey]; try discriminate; try reflexivity.
  intros _ _. cbn [SFadd cond_Zopp].
  set (z := _ + _).
  assert (Hz : 0 < z) by (subst z; lia).
  destruct z as [|p|p]; try lia. cbn [binary_normalize].
  apply binary_round_nonneg.
Qed.

Lemma SFmul_self_nonneg x :
  valid_binary prec emax x = true -> is_finite x = true ->
  nonneg (SFmul prec emax x x) = true.
Proof.
  intros V F. destruct x as [[|]|[|]| |s m e]; try discriminate; try reflexivity.
  rewrite SFmul_finite by assumption.
  replace (xorb s s) with false by (destruct s; reflexivity).
  apply binary_round_nonneg.
Qed.

(** ** A number no larger than one scales a number down *)

Lemma SFone_eq :
  SFone prec emax = S754_finite false (Z.to_pos (2 ^ (prec - 1))) (1 - prec).
Proof.
  unfold SFone.
  assert (He : fexp (Zdigits2 1 + 0) = 1 - prec) by (cbn [Zdigits2 digits2_pos]; fx; lia).
  rewrite (@binary_round_spec false 1 0 (1 - prec)) by (rewrite ?He; lia).
  rewrite He. unfold scaled. rewrite Z.sub_diag, rne_0, Z.mul_1_l.
  replace (0 - (1 - prec)) with (prec - 1) by lia.
  unfold FloatDefs.pack, FloatDefs.norm.
  pose proof (pow2_pos (k := prec - 1) ltac:(lia)) as Hpp.
  pose proof (pow2_lt (a := prec - 1) (b := prec) ltac:(lia)).
  destruct (Z.eqb_spec (2 ^ (prec - 1)) 0); [lia|].
  destruct (Z.ltb_spec (2 ^ (prec - 1)) (2 ^ prec)); [|lia]. cbn [fst snd].
  destruct (Z.leb_spec (1 - prec) (emax - prec)); [reflexivity|lia].
Qed.

Lemma SFone_valid : valid_binary prec emax (SFone prec emax) = true.
Proof. apply binary_round_valid. Qed.

Lemma le_one_value mc ec :
  valid_binary prec emax (S754_finite false mc ec) = true ->
  SFleb (S754_finite false mc ec) (SFone prec emax) = true ->
  ec <= 0 /\ Zpos mc <= 2 ^ (- ec).
Proof.
  intros V H. pose proof SFone_valid as V1. rewrite SFone_eq in H, V1.
  assert (Hec : ec <= 1 - prec) by (apply SFleb_finite_iff in H; lia).
  apply (@SFleb_value mc ec _ (1 - prec) ec V V1 ltac:(lia) ltac:(lia)) in H.
  unfold scaled in H.
  pose proof (pow2_pos (k := prec - 1) ltac:(lia)) as Hpp.
  rewrite Z2Pos.id, Z.sub_diag, Z.mul_1_r in H by lia.
  rewrite <- Z.pow_add_r in H by lia.
  replace (prec - 1 + (1 - prec - ec)) with (- ec) in H by lia.
  split; lia.
Qed.

(** The inequality the angular test of the decoupler evaluates when the
    two vectors are the same: [(c * m) * m <= m * m] for [0 < c <= 1] and a
    non-negative [m], all three products being rounded. *)
Theorem SFmul_scaled_square_le c m :
  valid_binary prec emax c = true -> valid_binary prec emax m = true ->
  (exists mc ec, c = S754_finite false mc ec) ->
  SFleb c (SFone prec emax) = true ->
  nonneg m = true ->
  SFleb (SFmul prec emax (SFmul prec emax c m) m) (SFmul prec emax m m) = true.
Proof.
  intros Vc Vm (mc & ec & ->) Hc1 Hm.
  destruct (le_one_value _ _ Vc Hc1) as (Hec & Hmc).
  destruct m as [[|]|[|]| |[|] mm em]; try discriminate; try reflexivity.
  assert (Hmm : nonneg (SFmul prec emax (S754_finite false mm em)
                               (S754_finite false mm em)) = true).
  { rewrite SFmul_finite by assumption. apply binary_round_nonneg. }
  pose proof (SFmul_valid _ _ Vc Vm) as Vp.
  assert (HA : SFleb (SFmul prec emax (S754_finite false mc ec)
                            (S754_finite false mm em))
                     (S754_finite false mm em) = true).
  { rewrite SFmul_finite by assumption. cbn [xorb].
    rewrite <- (@binary_round_canonical false mm em (- ec) Vm) at 1 by lia.
    pose proof (pow2_pos (k := - ec) ltac:(lia)).
    apply binary_round_mono with (E0 := ec + em); try lia.
    unfold scaled. rewrite Z2Pos.id by nia.
    replace (ec + em - (ec + em)) with 0 by lia.
    replace (em - - ec - (ec + em)) with 0 by lia.
    rewrite !Z.mul_1_r, Pos2Z.inj_mul. nia. }
  assert (Hn : nonneg (SFmul prec emax (S754_finite false mc ec)
                              (S754_finite false mm em)) = true).
  { rewrite SFmul_finite by assumption. apply binary_round_nonneg. }
  destruct (SFmul prec emax (S754_finite false mc ec) (S754_finite false mm em))
    as [[|]|[|]| |[|] m' e'] eqn:Ep; try discriminate.
  - change (SFmul prec emax (S754_zero false) (S754_finite false mm em))
      with (S754_zero false).
    apply SFleb_zero_nonneg. exact Hmm.
  - set (B := Z.min e' em).
    apply (@SFleb_value m' e' mm em B Vp Vm ltac:(subst B; lia) ltac:(subst B; lia)) in HA.
    rewrite !SFmul_finite by assumption. cbn [xorb].
    apply binary_round_mono with (E0 := B + em); try (subst B; lia).
    unfold scaled in *. rewrite !Pos2Z.inj_mul.
    replace (e' + em - (B + em)) with (e' - B) by lia.
    replace (em + em - (B + em)) with (em - B) by lia.
    nia.
Qed.

(** ** The error of a subtraction *)

Lemma cond_Zopp_mul s a b : cond_Zopp s a * b = cond_Zopp s (a * b).
Proof using Type. destruct s; cbn; ring. Qed.

Lemma cond_Zopp_abs s a : Z.abs (cond_Zopp s a) = Z.abs a.
Proof using Type. destruct s; cbn; lia. Qed.

Lemma pack_mant s q e :
  rounded q e -> is_finite (pack s q e) = true ->
  mant (pack s q e) = cond_Zopp s (q * 2 ^ (e - emin)).
Proof.
  intros R. unfold FloatDefs.pack.
  destruct (Z.eqb_spec q 0) as [->|Hq0]; [destruct s; reflexivity|].
  destruct (Z.leb_spec (snd (norm q e)) (emax - prec)); [intros _|discriminate].
  assert (Hq : 0 < q) by (destruct R; lia).
  destruct (norm_rounded Hq R) as (A & B & _ & D).
  assert (He : emin <= e) by (destruct R as (_ & ? & _); assumption).
  assert (Hf : e <= snd (norm q e)) by (unfold FloatDefs.norm; destruct (q <? 2 ^ prec); cbn; lia).
  cbn [FloatDefs.mant]. rewrite Z2Pos.id by lia. rewrite cond_Zopp_mul. f_equal.
  replace (snd (norm q e) - emin) with (snd (norm q e) - e + (e - emin)) by lia.
  rewrite Z.pow_add_r, Z.mul_assoc, D by lia. reflexivity.
Qed.

Lemma binary_round_error s p ez :
  emin <= ez -> is_finite (binary_round prec emax s p ez) = true ->
  2 ^ prec * Z.abs (mant (binary_round prec emax s p ez)
                    - cond_Zopp s (Zpos p) * 2 ^ (ez - emin))
  <= Z.abs (mant (binary_round prec emax s p ez)).
Proof.
  intros He. set (e := fexp (Zdigits2 (Zpos p) + ez)).
  set (E0 := Z.min ez e).
  assert (Hee : emin <= e) by (subst e; fx; lia).
  rewrite (@binary_round_spec s p ez E0) by (subst E0 e; lia).
  pose proof (@binary_round_rounded p ez E0 ltac:(subst E0; lia) ltac:(subst E0 e; lia)) as R.
  fold e in R |- *. intros Hfin. rewrite (pack_mant _ R Hfin).
  rewrite cond_Zopp_mul.
  replace (cond_Zopp s (rne (scaled (Zpos p) ez E0) (e - E0) * 2 ^ (e - emin)) -
           cond_Zopp s (Zpos p * 2 ^ (ez - emin)))
    with (cond_Zopp s (rne (scaled (Zpos p) ez E0) (e - E0) * 2 ^ (e - emin)
                       - Zpos p * 2 ^ (ez - emin))) by (destruct s; cbn; ring).
  rewrite !cond_Zopp_abs.
  pose proof (pow2_pos (k := prec) ltac:(lia)) as Hpp.
  pose proof (pow2_pos (k := ez - emin) ltac:(lia)) as HPz.
  destruct (Z_le_gt_dec e ez) as [Hle|Hgt].
  - replace E0 with e by (subst E0; lia). rewrite Z.sub_diag, rne_0.
    unfold scaled.
    replace (Zpos p * 2 ^ (ez - e) * 2 ^ (e - emin)) with (Zpos p * 2 ^ (ez - emin)).
    2:{ rewrite <- Z.mul_assoc, <- Z.pow_add_r by lia. do 2 f_equal. lia. }
    rewrite Z.sub_diag. cbn [Z.abs]. nia.
  - replace E0 with ez in * by (subst E0; lia).
    unfold scaled in *. rewrite Z.sub_diag, Z.mul_1_r in *.
    destruct R as (Rq & _ & Rn). specialize (Rn ltac:(lia)).
    pose proof (@rne_error (Zpos p) (e - ez) ltac:(lia)) as Herr.
    set (q := rne (Zpos p) (e - ez)) in *.
    pose proof (pow2_pos (k := e - ez) ltac:(lia)) as HPn.
    replace (e - emin) with (e - ez + (ez - emin)) by lia.
    rewrite Z.pow_add_r, Z.mul_assoc by lia.
    rewrite <- Z.mul_sub_distr_r, !Z.abs_mul.
    rewrite (Z.abs_eq (2 ^ (ez - emin))), (Z.abs_eq (2 ^ (e - ez))), (Z.abs_eq q) by lia.
    assert (H2p : 2 ^ prec = 2 * 2 ^ (prec - 1)).
    { replace prec with (prec - 1 + 1) at 1 by lia. apply pow2_succ. lia. }
    assert (2 ^ prec * Z.abs (q * 2 ^ (e - ez) - Zpos p) <= q * 2 ^ (e - ez)) by nia.
    nia.
Qed.

(** The rounded difference is within [2^-prec] of the exact one, relative
    to the rounded difference itself. *)
Theorem SFsub_error x y :
  valid_binary prec emax x = true -> valid_binary prec emax y = true ->
  is_finite (SFsub prec emax x y) = true ->
  2 ^ prec * Z.abs (mant (SFsub prec emax x y) - (mant x - mant y))
  <= Z.abs (mant (SFsub prec emax x y)).
Proof.
  intros Vx Vy.
  destruct x as [[|]|[|]| |sx mx ex]; destruct y as [[|]|[|]| |sy my ey];
    try discriminate; intros Hfin; cbn [SFsub] in *;
    try (cbn [FloatDefs.mant]; rewrite ?Z.sub_0_r, ?Z.sub_diag; cbn; lia);
    try (cbn [FloatDefs.mant]; destruct sy; cbn [negb cond_Zopp];
         match goal with |- _ * Z.abs ?a <= _ => replace a with 0 by ring end;
         cbn; lia).
  destruct (valid_finite_facts _ _ _ Vx) as (_ & _ & Ex & _).
  destruct (valid_finite_facts _ _ _ Vy) as (_ & _ & Ey & _).
  set (ez := Z.min ex ey) in *.
  rewrite !shl_align_value in * by (subst ez; lia).
  assert (Hxy : mant (S754_finite sx mx ex) - mant (S754_finite sy my ey)
                = (cond_Zopp sx (Zpos mx * 2 ^ (ex - ez))
                   - cond_Zopp sy (Zpos my * 2 ^ (ey - ez))) * 2 ^ (ez - emin)).
  { cbn [FloatDefs.mant]. rewrite Z.mul_sub_distr_r, !cond_Zopp_mul.
    rewrite <- !Z.mul_assoc, <- !Z.pow_add_r by (subst ez; lia).
    replace (ex - ez + (ez - emin)) with (ex - emin) by lia.
    replace (ey - ez + (ez - emin)) with (ey - emin) by lia. reflexivity. }
  rewrite Hxy. clear Hxy.
  set (D := cond_Zopp sx (Zpos mx * 2 ^ (ex - ez))
            - cond_Zopp sy (Zpos my * 2 ^ (ey - ez))) in *.
  destruct D as [|p|p]; cbn [binary_normalize] in *.
  - cbn. lia.
  - apply (@binary_round_error false p ez); [subst ez; lia|assumption].
  - apply (@binary_round_error true p ez); [subst ez; lia|assumption].
Qed.

(** ** The error of a subtraction, on the values *)

Lemma two_neq_0 : ~ (2 # 1 == 0)%Q.
Proof using Type. discriminate. Qed.

Lemma F2Q_mant x :
  valid_binary prec emax x = true ->
  (F2Q x == inject_Z (mant x) * (2 # 1) ^ emin)%Q.
Proof.
  destruct x as [s|s| |s m e]; intros V; cbn [F2Q FloatDefs.mant]; try (ring_simplify; reflexivity).
  destruct (valid_finite_facts _ _ _ V) as (_ & _ & He & _).
  rewrite inject_Z_mult, Zpower_Qpower by lia.
  replace e with (e - emin + emin) at 1 by lia.
  rewrite Qpower_plus by apply two_neq_0.
  change (inject_Z 2) with (2 # 1). ring.
Qed.

Lemma Qabs_scaled z (c : Q) :
  (0 <= c)%Q -> (Qabs (inject_Z z * c) == inject_Z (Z.abs z) * c)%Q.
Proof using Type.
  intros Hc. rewrite Qabs_Qmult, (Qabs_pos c) by assumption. reflexivity.
Qed.

(** [SFsub_error], read on the values. *)
Theorem SFsub_error_Q x y :
  valid_binary prec emax x = true -> valid_binary prec emax y = true ->
  is_finite (SFsub prec emax x y) = true ->
  (Qabs (F2Q (SFsub prec emax x y) - (F2Q x - F2Q y)) * inject_Z (2 ^ prec)
   <= Qabs (F2Q (SFsub prec emax x y)))%Q.
Proof.
  intros Vx Vy Hf.
  pose proof (SFsub_error x y Vx Vy Hf) as HZ.
  pose proof (SFsub_valid _ _ Vx Vy) as Vz.
  rewrite (F2Q_mant _ Vx), (F2Q_mant _ Vy), (F2Q_mant _ Vz).
  set (A := mant (SFsub prec emax x y)) in *.
  set (c := ((2 # 1) ^ emin)%Q).
  assert (Hc : (0 <= c)%Q) by (apply Qpower_pos; discriminate).
  assert (E : (inject_Z A * c - (inject_Z (mant x) * c - inject_Z (mant y) * c)
               == inject_Z (A - (mant x - mant y)) * c)%Q).
  { unfold Z.sub. repeat (rewrite inject_Z_plus || rewrite inject_Z_opp). ring. }
  rewrite E, !Qabs_scaled by assumption.
  rewrite <- Qmult_assoc, (Qmult_comm c), Qmult_assoc.
  apply Qmult_le_compat_r; [|assumption].
  rewrite <- inject_Z_mult, <- Zle_Qle. lia.
Qed.

End Format.

(** ** Conversion from one format to another *)

Section Convert.
Variables prec1 emax1 prec2 emax2 : Z.
Hypothesis Hprec1 : 0 < prec1.
Hypothesis Hemax1 : prec1 < emax1.
Hypothesis Hprec2 : 0 < prec2.
Hypothesis Hemax2 : prec2 < emax2.
#[local] Set Default Proof Using "Hprec1 Hemax1 Hprec2 Hemax2".
Abbreviation SFconv := (FloatDefs.SFconv prec2 emax2).

Lemma SFconv_valid x : valid_binary prec2 emax2 (SFconv x) = true.
Proof. destruct x; try reflexivity. apply binary_round_valid; assumption. Qed.

Lemma SFconv_nonneg x : nonneg x = true -> nonneg (SFconv x) = true.
Proof.
  destruct x as [[|]|[|]| |[|] m e]; try discriminate; try reflexivity.
  intros _. apply binary_round_nonneg; assumption.
Qed.

Lemma SFconv_nonneg_or_nan x :
  nonneg_or_nan x = true -> nonneg_or_nan (SFconv x) = true.
Proof.
  destruct x as [[|]|[|]| |[|] m e]; try discriminate; try reflexivity.
  intros _. pose proof (@binary_round_nonneg prec2 emax2 Hprec2 Hemax2 m e) as H.
  cbn [FloatDefs.SFconv]. destruct (binary_round prec2 emax2 false m e) as [[|]|[|]| |[|] ? ?];
    try discriminate; reflexivity.
Qed.

Lemma SFleb_nonneg_inf x : nonneg x = true -> SFleb x (S754_infinity false) = true.
Proof using Type. destruct x as [[|]|[|]| |[|] m e]; try discriminate; reflexivity. Qed.

Lemma SFconv_mono x y :
  valid_binary prec1 emax1 x = true -> valid_binary prec1 emax1 y = true ->
  nonneg x = true -> nonneg y = true ->
  SFleb x y = true -> SFleb (SFconv x) (SFconv y) = true.
Proof.
  intros Vx Vy Nx Ny H.
  destruct x as [[|]|[|]| |[|] mx ex]; try discriminate;
    destruct y as [[|]|[|]| |[|] my ey]; try discriminate; try reflexivity.
  - apply SFleb_zero_nonneg, SFconv_nonneg. reflexivity.
  - apply SFleb_nonneg_inf. apply (SFconv_nonneg (S754_finite false mx ex)). reflexivity.
  - cbn [FloatDefs.SFconv]. set (B := Z.min ex ey).
    apply (@SFleb_value prec1 emax1 Hprec1 Hemax1 mx ex my ey B Vx Vy
             ltac:(subst B; lia) ltac:(subst B; lia)) in H.
    apply binary_round_mono with (E0 := B); try assumption; subst B; lia.
Qed.

Lemma at_least_conv a b :
  valid_binary prec1 emax1 a = true -> valid_binary prec1 emax1 b = true ->
  nonneg a = true -> nonneg_or_nan b = true ->
  at_least a b -> at_least (SFconv a) (SFconv b).
Proof.
  intros Va Vb Na Nb [->|Hab]; [left; reflexivity|right].
  apply SFconv_mono; try assumption.
  apply nonneg_of_leb with (a := a); assumption.
Qed.

End Convert.

End FloatTheory.

(** * Facts on buffers *)

Module Buffers.
Import ADM Spec.

Lemma zrange_length lo hi : length (zrange lo hi) = Z.to_nat (hi - lo).
Proof. unfold zrange. rewrite length_map, length_seq. reflexivity. Qed.

Lemma In_zrange k lo hi : In k (zrange lo hi) <-> lo <= k < hi.
Proof.
  unfold zrange. rewrite in_map_iff. split.
  - intros (n & <- & Hn). apply in_seq in Hn. lia.
  - intros Hk. exists (Z.to_nat (k - lo)). split; [lia|]. apply in_seq. lia.
Qed.

Lemma zth_in (A : Type) (d : A) l i :
  0 <= i -> zth d l i = nth (Z.to_nat i) l d.
Proof. intros Hi. unfold zth. destruct (Z.ltb_spec i 0); [lia|reflexivity]. Qed.

Lemma zth_out (A : Type) (d : A) l i :
  ~ (0 <= i < Z.of_nat (length l)) -> zth d l i = d.
Proof.
  intros Hi. unfold zth. destruct (Z.ltb_spec i 0); [reflexivity|].
  apply nth_overflow. lia.
Qed.

Lemma zth_default (A : Type) (P : A -> Prop) (d : A) l i :
  P d -> (forall x, In x l -> P x) -> P (zth d l i).
Proof.
  intros Hd Hl. unfold zth. destruct (i <? 0); [exact Hd|].
  destruct (nth_in_or_default (Z.to_nat i) l d) as [Hin| ->]; auto.
Qed.

Lemma zth_map (A B : Type) (f : A -> B) l d d' i :
  0 <= i < Z.of_nat (length l) -> zth d' (map f l) i = f (zth d l i).
Proof.
  intros Hi. rewrite !zth_in by lia.
  rewrite (nth_indep _ d' (f d)) by (rewrite length_map; lia).
  apply map_nth.
Qed.

Lemma zth_zrange d lo hi i : 0 <= i < hi - lo -> zth d (zrange lo hi) i = lo + i.
Proof.
  intros Hi. unfold zrange.
  rewrite (zth_map _ _ 0%nat) by (rewrite length_seq; lia).
  rewrite zth_in, seq_nth by lia. lia.
Qed.

Lemma px_build w h f i j :
  0 <= i < h -> 0 <= j < w -> px (build w h f) i j = f i j.
Proof.
  intros Hi Hj. unfold px, build.
  rewrite (zth_map _ _ 0) by (rewrite zrange_length; lia).
  rewrite (zth_map _ _ 0) by (rewrite zrange_length; lia).
  rewrite !zth_zrange by lia. reflexivity.
Qed.

Lemma px_build_out w h f i j :
  ~ (0 <= i < h /\ 0 <= j < w) -> px (build w h f) i j = F32.zero.
Proof.
  intros Hn. unfold px, build.
  destruct (Z_lt_dec i 0); [rewrite (zth_out _ _ (i := i)) by lia; apply zth_out; cbn; lia|].
  destruct (Z_lt_dec i h).
  - rewrite (zth_map _ _ 0) by (rewrite zrange_length; lia).
    apply zth_out. rewrite length_map, zrange_length. lia.
  - rewrite (zth_out _ _ (i := i)) by (rewrite length_map, zrange_length; lia).
    apply zth_out. cbn. lia.
Qed.

Lemma build_shape w h f : 0 <= w -> 0 <= h -> has_shape (build w h f) w h.
Proof.
  intros Hw Hh. unfold has_shape, build. split.
  - rewrite length_map, zrange_length. f_equal. lia.
  - apply Forall_forall. intros row Hrow. apply in_map_iff in Hrow.
    destruct Hrow as (i & <- & _). rewrite length_map, zrange_length. f_equal. lia.
Qed.

Lemma build_ext w h f g :
  (forall i j, 0 <= i < h -> 0 <= j < w -> f i j = g i j) ->
  build w h f = build w h g.
Proof.
  intros E. unfold build. apply map_ext_in. intros i Hi. apply In_zrange in Hi.
  apply map_ext_in. intros j Hj. apply In_zrange in Hj. apply E; lia.
Qed.

Lemma fold_left_ext_in (A B : Type) (f g : A -> B -> A) l a :
  (forall a b, In b l -> f a b = g a b) -> fold_left f l a = fold_left g l a.
Proof.
  revert a. induction l as [|b l IH]; intros a E; [reflexivity|].
  cbn. rewrite E by (left; reflexivity). apply IH.
  intros a' b' Hb. apply E. right. exact Hb.
Qed.

End Buffers.

(** * Properties of the filter *)

Module Props.
Import Round FloatDefs ADM Spec Buffers.

(** ** The CSF weighting and the original height *)

(** Claim C9, amended: [adm_csf] receives [orig_h] and never reads it.  Its
    output is the same for any two values of [orig_h]; each coefficient is
    the source coefficient times the reciprocal quantization step of the
    scale and orientation, which [dwt_quant_step] computes from the
    constants [VIEW_DIST] and [REF_DISPLAY_HEIGHT] of adm.h. *)
Theorem adm_csf_ignores_orig_h L H src orig_h orig_h' scale w h i j :
  0 <= i < h -> 0 <= j < w ->
  adm_csf L H src orig_h scale w h = adm_csf L H src orig_h' scale w h /\
  px (band_h (adm_csf L H src orig_h scale w h)) i j
    = F32.mul (rfactor L H scale 0) (px (band_h src) i j) /\
  px (band_v (adm_csf L H src orig_h scale w h)) i j
    = F32.mul (rfactor L H scale 1) (px (band_v src) i j) /\
  px (band_d (adm_csf L H src orig_h scale w h)) i j
    = F32.mul (rfactor L H scale 2) (px (band_d src) i j).
Proof.
  intros Hi Hj. split; [reflexivity|].
  unfold adm_csf. cbn [band_h band_v band_d].
  rewrite !px_build by assumption. auto.
Qed.

(** Claim C9, as stated, is refuted: no choice of libm, of adm.h, of a band,
    of a scale and of two heights makes [adm_csf] return different bands. *)
Lemma adm_csf_depends_on_orig_h_refuted :
  ~ exists L H src scale w h orig_h orig_h',
      adm_csf L H src orig_h scale w h <> adm_csf L H src orig_h' scale w h.
Proof.
  intros (L & H & src & scale & w & h & orig_h & orig_h' & Hne).
  apply Hne. reflexivity.
Qed.

(** ** The sample conversion *)

Lemma of_Z_exact n : 0 <= n < 2 ^ 24 -> (F2Q (F32.of_Z n) == inject_Z n)%Q.
Proof.
  intros Hn. unfold F32.of_Z. destruct n as [|p|p]; try lia; [reflexivity|].
  cbn [binary_normalize].
  destruct (@FloatTheory.Zdigits2_bounds (Zpos p) ltac:(lia)) as (Hd & Hb).
  set (d := Zdigits2 (Zpos p)) in *.
  assert (Hd24 : d <= 24).
  { destruct (Z_le_gt_dec d 24); [assumption|].
    pose proof (RoundArith.pow2_le (a := 24) (b := d - 1) ltac:(lia)). lia. }
  assert (He : SpecFloat.fexp F32.prec F32.emax (d + 0) = d - 24).
  { unfold SpecFloat.fexp, SpecFloat.emin, F32.prec, F32.emax. lia. }
  rewrite (@FloatTheory.binary_round_spec F32.prec F32.emax eq_refl eq_refl
             false p 0 (d - 24)) by (fold d; rewrite ?He; lia).
  fold d. rewrite He, Z.sub_diag, RoundArith.rne_0. unfold scaled.
  replace (0 - (d - 24)) with (24 - d) by lia.
  pose proof (RoundArith.pow2_pos (k := 24 - d) ltac:(lia)) as HP.
  assert (Hq : Zpos p * 2 ^ (24 - d) < 2 ^ 24).
  { replace 24 with (d + (24 - d)) at 2 by lia.
    rewrite Z.pow_add_r by lia. nia. }
  unfold pack, norm. change F32.prec with 24. change F32.emax with 128.
  destruct (Z.eqb_spec (Zpos p * 2 ^ (24 - d)) 0); [nia|].
  destruct (Z.ltb_spec (Zpos p * 2 ^ (24 - d)) (2 ^ 24)); [|lia]. cbn [fst snd].
  destruct (Z.leb_spec (d - 24) (128 - 24)); [|lia].
  cbn [F2Q cond_Zopp]. rewrite Z2Pos.id by nia.
  rewrite inject_Z_mult, Zpower_Qpower by lia.
  change (inject_Z 2) with (2 # 1).
  rewrite <- Qmult_assoc, <- Qpower_plus by discriminate.
  replace (24 - d + (d - 24)) with 0 by lia. change ((2 # 1) ^ 0)%Q with 1%Q.
  ring.
Qed.

(** Claim C10: for 8-bit and for 10-bit frames the conversion writes, at
    every pixel of both planes, the numeric cast of the input sample and
    nothing else: the value of the float is the sample itself, no offset is
    subtracted, and these planes are what [do_adm] passes to
    [compute_adm2]. *)
Theorem offset_is_plain_cast L H depth w h (ref main : samples) i j :
  0 <= i < h -> 0 <= j < w ->
  0 <= sample ref i j < 2 ^ 16 -> 0 <= sample main i j < 2 ^ 16 ->
  (px (fst (offset_8bit w h ref main)) i j = F32.of_Z (sample ref i j) /\
   px (snd (offset_8bit w h ref main)) i j = F32.of_Z (sample main i j)) /\
  (px (fst (offset_10bit w h ref main)) i j = F32.of_Z (sample ref i j) /\
   px (snd (offset_10bit w h ref main)) i j = F32.of_Z (sample main i j)) /\
  (F2Q (F32.of_Z (sample ref i j)) == inject_Z (sample ref i j))%Q /\
  (F2Q (F32.of_Z (sample main i j)) == inject_Z (sample main i j))%Q /\
  do_adm L H depth w h main ref
  = compute_adm2 L H (fst (offset_fn w h ref main)) (snd (offset_fn w h ref main)) w h.
Proof.
  intros Hi Hj Hr Hm.
  unfold offset_8bit, offset_10bit, offset_fn. cbn [fst snd].
  rewrite !px_build by assumption.
  repeat split; try reflexivity.
  - apply of_Z_exact. lia.
  - apply of_Z_exact. lia.
  - unfold do_adm, offset_8bit, offset_10bit, offset_fn.
    destruct (depth <=? 8); reflexivity.
Qed.

(** ** The wavelet transform *)

Lemma mirror_reflect idx dim : mirror idx dim = reflect idx dim.
Proof.
  unfold mirror, reflect, FFABS.
  destruct (Z.geb_spec idx 0); destruct (Z.leb_spec 0 idx); try lia; cbn [andb].
  - rewrite Z.abs_eq by lia.
    destruct (Z.geb_spec idx dim); destruct (Z.ltb_spec idx dim); try lia; reflexivity.
  - rewrite Z.abs_neq by lia.
    destruct (Z.geb_spec (- idx) dim); destruct (Z.ltb_spec (- idx) dim); try lia; reflexivity.
Qed.

Lemma mirror_in_range idx dim : 0 <= idx < dim -> mirror idx dim = idx.
Proof.
  intros Hi. unfold mirror, FFABS.
  destruct (Z.geb_spec idx 0); [|lia].
  destruct (Z.geb_spec idx dim); [lia|reflexivity].
Qed.

Lemma half_nonneg n : 0 <= n -> 0 <= (n + 1) ÷ 2.
Proof. intros Hn. apply Z.quot_pos; lia. Qed.

(** Claim C6: one call of [adm_dwt2] on a [w x h] plane gives four
    sub-bands of [(h+1)/2] rows of [(w+1)/2] coefficients; both passes read
    their source through [mirror], which is the reflection of the
    specification and leaves an index of [0, dim) as it is; a coefficient is
    the horizontal filtering of the row of vertical filterings. *)
Theorem adm_dwt2_shape_and_mirror H src w h :
  0 <= w -> 0 <= h ->
  let B := adm_dwt2 H src w h in
  let w2 := (w + 1) ÷ 2 in
  let h2 := (h + 1) ÷ 2 in
  (has_shape (band_a B) w2 h2 /\ has_shape (band_v B) w2 h2 /\
   has_shape (band_h B) w2 h2 /\ has_shape (band_d B) w2 h2) /\
  (forall idx dim, mirror idx dim = reflect idx dim) /\
  (forall idx dim, 0 <= idx < dim -> mirror idx dim = idx) /\
  (forall filter img n dim,
     dwt_sum H filter img n dim
     = fold_left
         (fun sum t =>
            F32.add sum (F32.mul (filter t) (img (reflect (2 * n - 1 + t) dim))))
         (zrange 0 (filt_w H)) F32.zero) /\
  (forall filter i j,
     0 <= j < w ->
     zth F32.zero (dwt_temp H filter src w h i) j
     = dwt_sum H filter (fun src_i => px src src_i j) i h) /\
  (forall i j,
     0 <= i < h2 -> 0 <= j < w2 ->
     px (band_a B) i j
     = dwt_sum H (filter_lo H) (zth F32.zero (dwt_temp H (filter_lo H) src w h i)) j w /\
     px (band_v B) i j
     = dwt_sum H (filter_hi H) (zth F32.zero (dwt_temp H (filter_lo H) src w h i)) j w /\
     px (band_h B) i j
     = dwt_sum H (filter_lo H) (zth F32.zero (dwt_temp H (filter_hi H) src w h i)) j w /\
     px (band_d B) i j
     = dwt_sum H (filter_hi H) (zth F32.zero (dwt_temp H (filter_hi H) src w h i)) j w).
Proof.
  intros Hw Hh B w2 h2.
  pose proof (half_nonneg Hw) as Hw2. pose proof (half_nonneg Hh) as Hh2.
  fold w2 in Hw2. fold h2 in Hh2.
  assert (Hrow : forall fa fb,
             map (fun i => let t := dwt_temp H fb src w h i in
                           map (fun j => dwt_sum H fa (zth F32.zero t) j w)
                               (zrange 0 w2))
                 (zrange 0 h2)
             = build w2 h2 (fun i j =>
                 dwt_sum H fa (zth F32.zero (dwt_temp H fb src w h i)) j w))
    by reflexivity.
  assert (HB : B = {| band_a := build w2 h2 (fun i j =>
                        dwt_sum H (filter_lo H) (zth F32.zero (dwt_temp H (filter_lo H) src w h i)) j w);
                      band_v := build w2 h2 (fun i j =>
                        dwt_sum H (filter_hi H) (zth F32.zero (dwt_temp H (filter_lo H) src w h i)) j w);
                      band_h := build w2 h2 (fun i j =>
                        dwt_sum H (filter_lo H) (zth F32.zero (dwt_temp H (filter_hi H) src w h i)) j w);
                      band_d := build w2 h2 (fun i j =>
                        dwt_sum H (filter_hi H) (zth F32.zero (dwt_temp H (filter_hi H) src w h i)) j w) |})
    by reflexivity.
  rewrite HB. cbn [band_a band_v band_h band_d].
  split; [repeat split; apply build_shape; assumption|].
  split; [exact mirror_reflect|].
  split; [exact mirror_in_range|].
  split.
  { intros filter img n dim. unfold dwt_sum. apply fold_left_ext_in.
    intros sum t _. rewrite mirror_reflect. reflexivity. }
  split.
  { intros filter i j Hj. unfold dwt_temp.
    rewrite (zth_map _ _ 0) by (rewrite zrange_length; lia).
    rewrite zth_zrange by lia. reflexivity. }
  intros i j Hi Hj. rewrite !px_build by assumption. auto.
Qed.

(** ** Contrast masking *)

Lemma filt_coeff_weight fi fj : filt_coeff fi fj = weight (fi - 1) (fj - 1).
Proof.
  unfold filt_coeff, weight.
  destruct (Z.eqb_spec fi 1); destruct (Z.eqb_spec (fi - 1) 0); try lia;
    destruct (Z.eqb_spec fj 1); destruct (Z.eqb_spec (fj - 1) 0); try lia;
    reflexivity.
Qed.

Lemma thresh_sum_window p w h i j : thresh_sum p w h i j = window_sum p w h i j.
Proof.
  unfold thresh_sum, window_sum.
  change (zrange 0 3) with [0; 1; 2]. cbn [fold_left].
  rewrite !filt_coeff_weight, !mirror_reflect.
  replace (i - 1 + 0) with (i + -1) by lia.
  replace (i - 1 + 1) with (i + 0) by lia.
  replace (i - 1 + 2) with (i + 1) by lia.
  replace (j - 1 + 0) with (j + -1) by lia.
  replace (j - 1 + 1) with (j + 0) by lia.
  replace (j - 1 + 2) with (j + 1) by lia.
  reflexivity.
Qed.

Lemma mask_not_negative x thr : F32.ltb (mask x thr) F32.zero = false.
Proof.
  unfold mask. destruct (F32.ltb (F32.sub (F32.abs x) thr) F32.zero) eqn:E.
  - reflexivity.
  - exact E.
Qed.

(** Claim C7: at every pixel the threshold is the sum over the three
    orientations of the 3x3 filter (1/15 at the centre, 1/30 elsewhere) of
    the absolute values of the band it is given (the CSF-weighted impairment
    band in [compute_adm2]), read through the reflection of the
    specification; the masked output of an orientation is [|x| - thr] when
    that is not below zero and [0] otherwise, so it is never negative. *)
Theorem contrast_masking_threshold_and_mask
    (src : adm_dwt_band_t) (thresh : plane) w h i j :
  0 <= i < h -> 0 <= j < w ->
  px (adm_cm_thresh src w h) i j = threshold src w h i j /\
  (px (band_h (adm_cm src thresh w h)) i j = mask (px (band_h src) i j) (px thresh i j) /\
   px (band_v (adm_cm src thresh w h)) i j = mask (px (band_v src) i j) (px thresh i j) /\
   px (band_d (adm_cm src thresh w h)) i j = mask (px (band_d src) i j) (px thresh i j)) /\
  (forall x thr,
     mask x thr
     = (if F32.ltb (F32.sub (F32.abs x) thr) F32.zero then F32.zero
        else F32.sub (F32.abs x) thr) /\
     F32.ltb (mask x thr) F32.zero = false).
Proof.
  intros Hi Hj. split; [|split].
  - unfold adm_cm_thresh, threshold. rewrite px_build by assumption.
    cbn [fold_left]. rewrite !thresh_sum_window. reflexivity.
  - unfold adm_cm. cbn [band_h band_v band_d].
    rewrite !px_build by assumption. auto.
  - intros x thr. split; [reflexivity|apply mask_not_negative].
Qed.

(** ** Pooling *)

Lemma fold_left_map (A B C : Type) (f : A -> B -> A) (g : C -> B) l a :
  fold_left f (map g l) a = fold_left (fun a c => f a (g c)) l a.
Proof. revert a. induction l as [|c l IH]; intros a; cbn; auto. Qed.

Lemma fold_left_flat_map (A B C : Type) (f : A -> B -> A) (g : C -> list B) l a :
  fold_left f (flat_map g l) a = fold_left (fun a c => fold_left f (g c) a) l a.
Proof.
  revert a. induction l as [|c l IH]; intros a; cbn; [reflexivity|].
  rewrite fold_left_app. apply IH.
Qed.

Lemma cube_sum_region x top bottom left right :
  cube_sum x top bottom left right
  = sum_list (map cube_abs (region x top bottom left right)).
Proof.
  unfold cube_sum, sum_list, region.
  rewrite fold_left_map, fold_left_flat_map.
  apply fold_left_ext_in. intros a i _.
  rewrite fold_left_map. reflexivity.
Qed.

Lemma region_ext x x' top bottom left right :
  (forall i j, top <= i < bottom -> left <= j < right -> px x i j = px x' i j) ->
  region x top bottom left right = region x' top bottom left right.
Proof.
  intros E. unfold region.
  induction (zrange top bottom) as [|i l IH] eqn:El; [reflexivity|].
  assert (Hin : forall i', In i' (i :: l) -> top <= i' < bottom).
  { intros i' Hi'. rewrite <- El in Hi'. apply In_zrange in Hi'. exact Hi'. }
  clear El IH. induction (i :: l) as [|i0 l0 IH0]; [reflexivity|].
  cbn. f_equal.
  - apply map_ext_in. intros j Hj. apply In_zrange in Hj.
    apply E; [apply Hin; left; reflexivity|exact Hj].
  - apply IH0. intros i' Hi'. apply Hin. right. exact Hi'.
Qed.


(** ** The scale loop and the final reduction *)

Lemma scale_step_acc L H orig_h st scale :
  exists bn bd : adm_dwt_band_t,
    num (scale_step L H orig_h st scale)
    = F64.add (num st)
        (F64.of_float (pool3 L H bn ((cur_w st + 1) ÷ 2) ((cur_h st + 1) ÷ 2))) /\
    den (scale_step L H orig_h st scale)
    = F64.add (den st)
        (F64.of_float (pool3 L H bd ((cur_w st + 1) ÷ 2) ((cur_h st + 1) ÷ 2))) /\
    scores (scale_step L H orig_h st scale)
    = scores st
      ++ [F64.of_float (pool3 L H bn ((cur_w st + 1) ÷ 2) ((cur_h st + 1) ÷ 2));
          F64.of_float (pool3 L H bd ((cur_w st + 1) ÷ 2) ((cur_h st + 1) ÷ 2))] /\
    cur_w (scale_step L H orig_h st scale) = (cur_w st + 1) ÷ 2 /\
    cur_h (scale_step L H orig_h st scale) = (cur_h st + 1) ÷ 2.
Proof.
  unfold scale_step.
  destruct (adm_decouple L _ _ _ _) as [r a].
  do 2 eexists. cbn [num den scores cur_w cur_h]. repeat split.
Qed.

(** The loop, unrolled: four numerators and four denominators, the first
    pair pooled on bands of the first halving of the frame. *)
Lemma scale_loop_unrolled L H ref main w h :
  exists (bn0 bd0 : adm_dwt_band_t) (n1 d1 n2 d2 n3 d3 : float),
    let n0 := pool3 L H bn0 ((w + 1) ÷ 2) ((h + 1) ÷ 2) in
    let d0 := pool3 L H bd0 ((w + 1) ÷ 2) ((h + 1) ÷ 2) in
    (exists (b1 b1' b2 b2' b3 b3' : adm_dwt_band_t) (w1 h1 w2 h2 w3 h3 : Z),
        n1 = pool3 L H b1 w1 h1 /\ d1 = pool3 L H b1' w1 h1 /\
        n2 = pool3 L H b2 w2 h2 /\ d2 = pool3 L H b2' w2 h2 /\
        n3 = pool3 L H b3 w3 h3 /\ d3 = pool3 L H b3' w3 h3) /\
    num (scale_loop L H ref main w h)
    = F64.add (F64.add (F64.add (F64.add F64.zero (F64.of_float n0))
                                (F64.of_float n1)) (F64.of_float n2))
              (F64.of_float n3) /\
    den (scale_loop L H ref main w h)
    = F64.add (F64.add (F64.add (F64.add F64.zero (F64.of_float d0))
                                (F64.of_float d1)) (F64.of_float d2))
              (F64.of_float d3) /\
    scores (scale_loop L H ref main w h)
    = [F64.of_float n0; F64.of_float d0; F64.of_float n1; F64.of_float d1;
       F64.of_float n2; F64.of_float d2; F64.of_float n3; F64.of_float d3].
Proof.
  unfold scale_loop. change (zrange 0 4) with [0; 1; 2; 3]. cbn [fold_left].
  set (st0 := {| curr_ref_scale := ref; curr_main_scale := main; cur_w := w;
                 cur_h := h; num := F64.zero; den := F64.zero; scores := [] |}).
  destruct (scale_step_acc L H h st0 0) as (bn0 & bd0 & N0 & D0 & S0 & W0 & H0).
  set (st1 := scale_step L H h st0 0) in *.
  destruct (scale_step_acc L H h st1 1) as (bn1 & bd1 & N1 & D1 & S1 & W1 & H1).
  set (st2 := scale_step L H h st1 1) in *.
  destruct (scale_step_acc L H h st2 2) as (bn2 & bd2 & N2 & D2 & S2 & W2 & H2).
  set (st3 := scale_step L H h st2 2) in *.
  destruct (scale_step_acc L H h st3 3) as (bn3 & bd3 & N3 & D3 & S3 & W3 & H3).
  set (st4 := scale_step L H h st3 3) in *.
  exists bn0, bd0.
  exists (pool3 L H bn1 ((cur_w st1 + 1) ÷ 2) ((cur_h st1 + 1) ÷ 2)).
  exists (pool3 L H bd1 ((cur_w st1 + 1) ÷ 2) ((cur_h st1 + 1) ÷ 2)).
  exists (pool3 L H bn2 ((cur_w st2 + 1) ÷ 2) ((cur_h st2 + 1) ÷ 2)).
  exists (pool3 L H bd2 ((cur_w st2 + 1) ÷ 2) ((cur_h st2 + 1) ÷ 2)).
  exists (pool3 L H bn3 ((cur_w st3 + 1) ÷ 2) ((cur_h st3 + 1) ÷ 2)).
  exists (pool3 L H bd3 ((cur_w st3 + 1) ÷ 2) ((cur_h st3 + 1) ÷ 2)).
  cbv zeta. split; [|split; [|split]].
  - exists bn1, bd1, bn2, bd2, bn3, bd3. do 6 eexists. repeat split.
  - rewrite N3, N2, N1, N0. reflexivity.
  - rewrite D3, D2, D1, D0. reflexivity.
  - rewrite S3, S2, S1, S0. reflexivity.
Qed.

Lemma numden_limit_eq w h :
  numden_limit w h
  = F64.div (F64.mul (F64.lit 1 100) (F64.of_Z (w * h))) (F64.of_Z 2073600).
Proof. reflexivity. Qed.

(** ** Pooled values *)

Lemma sum_cube_facts L x w h b :
  cube_root_like L ->
  F32.valid (adm_sum_cube L x w h b) = true /\
  nonneg_or_nan (adm_sum_cube L x w h b) = true /\
  at_least (stabilizer L (border h b) (h - border h b) (border w b) (w - border w b))
           (adm_sum_cube L x w h b).
Proof.
  intros HL. unfold adm_sum_cube.
  set (cs := cube_sum _ _ _ _ _). set (st := stabilizer _ _ _ _ _).
  destruct (HL cs) as (V1 & N1).
  assert (V2 : F32.valid st = true) by (subst st; unfold stabilizer; apply HL).
  assert (N2 : nonneg_or_nan st = true) by (subst st; unfold stabilizer; apply HL).
  split; [|split].
  - apply (@FloatTheory.SFadd_valid F32.prec F32.emax eq_refl eq_refl); assumption.
  - apply (@FloatTheory.SFadd_nonneg_or_nan F32.prec F32.emax eq_refl eq_refl); assumption.
  - apply (@FloatTheory.at_least_add_r F32.prec F32.emax eq_refl eq_refl); assumption.
Qed.

Lemma pool3_facts L H b w h :
  cube_root_like L ->
  F32.valid (pool3 L H b w h) = true /\
  nonneg_or_nan (pool3 L H b w h) = true /\
  at_least (band_stabilizer L H w h) (pool3 L H b w h).
Proof.
  intros HL. unfold pool3, band_stabilizer.
  destruct (sum_cube_facts (band_h b) w h (ADM_BORDER_FACTOR H) HL) as (Vh & Nh & Ah).
  destruct (sum_cube_facts (band_v b) w h (ADM_BORDER_FACTOR H) HL) as (Vv & Nv & _).
  destruct (sum_cube_facts (band_d b) w h (ADM_BORDER_FACTOR H) HL) as (Vd & Nd & _).
  set (ph := adm_sum_cube L (band_h b) w h _) in *.
  set (pv := adm_sum_cube L (band_v b) w h _) in *.
  set (pd := adm_sum_cube L (band_d b) w h _) in *.
  set (st := stabilizer _ _ _ _ _) in *.
  pose proof (@FloatTheory.SFadd_valid F32.prec F32.emax eq_refl eq_refl) as AV.
  pose proof (@FloatTheory.SFadd_nonneg_or_nan F32.prec F32.emax eq_refl eq_refl) as AN.
  pose proof (@FloatTheory.at_least_add_l F32.prec F32.emax eq_refl eq_refl) as AL.
  assert (V0 : F32.valid (F32.add F32.zero ph) = true) by (apply AV; [reflexivity|assumption]).
  assert (N0 : nonneg_or_nan (F32.add F32.zero ph) = true) by (apply AN; [reflexivity|assumption]).
  assert (V1 : F32.valid (F32.add (F32.add F32.zero ph) pv) = true) by (apply AV; assumption).
  assert (N1 : nonneg_or_nan (F32.add (F32.add F32.zero ph) pv) = true) by (apply AN; assumption).
  split; [apply AV; assumption|]. split; [apply AN; assumption|].
  apply AL; try assumption. apply AL; try assumption.
  unfold F32.add, F32.zero. rewrite FloatTheory.SFadd_zero_l by assumption.
  exact Ah.
Qed.

(** ** The decoupler *)

Lemma within_epsilon_sub t r :
  F32.valid t = true -> F32.valid r = true -> is_finite (F32.sub t r) = true ->
  within_epsilon t r (F32.sub t r).
Proof.
  intros Vt Vr Fa. unfold within_epsilon.
  pose proof (@FloatTheory.SFsub_error_Q F32.prec F32.emax eq_refl eq_refl t r Vt Vr Fa) as E.
  assert (Q : (F2Q r + F2Q (F32.sub t r) - F2Q t
               == F2Q (SFsub F32.prec F32.emax t r) - (F2Q t - F2Q r))%Q)
    by (unfold F32.sub; ring).
  rewrite Q. exact E.
Qed.

(** ** Identical planes *)

Lemma ok_coeff_iff x :
  ok_coeff x = true <-> F32.valid x = true /\ is_finite x = true.
Proof. unfold ok_coeff. apply andb_true_iff. Qed.

Lemma band_ok_at B w h i j :
  band_ok B w h = true -> 0 <= i < h -> 0 <= j < w ->
  ok_coeff (px (band_h B) i j) = true /\ ok_coeff (px (band_v B) i j) = true /\
  ok_coeff (px (band_d B) i j) = true.
Proof.
  intros HB Hi Hj. unfold band_ok in HB.
  rewrite forallb_forall in HB. specialize (HB i ltac:(apply In_zrange; lia)).
  rewrite forallb_forall in HB. specialize (HB j ltac:(apply In_zrange; lia)).
  apply andb_true_iff in HB. destruct HB as (HB & Hd).
  apply andb_true_iff in HB. destruct HB as (Hh & Hv). auto.
Qed.

(** The angular test on a vector against itself. *)
Lemma angle_flag_self c oh ov :
  (exists mc ec, c = S754_finite false mc ec) ->
  F32.valid c = true -> F32.leb c F32.one = true ->
  ok_coeff oh = true -> ok_coeff ov = true ->
  angle_flag c oh ov oh ov = true.
Proof.
  intros Hc Vc Lc Hh Hv.
  apply ok_coeff_iff in Hh. destruct Hh as (Vh & Fh).
  apply ok_coeff_iff in Hv. destruct Hv as (Vv & Fv).
  unfold angle_flag.
  set (m := F32.add (F32.mul oh oh) (F32.mul ov ov)).
  assert (Nm : nonneg m = true).
  { apply (@FloatTheory.SFadd_nonneg F32.prec F32.emax eq_refl eq_refl);
      apply (@FloatTheory.SFmul_self_nonneg F32.prec F32.emax eq_refl eq_refl);
      assumption. }
  assert (Vm : F32.valid m = true).
  { apply (@FloatTheory.SFadd_valid F32.prec F32.emax eq_refl eq_refl);
      apply (@FloatTheory.SFmul_valid F32.prec F32.emax eq_refl eq_refl);
      assumption. }
  apply andb_true_iff. split.
  - apply FloatTheory.SFleb_zero_nonneg. exact Nm.
  - apply (@FloatTheory.SFmul_scaled_square_le F32.prec F32.emax eq_refl eq_refl);
      assumption.
Qed.

Lemma cos_ok_facts L :
  cos_ok L = true ->
  (exists mc ec, cos_1deg_sq L = S754_finite false mc ec) /\
  F32.valid (cos_1deg_sq L) = true /\ F32.leb (cos_1deg_sq L) F32.one = true.
Proof.
  unfold cos_ok. destruct (cos_1deg_sq L) as [?|?| |[|] mc ec]; try discriminate.
  intros Hc. apply andb_true_iff in Hc. destruct Hc as (V & Le).
  split; [exists mc, ec; reflexivity|]. split; assumption.
Qed.

(** The decoupler on a band against itself. *)
Lemma decouple_identical L B w h i j :
  cos_ok L = true -> band_ok B w h = true -> 0 <= i < h -> 0 <= j < w ->
  angle_flag (cos_1deg_sq L) (px (band_h B) i j) (px (band_v B) i j)
             (px (band_h B) i j) (px (band_v B) i j) = true /\
  (forall sel, In sel orientations ->
     px (sel (fst (adm_decouple L B B w h))) i j = px (sel B) i j /\
     px (sel (snd (adm_decouple L B B w h))) i j = F32.zero).
Proof.
  intros Hc HB Hi Hj.
  destruct (cos_ok_facts L Hc) as (Cpos & Cv & Cle).
  destruct (band_ok_at B HB Hi Hj) as (Oh & Ov & Od).
  assert (Hflag : angle_flag (cos_1deg_sq L) (px (band_h B) i j) (px (band_v B) i j)
                             (px (band_h B) i j) (px (band_v B) i j) = true)
    by (apply angle_flag_self; assumption).
  split; [exact Hflag|].
  intros sel Hsel.
  assert (Osel : ok_coeff (px (sel B) i j) = true)
    by (destruct Hsel as [<-|[<-|[<-|[]]]]; assumption).
  assert (Er : px (sel (fst (adm_decouple L B B w h))) i j = px (sel B) i j).
  { destruct Hsel as [<-|[<-|[<-|[]]]]; unfold adm_decouple;
      cbn [fst snd band_h band_v band_d]; rewrite !px_build by assumption;
      rewrite Hflag; reflexivity. }
  split; [exact Er|].
  assert (Ea : px (sel (snd (adm_decouple L B B w h))) i j
               = F32.sub (px (sel B) i j) (px (sel (fst (adm_decouple L B B w h))) i j)).
  { destruct Hsel as [<-|[<-|[<-|[]]]]; unfold adm_decouple;
      cbn [fst snd band_h band_v band_d]; rewrite !px_build by assumption;
      reflexivity. }
  rewrite Ea, Er. apply FloatTheory.SFsub_diag.
  apply ok_coeff_iff in Osel. tauto.
Qed.

Lemma filt_coeff_times_zero fi fj :
  F32.mul (filt_coeff fi fj) F32.zero = F32.zero.
Proof. unfold filt_coeff. destruct (_ && _); reflexivity. Qed.

(** The threshold of a band of zeros is zero. *)
Lemma thresh_sum_zero p w h i j :
  (forall i' j', is_zero (px p i' j') = true) -> thresh_sum p w h i j = F32.zero.
Proof.
  intros Hz. unfold thresh_sum. change (zrange 0 3) with [0; 1; 2].
  cbn [fold_left]. unfold F32.abs.
  rewrite !FloatTheory.SFabs_zero by apply Hz.
  change (S754_zero false) with F32.zero.
  rewrite !filt_coeff_times_zero. reflexivity.
Qed.

Lemma adm_cm_thresh_zero src w h i j :
  (forall sel i' j', In sel orientations -> is_zero (px (sel src) i' j') = true) ->
  0 <= i < h -> 0 <= j < w ->
  px (adm_cm_thresh src w h) i j = F32.zero.
Proof.
  intros Hz Hi Hj. unfold adm_cm_thresh. rewrite px_build by assumption.
  cbn [fold_left].
  rewrite !thresh_sum_zero by (intros; apply Hz; cbn; auto).
  reflexivity.
Qed.

Lemma mask_zero x : mask x F32.zero = F32.abs x.
Proof.
  unfold mask, F32.sub, F32.abs, F32.zero, F32.ltb.
  rewrite (FloatTheory.SFsub_zero_r F32.prec F32.emax).
  rewrite FloatTheory.SFabs_not_negative. reflexivity.
Qed.

Lemma cube_sum_abs_ext x x' top bottom left right :
  (forall i j, F32.abs (px x i j) = F32.abs (px x' i j)) ->
  cube_sum x top bottom left right = cube_sum x' top bottom left right.
Proof.
  intros E. unfold cube_sum. apply fold_left_ext_in. intros s i _.
  apply fold_left_ext_in. intros s' j _. rewrite E. reflexivity.
Qed.

Lemma adm_sum_cube_abs_ext L x x' w h b :
  (forall i j, F32.abs (px x i j) = F32.abs (px x' i j)) ->
  adm_sum_cube L x w h b = adm_sum_cube L x' w h b.
Proof.
  intros E. unfold adm_sum_cube. rewrite (@cube_sum_abs_ext x x' _ _ _ _ E). reflexivity.
Qed.

Lemma in_range_dec i j w h : {0 <= i < h /\ 0 <= j < w} + {~ (0 <= i < h /\ 0 <= j < w)}.
Proof.
  destruct (Z_le_dec 0 i); destruct (Z_lt_dec i h); destruct (Z_le_dec 0 j);
    destruct (Z_lt_dec j w); try (right; lia). left. lia.
Qed.

(** On identical inputs the masked restored band and the weighted
    reference band have the same magnitudes, so they pool to the same
    value. *)
Lemma pools_identical L H B orig_h scale w h :
  cos_ok L = true -> band_ok B w h = true ->
  is_finite (rfactor L H scale 0) = true -> is_finite (rfactor L H scale 2) = true ->
  pool3 L H
    (adm_cm (adm_csf L H (fst (adm_decouple L B B w h)) orig_h scale w h)
            (adm_cm_thresh (adm_csf L H (snd (adm_decouple L B B w h)) orig_h scale w h) w h)
            w h) w h
  = pool3 L H (adm_csf L H B orig_h scale w h) w h.
Proof.
  intros Hc HB R0 R2.
  set (r := fst (adm_decouple L B B w h)). set (a := snd (adm_decouple L B B w h)).
  assert (R1 : is_finite (rfactor L H scale 1) = true) by exact R0.
  assert (Hthr : forall i j, 0 <= i < h -> 0 <= j < w ->
             px (adm_cm_thresh (adm_csf L H a orig_h scale w h) w h) i j = F32.zero).
  { intros i j Hi Hj. apply adm_cm_thresh_zero; try assumption.
    intros sel i' j' Hsel.
    destruct (in_range_dec i' j' w h) as [[Hi' Hj']|Hout].
    - destruct (decouple_identical L B Hc HB Hi' Hj') as (_ & Hd).
      destruct (Hd sel Hsel) as (_ & Ha). fold a in Ha.
      destruct Hsel as [<-|[<-|[<-|[]]]]; unfold adm_csf; cbn [band_h band_v band_d];
        rewrite px_build by assumption; rewrite Ha;
        apply FloatTheory.SFmul_zero_r; try assumption; reflexivity.
    - destruct Hsel as [<-|[<-|[<-|[]]]]; unfold adm_csf; cbn [band_h band_v band_d];
        rewrite px_build_out by assumption; reflexivity. }
  assert (Habs : forall sel i j, In sel orientations ->
             F32.abs (px (sel (adm_cm (adm_csf L H r orig_h scale w h)
                                      (adm_cm_thresh (adm_csf L H a orig_h scale w h) w h)
                                      w h)) i j)
             = F32.abs (px (sel (adm_csf L H B orig_h scale w h)) i j)).
  { intros sel i j Hsel.
    destruct (in_range_dec i j w h) as [[Hi Hj]|Hout].
    - destruct (decouple_identical L B Hc HB Hi Hj) as (_ & Hd).
      destruct (Hd sel Hsel) as (Hr & _). fold r in Hr.
      destruct Hsel as [<-|[<-|[<-|[]]]]; unfold adm_cm, adm_csf;
        cbn [band_h band_v band_d]; rewrite !px_build by assumption;
        fold (adm_csf L H a orig_h scale w h);
        rewrite (Hthr i j Hi Hj), mask_zero, Hr; apply FloatTheory.SFabs_idem.
    - destruct Hsel as [<-|[<-|[<-|[]]]]; unfold adm_cm, adm_csf;
        cbn [band_h band_v band_d]; rewrite !px_build_out by assumption;
        reflexivity. }
  unfold pool3.
  rewrite (@adm_sum_cube_abs_ext L _ _ w h (ADM_BORDER_FACTOR H)
             (fun i j => Habs band_h i j ltac:(cbn; auto))).
  rewrite (@adm_sum_cube_abs_ext L _ _ w h (ADM_BORDER_FACTOR H)
             (fun i j => Habs band_v i j ltac:(cbn; auto))).
  rewrite (@adm_sum_cube_abs_ext L _ _ w h (ADM_BORDER_FACTOR H)
             (fun i j => Habs band_d i j ltac:(cbn; auto))).
  reflexivity.
Qed.

Lemma zrange_snoc n : 0 <= n -> zrange 0 (n + 1) = zrange 0 n ++ [n].
Proof.
  intros Hn. unfold zrange.
  replace (Z.to_nat (n + 1 - 0)) with (Z.to_nat (n - 0) + 1)%nat by lia.
  rewrite seq_app, map_app. cbn. do 2 f_equal. lia.
Qed.

Lemma F64_div_self s m e :
  F64.div (S754_finite s m e) (S754_finite s m e) = F64.one.
Proof.
  unfold F64.div. cbn [SFdiv]. unfold SFdiv_core_binary.
  rewrite !Z.sub_diag.
  change (Z.min (SpecFloat.fexp F64.prec F64.emax 0) 0) with (-53).
  change (0 - -53) with 53.
  rewrite Z.shiftl_mul_pow2 by lia.
  pose proof (Z.div_eucl_eq (Zpos m * 2 ^ 53) (Zpos m) ltac:(lia)) as E.
  pose proof (Z.mod_pos_bound (Zpos m * 2 ^ 53) (Zpos m) ltac:(lia)) as Hb.
  unfold Z.modulo in Hb.
  destruct (Z.div_eucl (Zpos m * 2 ^ 53) (Zpos m)) as [q r].
  set (P := 2 ^ 53) in *.
  assert (Hq : q = P /\ r = 0).
  { assert (Zpos m * (P - q) = r) by lia.
    assert (P - q = 0) by nia. split; nia. }
  destruct Hq as (-> & ->).
  assert (Hl : new_location (Zpos m) 0 = loc_Exact).
  { unfold new_location. destruct (Z.even (Zpos m)); reflexivity. }
  rewrite Hl. destruct s; reflexivity.
Qed.

(** ** A reference plane of zeros *)

Lemma zth_forallb (f : float -> bool) l i :
  forallb f l = true -> f F32.zero = true -> f (zth F32.zero l i) = true.
Proof.
  intros Hl H0. unfold zth. destruct (i <? 0); [exact H0|].
  destruct (Nat.lt_ge_cases (Z.to_nat i) (length l)) as [Hlt|Hge].
  - rewrite forallb_forall in Hl. apply Hl, nth_In, Hlt.
  - rewrite nth_overflow by assumption. exact H0.
Qed.

Lemma taps_finite_at H t :
  taps_finite H = true ->
  is_finite (filter_lo H t) = true /\ is_finite (filter_hi H t) = true.
Proof.
  intros HT. apply andb_true_iff in HT. destruct HT as (Hlo & Hhi).
  split; apply zth_forallb; try assumption; reflexivity.
Qed.

Lemma add_zero_zero z : is_zero z = true -> F32.add F32.zero z = F32.zero.
Proof. destruct z as [[|]| | |]; try discriminate; reflexivity. Qed.

Lemma dwt_sum_zero H filter img n dim :
  (forall t, is_finite (filter t) = true) -> (forall k, is_zero (img k) = true) ->
  dwt_sum H filter img n dim = F32.zero.
Proof.
  intros Hf Hz. unfold dwt_sum.
  induction (zrange 0 (filt_w H)) as [|t l IH]; [reflexivity|].
  cbn [fold_left]. rewrite add_zero_zero; [exact IH|].
  apply FloatTheory.SFmul_zero_r; [apply Hf|apply Hz].
Qed.

Lemma px_zero_plane_out (A : Type) (p : plane) i j :
  ~ (0 <= i < Z.of_nat (length p)) -> px p i j = F32.zero.
Proof.
  intros Hi. unfold px. rewrite (zth_out _ _ (i := i)) by assumption.
  apply zth_out. cbn. lia.
Qed.

Lemma is_zero_px_build w h f i j :
  (forall i' j', is_zero (f i' j') = true) -> is_zero (px (build w h f) i j) = true.
Proof.
  intros Hf. destruct (in_range_dec i j w h) as [[Hi Hj]|Hout].
  - rewrite px_build by assumption. apply Hf.
  - rewrite px_build_out by assumption. reflexivity.
Qed.

Lemma is_zero_zth_map (f : Z -> float) l j :
  (forall k, is_zero (f k) = true) -> is_zero (zth F32.zero (map f l) j) = true.
Proof.
  intros Hf. unfold zth. destruct (j <? 0); [reflexivity|].
  destruct (Nat.lt_ge_cases (Z.to_nat j) (length (map f l))) as [Hlt|Hge].
  - rewrite (nth_indep _ F32.zero (f 0)) by assumption. rewrite map_nth. apply Hf.
  - rewrite nth_overflow by assumption. reflexivity.
Qed.

Lemma adm_dwt2_build H src w h :
  adm_dwt2 H src w h
  = {| band_a := build ((w + 1) ÷ 2) ((h + 1) ÷ 2) (fun i j =>
         dwt_sum H (filter_lo H) (zth F32.zero (dwt_temp H (filter_lo H) src w h i)) j w);
       band_v := build ((w + 1) ÷ 2) ((h + 1) ÷ 2) (fun i j =>
         dwt_sum H (filter_hi H) (zth F32.zero (dwt_temp H (filter_lo H) src w h i)) j w);
       band_h := build ((w + 1) ÷ 2) ((h + 1) ÷ 2) (fun i j =>
         dwt_sum H (filter_lo H) (zth F32.zero (dwt_temp H (filter_hi H) src w h i)) j w);
       band_d := build ((w + 1) ÷ 2) ((h + 1) ÷ 2) (fun i j =>
         dwt_sum H (filter_hi H) (zth F32.zero (dwt_temp H (filter_hi H) src w h i)) j w) |}.
Proof. reflexivity. Qed.

(** The wavelet transform of a plane of zeros is four bands of zeros. *)
Lemma adm_dwt2_zero H src w h :
  taps_finite H = true -> (forall i j, is_zero (px src i j) = true) ->
  forall sel i j, In sel (band_a :: orientations) ->
    is_zero (px (sel (adm_dwt2 H src w h)) i j) = true.
Proof.
  intros HT Hz sel i j Hsel.
  assert (Htemp : forall filter i' k,
             (forall t, is_finite (filter t) = true) ->
             is_zero (zth F32.zero (dwt_temp H filter src w h i') k) = true).
  { intros filter i' k Hf. unfold dwt_temp. apply is_zero_zth_map.
    intros j'. rewrite dwt_sum_zero; [reflexivity|exact Hf|].
    intros k'. apply Hz. }
  assert (Hlo : forall t, is_finite (filter_lo H t) = true)
    by (intros t; apply (taps_finite_at H t HT)).
  assert (Hhi : forall t, is_finite (filter_hi H t) = true)
    by (intros t; apply (taps_finite_at H t HT)).
  rewrite adm_dwt2_build.
  destruct Hsel as [<-|[<-|[<-|[<-|[]]]]]; cbn [band_a band_h band_v band_d];
    apply is_zero_px_build; intros i' j';
    (rewrite dwt_sum_zero;
     [reflexivity | assumption | intros k; apply Htemp; assumption]).
Qed.

Lemma cube_row_zero x i l :
  (forall i j, is_zero (px x i j) = true) ->
  fold_left (fun sum j => F32.add sum (get_cube (F32.abs (px x i j)))) l F32.zero
  = F32.zero.
Proof.
  intros Hz. induction l as [|j l IH]; [reflexivity|].
  cbn [fold_left]. unfold F32.abs. rewrite FloatTheory.SFabs_zero by apply Hz.
  exact IH.
Qed.

Lemma cube_sum_zero x top bottom left right :
  (forall i j, is_zero (px x i j) = true) ->
  cube_sum x top bottom left right = F32.zero.
Proof.
  intros Hz. unfold cube_sum.
  induction (zrange top bottom) as [|i l IH]; [reflexivity|].
  cbn [fold_left]. rewrite cube_row_zero by assumption. exact IH.
Qed.

Lemma pool3_zero L H b w h :
  (forall sel i j, In sel orientations -> is_zero (px (sel b) i j) = true) ->
  pool3 L H b w h = zero_pool L H w h.
Proof.
  intros Hz. unfold pool3, zero_pool, adm_sum_cube, band_stabilizer.
  rewrite !cube_sum_zero by (intros; apply Hz; cbn; auto).
  reflexivity.
Qed.

Lemma adm_csf_zero L H B orig_h scale w h :
  is_finite (rfactor L H scale 0) = true -> is_finite (rfactor L H scale 2) = true ->
  (forall sel i j, In sel orientations -> is_zero (px (sel B) i j) = true) ->
  forall sel i j, In sel orientations ->
    is_zero (px (sel (adm_csf L H B orig_h scale w h)) i j) = true.
Proof.
  intros R0 R2 Hz sel i j Hsel.
  assert (R1 : is_finite (rfactor L H scale 1) = true) by exact R0.
  destruct Hsel as [<-|[<-|[<-|[]]]]; unfold adm_csf; cbn [band_h band_v band_d];
    apply is_zero_px_build; intros i' j'; apply FloatTheory.SFmul_zero_r;
    try assumption; apply Hz; cbn; auto.
Qed.

(** ** The properties on the frames of [Ref] *)

Lemma icbrt_nonneg b N r : 0 <= r -> 0 <= Ref.icbrt b N r.
Proof.
  revert r. induction b as [|b IH]; intros r Hr; cbn [Ref.icbrt].
  - destruct (_ <=? N); lia.
  - apply IH. pose proof (RoundArith.pow2_pos (k := Z.of_nat (S b)) ltac:(lia)).
    destruct (_ <=? N); lia.
Qed.

Lemma ref_cube_root_like : cube_root_like Ref.L.
Proof.
  intros x. change (powf Ref.L x third) with (Ref.cbrtf x).
  destruct x as [s|[|]| |[|] m e]; try (split; reflexivity).
  cbn [Ref.cbrtf].
  set (N := Zpos m * 2 ^ (90 + (e - 90) mod 3)).
  set (z := 2 * Ref.icbrt 63 N 0 + (if Ref.icbrt 63 N 0 * Ref.icbrt 63 N 0 * Ref.icbrt 63 N 0 =? N then 0 else 1)).
  assert (Hz : 0 <= z).
  { pose proof (@icbrt_nonneg 63 N 0 ltac:(lia)). subst z. destruct (_ =? N); lia. }
  split.
  - apply (@FloatTheory.binary_normalize_valid 24 128 eq_refl eq_refl).
  - destruct z as [|p|p]; try lia; [reflexivity|]. cbn [binary_normalize].
    pose proof (@FloatTheory.binary_round_nonneg 24 128 eq_refl eq_refl p
                  ((e - (90 + (e - 90) mod 3)) / 3 - 1)) as Hn.
    destruct (binary_round 24 128 false p _) as [[|]|[|]| |[|] ? ?];
      try discriminate; reflexivity.
Qed.

Lemma adm_csf_ignores_orig_h_witness :
  0 <= 0 < 8 /\ 0 <= 0 < 8 /\
  adm_csf Ref.L Ref.H Ref.ramp_dwt 16 0 8 8 = adm_csf Ref.L Ref.H Ref.ramp_dwt 9 0 8 8.
Proof.
  split; [lia|]. split; [lia|].
  exact (proj1 (@adm_csf_ignores_orig_h Ref.L Ref.H Ref.ramp_dwt 16 9 0 8 8 0 0 ltac:(lia) ltac:(lia))).
Defined.

Lemma offset_is_plain_cast_witness :
  0 <= 1 < 16 /\ 0 <= 2 < 16 /\
  px (fst (offset_8bit 16 16 Ref.ramp Ref.checker)) 1 2
  = F32.of_Z (sample Ref.ramp 1 2).
Proof.
  split; [lia|]. split; [lia|].
  exact (proj1 (proj1 (@offset_is_plain_cast Ref.L Ref.H 8 16 16 Ref.ramp Ref.checker 1 2
     ltac:(lia) ltac:(lia) ltac:(vm_compute; split; congruence) ltac:(vm_compute; split; congruence)))).
Defined.

Lemma adm_dwt2_shape_and_mirror_witness :
  0 <= 16 /\ has_shape (band_a (adm_dwt2 Ref.H (Ref.plane_of Ref.ramp) 16 16)) 8 8.
Proof.
  split; [lia|].
  exact (proj1 (proj1 (@adm_dwt2_shape_and_mirror Ref.H (Ref.plane_of Ref.ramp) 16 16 ltac:(lia) ltac:(lia)))).
Defined.

Lemma contrast_masking_threshold_and_mask_witness :
  0 <= 0 < 8 /\ 0 <= 7 < 8 /\
  px (adm_cm_thresh Ref.checker_dwt 8 8) 0 7 = threshold Ref.checker_dwt 8 8 0 7.
Proof.
  split; [lia|]. split; [lia|].
  exact (proj1 (@contrast_masking_threshold_and_mask Ref.checker_dwt [] 8 8 0 7 ltac:(lia) ltac:(lia))).
Defined.


(** On every size of [Ref.frame_sizes] the noise floor is below the
    stabilizer of the first scale, as the scale-additivity property asks. *)
Lemma floor_below_stabilizer :
  forallb (fun s => F64.leb (numden_limit (fst s) (snd s))
                      (F64.of_float (band_stabilizer Ref.L Ref.H
                                       ((fst s + 1) ÷ 2) ((snd s + 1) ÷ 2))))
          Ref.frame_sizes = true.
Proof. vm_compute. reflexivity. Qed.

(** Claim C3, as stated, is refuted on a black reference frame and a
    checkerboard: the reference plane is all zeros, yet [score_den] is above
    the noise floor and the score is not 1.0. *)
Lemma zero_reference_score_counterexample :
  (forall i j, (i < 16)%nat -> (j < 16)%nat ->
     px (Ref.plane_of Ref.black) (Z.of_nat i) (Z.of_nat j) = F32.zero) /\
  F64.leb (score_den (do_adm Ref.L Ref.H 8 16 16 Ref.checker Ref.black))
          (numden_limit 16 16) = false /\
  score (do_adm Ref.L Ref.H 8 16 16 Ref.checker Ref.black) <> F64.one.
Proof.
  split; [|split].
  - intros i j Hi Hj.
    do 16 (destruct i as [|i]; [
      do 16 (destruct j as [|j]; [vm_compute; reflexivity|]); lia|]).
    lia.
  - vm_compute. reflexivity.
  - vm_compute. discriminate.
Qed.

End Props.

(** * Buffers, indices and the context *)

Module Memory.
Import ADM Spec Buffers.

Ltac euclid := Z.to_euclidean_division_equations; lia.

Lemma size_t_small x : 0 <= x < 2 ^ 64 -> Ctx.size_t x = x.
Proof. intros Hx. unfold Ctx.size_t. apply Z.mod_small. exact Hx. Qed.

(** ** ALIGN_CEIL *)

Lemma ALIGN_CEIL_eq x :
  0 <= x <= Ctx.SIZE_MAX - 31 ->
  Ctx.ALIGN_CEIL x = 32 * ((x + 31) / 32).
Proof.
  unfold Ctx.SIZE_MAX. intros Hx. unfold Ctx.ALIGN_CEIL, Ctx.MAX_ALIGN.
  destruct (Z.eqb_spec (x mod 32) 0) as [E|E].
  - rewrite Z.add_0_r, size_t_small by lia. euclid.
  - rewrite (size_t_small (x := 32 - x mod 32)) by euclid.
    rewrite size_t_small by euclid. euclid.
Qed.

(** Property X1.  [ALIGN_CEIL x] is the least multiple of 32 that is at
    least [x], as long as that multiple is a [size_t]; above the last
    multiple of 32 the sum wraps and the result is 0. *)
Theorem ALIGN_CEIL_rounds_up x :
  0 <= x <= Ctx.SIZE_MAX ->
  (x <= Ctx.SIZE_MAX - 31 ->
   Ctx.ALIGN_CEIL x mod Ctx.MAX_ALIGN = 0 /\
   x <= Ctx.ALIGN_CEIL x < x + Ctx.MAX_ALIGN /\
   (forall y, x <= y -> y mod Ctx.MAX_ALIGN = 0 -> Ctx.ALIGN_CEIL x <= y) /\
   Ctx.ALIGN_CEIL (Ctx.ALIGN_CEIL x) = Ctx.ALIGN_CEIL x) /\
  (Ctx.SIZE_MAX - 31 < x -> x mod Ctx.MAX_ALIGN <> 0 -> Ctx.ALIGN_CEIL x = 0).
Proof.
  unfold Ctx.SIZE_MAX, Ctx.MAX_ALIGN. intros Hx. split.
  - intros Hs. rewrite !ALIGN_CEIL_eq by (unfold Ctx.SIZE_MAX; lia).
    assert (Hr : 32 * ((x + 31) / 32) <= 2 ^ 64 - 1 - 31) by euclid.
    repeat split; try euclid.
    + intros y Hy Hm. euclid.
    + rewrite ALIGN_CEIL_eq by (unfold Ctx.SIZE_MAX; euclid). euclid.
  - intros Hs Hm. unfold Ctx.ALIGN_CEIL, Ctx.MAX_ALIGN.
    destruct (Z.eqb_spec (x mod 32) 0) as [E|E]; [contradiction|].
    rewrite (size_t_small (x := 32 - x mod 32)) by euclid.
    unfold Ctx.size_t. euclid.
Qed.

Lemma ALIGN_CEIL_rounds_up_witness :
  Ctx.ALIGN_CEIL 100 mod Ctx.MAX_ALIGN = 0 /\ 100 <= Ctx.ALIGN_CEIL 100 < 100 + Ctx.MAX_ALIGN.
Proof.
  pose proof (proj1 (@ALIGN_CEIL_rounds_up 100 ltac:(vm_compute; split; discriminate))
                    ltac:(vm_compute; discriminate)) as (A & B & _).
  exact (conj A B).
Defined.

(** ** The buffers of compute_adm2 *)

Lemma size_t_range x : 0 <= Ctx.size_t x < 2 ^ 64.
Proof. unfold Ctx.size_t. apply Z.mod_pos_bound. lia. Qed.

(** Property X2.  [compute_adm2] cuts [data_buf] into 35 planes of [buf_sz]
    bytes, one after the other: no two overlap, none leaves the [35 *
    buf_sz] bytes that [config_input_ref] allocates. *)
Theorem compute_adm2_buffers_layout data_buf w h :
  let b := Ctx.compute_adm2_buffers data_buf w h in
  Ctx.carved b = map (fun k => data_buf + k * Ctx.buf_sz b) (zrange 0 35) /\
  Ctx.data_top b = data_buf + 35 * Ctx.buf_sz b /\
  (forall p q, In p (Ctx.carved b) -> In q (Ctx.carved b) ->
     p = q \/ p + Ctx.buf_sz b <= q \/ q + Ctx.buf_sz b <= p) /\
  (forall p, In p (Ctx.carved b) ->
     data_buf <= p /\ p + Ctx.buf_sz b <= Ctx.data_top b).
Proof.
  cbv zeta.
  assert (E : Ctx.carved (Ctx.compute_adm2_buffers data_buf w h)
              = map (fun k => data_buf + k * Ctx.buf_sz (Ctx.compute_adm2_buffers data_buf w h))
                    (zrange 0 35)).
  { unfold Ctx.compute_adm2_buffers, Ctx.init_dwt_band, Ctx.carved, Ctx.planes_of.
    cbn [Ctx.buf_sz Ctx.ref_scale Ctx.main_scale Ctx.ref_dwt2 Ctx.main_dwt2
         Ctx.decouple_r Ctx.decouple_a Ctx.csf_o Ctx.csf_r Ctx.csf_a Ctx.mta
         Ctx.cm_r Ctx.ptr_a Ctx.ptr_h Ctx.ptr_v Ctx.ptr_d app].
    set (sz := Ctx.size_t _).
    let l := eval vm_compute in (zrange 0 35) in change (zrange 0 35) with l.
    cbn [map]. repeat (f_equal; try lia). }
  assert (T : Ctx.data_top (Ctx.compute_adm2_buffers data_buf w h)
              = data_buf + 35 * Ctx.buf_sz (Ctx.compute_adm2_buffers data_buf w h)).
  { unfold Ctx.compute_adm2_buffers, Ctx.init_dwt_band.
    cbn [Ctx.buf_sz Ctx.data_top]. set (sz := Ctx.size_t _). lia. }
  assert (S : 0 <= Ctx.buf_sz (Ctx.compute_adm2_buffers data_buf w h)).
  { unfold Ctx.compute_adm2_buffers. cbn [Ctx.buf_sz]. apply size_t_range. }
  split; [exact E|]. split; [exact T|].
  rewrite E, T. set (sz := Ctx.buf_sz _) in *. split.
  - intros p q Hp Hq.
    apply in_map_iff in Hp. destruct Hp as (m & <- & Hm).
    apply in_map_iff in Hq. destruct Hq as (n & <- & Hn).
    apply In_zrange in Hm, Hn.
    destruct (Z.lt_trichotomy m n) as [Hlt|[->|Hgt]];
      [right; left; nia|left; reflexivity|right; right; nia].
  - intros p Hp. apply in_map_iff in Hp. destruct Hp as (m & <- & Hm).
    apply In_zrange in Hm. nia.
Qed.

(** ** Indices *)

Lemma size_at_S n w : size_at (S n) w = (size_at n w + 1) ÷ 2.
Proof. reflexivity. Qed.

Lemma size_at_bounds n w :
  1 <= w -> 1 <= size_at n w <= w /\ size_at (S n) w <= (w + 1) ÷ 2.
Proof.
  intros Hw. induction n as [|n IH].
  - change (size_at 0 w) with w. rewrite size_at_S. change (size_at 0 w) with w. lia.
  - destruct IH as (IH1 & IH2). rewrite (size_at_S (S n)). rewrite (size_at_S n) in *.
    split; euclid.
Qed.

Lemma stride_facts cols :
  0 <= cols < 2 ^ 31 ->
  let stride := Ctx.ALIGN_CEIL (Ctx.size_t (cols * Ctx.sizeof_float)) in
  4 * cols <= stride < 4 * cols + 32 /\
  Ctx.sizeof_float * Ctx.px_stride stride = stride /\
  cols <= Ctx.px_stride stride /\
  stride mod 32 = 0.
Proof.
  intros Hc. cbv zeta. unfold Ctx.px_stride, Ctx.sizeof_float.
  rewrite size_t_small by lia.
  rewrite ALIGN_CEIL_eq by (unfold Ctx.SIZE_MAX; lia).
  set (q := (cols * 4 + 31) / 32).
  assert (Hq : 32 * q <= cols * 4 + 31 < 32 * q + 32) by (subst q; euclid).
  clearbody q.
  replace (32 * q / 4) with (8 * q) by (apply Z.div_unique with (r := 0); lia).
  replace ((32 * q) mod 32) with 0 by (apply Z.mod_unique with (q := q); lia).
  lia.
Qed.

Lemma index_facts cols rows stride i j i' j' :
  4 * cols <= stride -> 4 * Ctx.px_stride stride = stride ->
  0 <= i < rows -> 0 <= j < cols -> 0 <= i' < rows -> 0 <= j' < cols ->
  0 <= Ctx.px_index stride i j /\
  4 * (Ctx.px_index stride i j + 1) <= stride * rows /\
  (Ctx.px_index stride i j = Ctx.px_index stride i' j' -> i = i' /\ j = j').
Proof.
  intros Hs Hp Hi Hj Hi' Hj'. unfold Ctx.px_index.
  set (p := Ctx.px_stride stride) in *.
  assert (Hcp : cols <= p) by lia.
  split; [nia|]. split; [nia|].
  intros E. assert (i = i') by nia. subst i'. split; [reflexivity|lia].
Qed.

(** Property X3.  At every scale, the index [i * px_stride + j] of a
    coefficient of a band is inside the plane of [buf_sz] bytes, and two
    coefficients never share an index: the row stride computed once for the
    first scale also holds the narrower rows of the coarser scales. *)
Theorem compute_adm2_indices_fit data_buf w h k i j i' j' :
  1 <= w < 2 ^ 31 - 1 -> 1 <= h < 2 ^ 31 - 1 ->
  let b := Ctx.compute_adm2_buffers data_buf w h in
  0 <= i < size_at (S k) h -> 0 <= j < size_at (S k) w ->
  0 <= i' < size_at (S k) h -> 0 <= j' < size_at (S k) w ->
  0 <= Ctx.px_index (Ctx.buf_stride b) i j /\
  Ctx.sizeof_float * (Ctx.px_index (Ctx.buf_stride b) i j + 1) <= Ctx.buf_sz b /\
  (Ctx.px_index (Ctx.buf_stride b) i j = Ctx.px_index (Ctx.buf_stride b) i' j' ->
   i = i' /\ j = j').
Proof.
  intros Hw Hh b Hi Hj Hi' Hj'.
  pose proof (@size_at_bounds k w ltac:(lia)) as (_ & Bw).
  pose proof (@size_at_bounds k h ltac:(lia)) as (_ & Bh).
  assert (Cw : 0 <= (w + 1) ÷ 2 < 2 ^ 31) by euclid.
  assert (Ch : 0 <= (h + 1) ÷ 2 < 2 ^ 31) by euclid.
  pose proof (stride_facts Cw) as (S1 & S2 & S3 & _). cbv zeta in S1, S2, S3.
  subst b. unfold Ctx.compute_adm2_buffers, Ctx.init_dwt_band.
  cbn [Ctx.buf_stride Ctx.buf_sz].
  set (stride := Ctx.ALIGN_CEIL _) in *.
  assert (Cw' : (w + 1) ÷ 2 < 2 ^ 30) by euclid.
  assert (Ch' : (h + 1) ÷ 2 < 2 ^ 30) by euclid.
  set (c := (w + 1) ÷ 2) in *. set (r := (h + 1) ÷ 2) in *.
  clearbody stride c r.
  assert (Hp : 0 <= stride * r < 2 ^ 64).
  { split; [nia|]. apply Z.le_lt_trans with (2 ^ 33 * 2 ^ 30); [|reflexivity].
    apply Z.mul_le_mono_nonneg; lia. }
  rewrite size_t_small by exact Hp.
  unfold Ctx.sizeof_float in *.
  apply index_facts with (cols := c); lia.
Qed.

Lemma compute_adm2_indices_fit_witness :
  Ctx.sizeof_float * (Ctx.px_index (Ctx.buf_stride (Ctx.compute_adm2_buffers 0 16 16)) 3 3 + 1)
  <= Ctx.buf_sz (Ctx.compute_adm2_buffers 0 16 16).
Proof.
  exact (proj1 (proj2 (@compute_adm2_indices_fit 0 16 16 1 3 3 0 0
           ltac:(lia) ltac:(lia) ltac:(vm_compute; split; congruence)
           ltac:(vm_compute; split; congruence) ltac:(vm_compute; split; congruence)
           ltac:(vm_compute; split; congruence)))).
Defined.

(** ** The reflection of indices *)

(** Property X4.  Every sample the 3x3 window of [adm_cm_thresh] reads is
    inside the plane, whatever its size. *)
Theorem adm_cm_thresh_reads_in_range dim i t :
  0 <= i < dim -> 0 <= t < 3 -> 0 <= mirror (i - 1 + t) dim < dim.
Proof.
  intros Hi Ht. unfold mirror, FFABS.
  destruct (Z.geb_spec (i - 1 + t) 0);
    match goal with |- context [?a >=? ?b] => destruct (Z.geb_spec a b) end; lia.
Qed.

Lemma adm_cm_thresh_reads_in_range_witness : 0 <= mirror (0 - 1 + 0) 1 < 1.
Proof. apply adm_cm_thresh_reads_in_range; lia. Defined.

Lemma mirror_dwt_in_range dim n t :
  2 <= dim -> 0 <= n < (dim + 1) ÷ 2 -> 0 <= t < 4 ->
  0 <= mirror (2 * n - 1 + t) dim < dim.
Proof.
  intros H2 Hn Ht. unfold mirror, FFABS.
  assert (Hn' : 2 * n <= dim - 1) by euclid.
  destruct (Z.geb_spec (2 * n - 1 + t) 0);
    match goal with |- context [?a >=? ?b] => destruct (Z.geb_spec a b) end; lia.
Qed.

(** Property X5.  With the four taps of the wavelet filter, every sample
    [adm_dwt2] reads along a dimension is inside the plane exactly when the
    dimension is at least 2; along a dimension of 1 the last tap of the only
    output reads index -1. *)
Theorem adm_dwt2_reads_in_range H dim :
  filt_w H = 4 -> 1 <= dim ->
  ((forall n t, 0 <= n < (dim + 1) ÷ 2 -> 0 <= t < filt_w H ->
      0 <= mirror (2 * n - 1 + t) dim < dim)
   <-> 2 <= dim) /\
  (dim = 1 -> 0 <= 0 < (dim + 1) ÷ 2 /\ mirror (2 * 0 - 1 + 3) dim = -1).
Proof.
  intros Hf Hd. rewrite Hf. split; [split|].
  - intros Hall. destruct (Z_lt_dec dim 2) as [Hlt|]; [|lia].
    assert (dim = 1) by lia. subst dim.
    specialize (Hall 0 3 ltac:(vm_compute; split; congruence) ltac:(lia)).
    vm_compute in Hall. destruct Hall as [Hall _]. exfalso. apply Hall. reflexivity.
  - intros H2 n t Hn Ht. apply mirror_dwt_in_range; assumption.
  - intros ->. vm_compute. repeat split; congruence.
Qed.

Lemma adm_dwt2_reads_in_range_witness :
  filt_w Ref.H = 4 /\ 0 <= mirror (2 * 7 - 1 + 3) 16 < 16.
Proof.
  split; [reflexivity|].
  exact (proj2 (proj1 (@adm_dwt2_reads_in_range Ref.H 16 eq_refl ltac:(lia))) ltac:(lia)
               7 3 ltac:(vm_compute; split; congruence) ltac:(vm_compute; split; congruence)).
Defined.

(** Property X6.  The reflection is not the same at the two ends: below 0
    the sample 0 is the axis and is not repeated, above [dim - 1] the last
    sample is repeated. *)
Theorem mirror_edges dim k :
  0 < k < dim -> mirror (- k) dim = k /\ mirror (dim - 1 + k) dim = dim - k.
Proof.
  intros Hk. unfold mirror, FFABS.
  destruct (Z.geb_spec (- k) 0); [lia|].
  destruct (Z.geb_spec (dim - 1 + k) 0); [|lia].
  destruct (Z.geb_spec (- - k) dim); [lia|].
  destruct (Z.geb_spec (dim - 1 + k) dim); lia.
Qed.

Lemma mirror_edges_witness : mirror (- 1) 8 = 1 /\ mirror (8 - 1 + 1) 8 = 8 - 1.
Proof. exact (@mirror_edges 8 1 ltac:(lia)). Defined.

(** ** What the transform reads of a frame *)

Lemma dwt_sum_ext H filter img img' n dim :
  filt_w H = 4 -> 2 <= dim -> 0 <= n < (dim + 1) ÷ 2 ->
  (forall k, 0 <= k < dim -> img k = img' k) ->
  dwt_sum H filter img n dim = dwt_sum H filter img' n dim.
Proof.
  intros Hf Hd Hn Himg. unfold dwt_sum.
  apply fold_left_ext_in. intros a t Hin.
  apply In_zrange in Hin. rewrite Hf in Hin.
  rewrite Himg; [reflexivity|]. apply mirror_dwt_in_range; assumption.
Qed.

Lemma adm_dwt2_ext H src src' w h :
  filt_w H = 4 -> 2 <= w -> 2 <= h ->
  (forall i j, 0 <= i < h -> 0 <= j < w -> px src i j = px src' i j) ->
  adm_dwt2 H src w h = adm_dwt2 H src' w h.
Proof.
  intros Hf Hw Hh Hpx.
  assert (Ht : forall filter i, 0 <= i < (h + 1) ÷ 2 ->
            dwt_temp H filter src w h i = dwt_temp H filter src' w h i).
  { intros filter i Hi. unfold dwt_temp. apply map_ext_in. intros j Hj.
    apply In_zrange in Hj. apply dwt_sum_ext; try assumption.
    intros k Hk. apply Hpx; lia. }
  rewrite !Props.adm_dwt2_build.
  f_equal; apply build_ext; intros i j Hi Hj; rewrite Ht by assumption; reflexivity.
Qed.

Lemma padded_ramp_agrees i j :
  0 <= i < 16 -> 0 <= j < 16 ->
  px (Ref.plane_of Ref.ramp) i j = px RefMore.padded_ramp i j.
Proof.
  intros Hi Hj. unfold RefMore.padded_ramp, px.
  rewrite (zth_map _ _ [])
    by (split; [lia|apply Z.lt_le_trans with 16; [lia|vm_compute; discriminate]]).
  assert (Hs : has_shape (Ref.plane_of Ref.ramp) 16 16) by (apply build_shape; lia).
  destruct Hs as (Hl & Hrows). rewrite Forall_forall in Hrows.
  assert (Hin : In (zth [] (Ref.plane_of Ref.ramp) i) (Ref.plane_of Ref.ramp)).
  { rewrite zth_in by lia. apply nth_In. rewrite Hl. lia. }
  apply Hrows in Hin.
  rewrite !(zth_in F32.zero) by lia. unfold float in *.
  rewrite app_nth1 by (rewrite Hin; lia). reflexivity.
Qed.

(** ** The sizes of the four scales *)

Lemma scale_loop_sizes L H orig_h st k :
  cur_w (fold_left (scale_step L H orig_h) (zrange 0 (Z.of_nat k)) st)
  = size_at k (cur_w st) /\
  cur_h (fold_left (scale_step L H orig_h) (zrange 0 (Z.of_nat k)) st)
  = size_at k (cur_h st).
Proof.
  induction k as [|k IH]; [split; reflexivity|].
  rewrite Nat2Z.inj_succ, <- Z.add_1_r, Props.zrange_snoc by lia.
  rewrite fold_left_app. cbn [fold_left].
  destruct (Props.scale_step_acc L H orig_h
              (fold_left (scale_step L H orig_h) (zrange 0 (Z.of_nat k)) st)
              (Z.of_nat k)) as (bn & bd & _ & _ & _ & Ew & Eh).
  rewrite Ew, Eh. destruct IH as (-> & ->). split; reflexivity.
Qed.

(** Property X8.  The plane [adm_dwt2] transforms at scale [k] is [size_at k
    w] wide and [size_at k h] high; all four are at least 2x2, the size
    below which the transform reads outside its input, exactly when the
    frame is at least 9x9. *)
Theorem compute_adm2_min_size L H orig_h ref main w h :
  1 <= w -> 1 <= h ->
  let st k :=
    fold_left (scale_step L H orig_h) (zrange 0 (Z.of_nat k))
      {| curr_ref_scale := ref; curr_main_scale := main; cur_w := w; cur_h := h;
         num := F64.zero; den := F64.zero; scores := [] |} in
  (forall k, cur_w (st k) = size_at k w /\ cur_h (st k) = size_at k h) /\
  ((forall k, (k < 4)%nat -> 2 <= cur_w (st k) /\ 2 <= cur_h (st k))
   <-> 9 <= w /\ 9 <= h).
Proof.
  intros Hw Hh st.
  assert (Hs : forall k, cur_w (st k) = size_at k w /\ cur_h (st k) = size_at k h).
  { intros k. subst st. cbv beta. apply scale_loop_sizes. }
  split; [exact Hs|].
  assert (H3 : forall x, 1 <= x -> (2 <= size_at 3 x <-> 9 <= x)).
  { intros x Hx. change (size_at 3 x) with ((((x + 1) ÷ 2 + 1) ÷ 2 + 1) ÷ 2). euclid. }
  assert (Hmono : forall x k, 1 <= x -> (k < 4)%nat -> size_at 3 x <= size_at k x).
  { intros x k Hx Hk.
    change (size_at 3 x) with ((((x + 1) ÷ 2 + 1) ÷ 2 + 1) ÷ 2).
    destruct k as [|[|[|[|k]]]]; try lia.
    - change (size_at 0 x) with x. euclid.
    - change (size_at 1 x) with ((x + 1) ÷ 2). euclid.
    - change (size_at 2 x) with (((x + 1) ÷ 2 + 1) ÷ 2). euclid.
    - change (size_at 3 x) with ((((x + 1) ÷ 2 + 1) ÷ 2 + 1) ÷ 2). lia. }
  split.
  - intros Hall. destruct (Hall 3%nat ltac:(lia)) as (A & B).
    destruct (Hs 3%nat) as (Ew & Eh). rewrite Ew in A. rewrite Eh in B.
    split; [apply H3|apply H3]; assumption.
  - intros (A & B) k Hk. destruct (Hs k) as (-> & ->).
    apply H3 in A, B; try assumption.
    pose proof (Hmono w k Hw Hk). pose proof (Hmono h k Hh Hk). lia.
Qed.

Lemma compute_adm2_min_size_witness :
  cur_w (fold_left (scale_step Ref.L Ref.H 16) (zrange 0 (Z.of_nat 2))
           {| curr_ref_scale := Ref.plane_of Ref.ramp;
              curr_main_scale := Ref.plane_of Ref.checker; cur_w := 16; cur_h := 16;
              num := F64.zero; den := F64.zero; scores := [] |})
  = size_at 2 16.
Proof.
  exact (proj1 (proj1 (@compute_adm2_min_size Ref.L Ref.H 16 (Ref.plane_of Ref.ramp)
                         (Ref.plane_of Ref.checker) 16 16 ltac:(lia) ltac:(lia)) 2%nat)).
Defined.

(** ** config_input_ref *)

(** Property X9.  Inputs of different sizes or pixel formats are refused
    with [EINVAL] before anything is allocated or written to the context. *)
Theorem config_input_ref_mismatch get inlink i0 i1 s answers :
  Ctx.w i0 <> Ctx.w i1 \/ Ctx.h i0 <> Ctx.h i1 \/ Ctx.format i0 <> Ctx.format i1 ->
  Ctx.config_input_ref get inlink i0 i1 s answers
  = Some (Ctx.AVERROR Ctx.EINVAL, s, answers).
Proof.
  intros Hm. unfold Ctx.config_input_ref.
  destruct (Z.eqb_spec (Ctx.w i0) (Ctx.w i1)) as [Ew|Ew]; [|reflexivity].
  destruct (Z.eqb_spec (Ctx.h i0) (Ctx.h i1)) as [Eh|Eh]; [|reflexivity].
  destruct (Z.eqb_spec (Ctx.format i0) (Ctx.format i1)) as [Ef|Ef]; [|reflexivity].
  exfalso. destruct Hm as [Hm|[Hm|Hm]]; contradiction.
Qed.

Lemma config_input_ref_mismatch_witness :
  Ctx.config_input_ref (fun _ => {| Ctx.comp0_depth := 8 |})
    {| Ctx.w := 16; Ctx.h := 16; Ctx.format := 0 |}
    {| Ctx.w := 16; Ctx.h := 16; Ctx.format := 0 |}
    {| Ctx.w := 16; Ctx.h := 8; Ctx.format := 0 |}
    Ctx.zeroed [true; true]
  = Some (Ctx.AVERROR Ctx.EINVAL, Ctx.zeroed, [true; true]).
Proof.
  apply config_input_ref_mismatch. right. left. cbn. discriminate.
Defined.

Lemma sizes_facts w h :
  1 <= w < 2 ^ 31 - 1 -> 1 <= h < 2 ^ 31 - 1 ->
  let stride := Ctx.ALIGN_CEIL (Ctx.size_t (w * Ctx.sizeof_float)) in
  let buf_stride := Ctx.ALIGN_CEIL (Ctx.size_t (((w + 1) ÷ 2) * Ctx.sizeof_float)) in
  Ctx.sizeof_float * w <= stride /\
  Ctx.size_t (stride * h) = stride * h /\
  0 < Ctx.size_t (buf_stride * ((h + 1) ÷ 2)).
Proof.
  intros Hw Hh. cbv zeta.
  pose proof (@stride_facts w ltac:(lia)) as (S1 & _ & _ & S4). cbv zeta in S1, S4.
  assert (Cw : 1 <= (w + 1) ÷ 2 < 2 ^ 30) by euclid.
  assert (Ch : 1 <= (h + 1) ÷ 2 < 2 ^ 30) by euclid.
  pose proof (@stride_facts ((w + 1) ÷ 2) ltac:(lia)) as (B1 & _). cbv zeta in B1.
  set (stride := Ctx.ALIGN_CEIL (Ctx.size_t (w * _))) in *.
  set (bs := Ctx.ALIGN_CEIL (Ctx.size_t ((w + 1) ÷ 2 * _))) in *.
  set (c := (w + 1) ÷ 2) in *. set (r := (h + 1) ÷ 2) in *.
  clearbody stride bs c r. unfold Ctx.sizeof_float.
  assert (S5 : stride <= 2 ^ 33) by euclid.
  split; [lia|]. split.
  - apply size_t_small. split; [nia|].
    apply Z.le_lt_trans with (2 ^ 33 * (2 ^ 31 - 1)); [|reflexivity].
    apply Z.mul_le_mono_nonneg; lia.
  - rewrite size_t_small; [nia|]. split; [nia|].
    apply Z.le_lt_trans with (2 ^ 33 * 2 ^ 30); [|reflexivity].
    apply Z.mul_le_mono_nonneg; lia.
Qed.

(** Property X10.  When [config_input_ref] returns 0 the inputs agree, the
    five allocations succeeded, the two frame planes hold [height] rows of
    [stride] bytes with room for [width] floats each, the two row buffers
    hold [width] floats, and [data_buf] is exactly the [35 * buf_sz] bytes
    [compute_adm2] carves: the product did not wrap. The running sums are
    not touched. *)
Theorem config_input_ref_ok get inlink i0 i1 s answers s' answers' :
  1 <= Ctx.w i0 < 2 ^ 31 - 1 -> 1 <= Ctx.h i0 < 2 ^ 31 - 1 ->
  Ctx.config_input_ref get inlink i0 i1 s answers = Some (Ctx.OK, s', answers') ->
  let stride := Ctx.ALIGN_CEIL (Ctx.size_t (Ctx.w i0 * Ctx.sizeof_float)) in
  let b := Ctx.compute_adm2_buffers 0 (Ctx.w i0) (Ctx.h i0) in
  (Ctx.w i0 = Ctx.w i1 /\ Ctx.h i0 = Ctx.h i1 /\ Ctx.format i0 = Ctx.format i1) /\
  answers = true :: true :: true :: true :: true :: answers' /\
  Ctx.width s' = Ctx.w i0 /\ Ctx.height s' = Ctx.h i0 /\
  Ctx.desc s' = Some (get (Ctx.format inlink)) /\
  Ctx.ref_data s' = Some (stride * Ctx.h i0) /\
  Ctx.main_data s' = Some (stride * Ctx.h i0) /\
  Ctx.data_buf s' = Some (Ctx.data_top b) /\
  Ctx.data_top b = 35 * Ctx.buf_sz b /\ 35 * Ctx.buf_sz b <= Ctx.SIZE_MAX /\
  Ctx.temp_lo s' = Some stride /\ Ctx.temp_hi s' = Some stride /\
  Ctx.sizeof_float * Ctx.w i0 <= stride /\
  Ctx.adm_sum s' = Ctx.adm_sum s /\ Ctx.nb_frames s' = Ctx.nb_frames s.
Proof.
  intros Hw Hh Hc stride b.
  pose proof (sizes_facts Hw Hh) as (F1 & F2 & F3). cbv zeta in F1, F2, F3.
  destruct (compute_adm2_buffers_layout 0 (Ctx.w i0) (Ctx.h i0)) as (_ & T & _).
  cbv zeta in T. fold b in T. rewrite Z.add_0_l in T.
  assert (Eb : Ctx.buf_sz b
               = Ctx.size_t (Ctx.ALIGN_CEIL (Ctx.size_t ((Ctx.w i0 + 1) ÷ 2 * Ctx.sizeof_float))
                             * ((Ctx.h i0 + 1) ÷ 2))) by reflexivity.
  rewrite T. rewrite Eb. fold stride in F1, F2. clearbody b.
  unfold Ctx.config_input_ref in Hc.
  destruct (Z.eqb_spec (Ctx.w i0) (Ctx.w i1)) as [Ew|Ew]; [|discriminate].
  destruct (Z.eqb_spec (Ctx.h i0) (Ctx.h i1)) as [Eh|Eh]; [|discriminate].
  destruct (Z.eqb_spec (Ctx.format i0) (Ctx.format i1)) as [Ef|Ef]; [|discriminate].
  cbn [negb orb Ctx.width Ctx.height Ctx.desc Ctx.ref_data Ctx.main_data Ctx.data_buf
       Ctx.temp_lo Ctx.temp_hi Ctx.adm_sum Ctx.nb_frames
       Ctx.set_link Ctx.set_ref_data Ctx.set_main_data Ctx.set_data_buf
       Ctx.set_temp_lo Ctx.set_temp_hi] in Hc.
  fold stride in Hc. rewrite F2 in Hc.
  set (bsz := Ctx.size_t (Ctx.ALIGN_CEIL _ * _)) in *. clearbody stride bsz.
  destruct answers as [|[|] answers]; cbn [Ctx.av_malloc] in Hc; try discriminate.
  destruct answers as [|[|] answers]; cbn [Ctx.av_malloc] in Hc; try discriminate.
  destruct (Z.eqb_spec bsz 0) as [E0|E0]; [discriminate|].
  destruct (Z.ltb_spec (Ctx.SIZE_MAX / bsz) 35) as [E35|E35]; [discriminate|].
  assert (H35 : 35 * bsz <= Ctx.SIZE_MAX).
  { clear Hc. unfold Ctx.SIZE_MAX in *. euclid. }
  destruct answers as [|[|] answers]; cbn [Ctx.av_malloc] in Hc; try discriminate.
  destruct answers as [|[|] answers]; cbn [Ctx.av_malloc] in Hc; try discriminate.
  destruct answers as [|[|] answers]; cbn [Ctx.av_malloc] in Hc; try discriminate.
  cbn [Ctx.width Ctx.height Ctx.desc Ctx.ref_data Ctx.main_data Ctx.data_buf
       Ctx.temp_lo Ctx.temp_hi Ctx.adm_sum Ctx.nb_frames
       Ctx.set_link Ctx.set_ref_data Ctx.set_main_data Ctx.set_data_buf
       Ctx.set_temp_lo Ctx.set_temp_hi] in Hc.
  injection Hc as <- <-.
  cbn [Ctx.width Ctx.height Ctx.desc Ctx.ref_data Ctx.main_data Ctx.data_buf
       Ctx.temp_lo Ctx.temp_hi Ctx.adm_sum Ctx.nb_frames
       Ctx.set_link Ctx.set_ref_data Ctx.set_main_data Ctx.set_data_buf
       Ctx.set_temp_lo Ctx.set_temp_hi].
  rewrite size_t_small by (unfold Ctx.SIZE_MAX in H35; lia).
  replace (bsz * 35) with (35 * bsz) by lia.
  repeat split; try reflexivity; try assumption.
Qed.

Lemma config_input_ref_ok_witness :
  Ctx.config_input_ref (fun _ => {| Ctx.comp0_depth := 8 |})
    {| Ctx.w := 16; Ctx.h := 16; Ctx.format := 0 |}
    {| Ctx.w := 16; Ctx.h := 16; Ctx.format := 0 |}
    {| Ctx.w := 16; Ctx.h := 16; Ctx.format := 0 |}
    Ctx.zeroed [true; true; true; true; true]
  = Some (Ctx.OK,
          {| Ctx.desc := Some {| Ctx.comp0_depth := 8 |};
             Ctx.width := 16; Ctx.height := 16;
             Ctx.ref_data := Some 1024; Ctx.main_data := Some 1024;
             Ctx.data_buf := Some 8960; Ctx.temp_lo := Some 64; Ctx.temp_hi := Some 64;
             Ctx.adm_sum := F64.zero; Ctx.nb_frames := 0 |}, []) /\
  Ctx.data_top (Ctx.compute_adm2_buffers 0 16 16) = 35 * Ctx.buf_sz (Ctx.compute_adm2_buffers 0 16 16).
Proof.
  assert (E : Ctx.config_input_ref (fun _ => {| Ctx.comp0_depth := 8 |})
    {| Ctx.w := 16; Ctx.h := 16; Ctx.format := 0 |}
    {| Ctx.w := 16; Ctx.h := 16; Ctx.format := 0 |}
    {| Ctx.w := 16; Ctx.h := 16; Ctx.format := 0 |}
    Ctx.zeroed [true; true; true; true; true]
  = Some (Ctx.OK,
          {| Ctx.desc := Some {| Ctx.comp0_depth := 8 |};
             Ctx.width := 16; Ctx.height := 16;
             Ctx.ref_data := Some 1024; Ctx.main_data := Some 1024;
             Ctx.data_buf := Some 8960; Ctx.temp_lo := Some 64; Ctx.temp_hi := Some 64;
             Ctx.adm_sum := F64.zero; Ctx.nb_frames := 0 |}, [])) by (vm_compute; reflexivity).
  split; [exact E|].
  pose proof (@config_input_ref_ok (fun _ => {| Ctx.comp0_depth := 8 |})
                {| Ctx.w := 16; Ctx.h := 16; Ctx.format := 0 |}
                {| Ctx.w := 16; Ctx.h := 16; Ctx.format := 0 |}
                {| Ctx.w := 16; Ctx.h := 16; Ctx.format := 0 |}
                Ctx.zeroed [true; true; true; true; true] _ _
                ltac:(vm_compute; split; congruence) ltac:(vm_compute; split; congruence) E) as R.
  cbv zeta in R. exact (proj1 (proj2 (proj2 (proj2 (proj2 (proj2 (proj2 (proj2 (proj2 R))))))))).
Defined.

(** Property X11.  For a frame of at least one sample [config_input_ref] is
    defined (it does not divide by zero), it consumes one answer of the
    allocator per call, and on every path, the four error paths included,
    the blocks it was given are all held by the context, where [uninit]
    frees them. *)
Theorem config_input_ref_keeps_blocks get inlink i0 i1 answers :
  1 <= Ctx.w i0 < 2 ^ 31 - 1 -> 1 <= Ctx.h i0 < 2 ^ 31 - 1 ->
  exists r s' used answers',
    Ctx.config_input_ref get inlink i0 i1 Ctx.zeroed answers = Some (r, s', answers') /\
    answers = used ++ answers' /\
    length (filter (fun p : option Z => match p with Some _ => true | None => false end)
                   (snd (Ctx.uninit s')))
    = count_occ Bool.bool_dec used true /\
    (r = Ctx.OK <-> used = [true; true; true; true; true]).
Proof.
  intros Hw Hh.
  pose proof (sizes_facts Hw Hh) as (_ & _ & F3). cbv zeta in F3.
  unfold Ctx.config_input_ref.
  destruct (negb (Ctx.w i0 =? Ctx.w i1) || negb (Ctx.h i0 =? Ctx.h i1)).
  { exists (Ctx.AVERROR Ctx.EINVAL), Ctx.zeroed, [], answers.
    repeat split; try reflexivity; discriminate. }
  destruct (negb (Ctx.format i0 =? Ctx.format i1)).
  { exists (Ctx.AVERROR Ctx.EINVAL), Ctx.zeroed, [], answers.
    repeat split; try reflexivity; discriminate. }
  cbn [Ctx.width Ctx.height Ctx.desc Ctx.ref_data Ctx.main_data Ctx.data_buf
       Ctx.temp_lo Ctx.temp_hi Ctx.adm_sum Ctx.nb_frames
       Ctx.set_link Ctx.set_ref_data Ctx.set_main_data Ctx.set_data_buf
       Ctx.set_temp_lo Ctx.set_temp_hi Ctx.zeroed].
  set (bsz := Ctx.size_t (Ctx.ALIGN_CEIL (Ctx.size_t ((Ctx.w i0 + 1) ÷ 2 * _)) * _)) in *.
  set (stride := Ctx.ALIGN_CEIL _). set (dsz := Ctx.size_t (stride * _)).
  clearbody bsz stride dsz.
  destruct (Z.eqb_spec bsz 0) as [E0|E0]; [lia|].
  destruct answers as [|[|] a1];
    [eexists _, _, [], _|
     | eexists _, _, [false], _]; cbn [Ctx.av_malloc];
    try (repeat split; try reflexivity; discriminate).
  destruct a1 as [|[|] a2];
    [eexists _, _, [true], _|
     | eexists _, _, [true; false], _]; cbn [Ctx.av_malloc];
    try (repeat split; try reflexivity; discriminate).
  destruct (Ctx.SIZE_MAX / bsz <? 35).
  { eexists _, _, [true; true], _. repeat split; try reflexivity; discriminate. }
  destruct a2 as [|[|] a3];
    [eexists _, _, [true; true], _|
     | eexists _, _, [true; true; false], _]; cbn [Ctx.av_malloc];
    try (repeat split; try reflexivity; discriminate).
  destruct a3 as [|[|] a4];
    [eexists _, _, [true; true; true], _|
     | eexists _, _, [true; true; true; false], _]; cbn [Ctx.av_malloc];
    try (repeat split; try reflexivity; discriminate).
  destruct a4 as [|[|] a5];
    [eexists _, _, [true; true; true; true], _|
     eexists _, _, [true; true; true; true; true], _
     | eexists _, _, [true; true; true; true; false], _]; cbn [Ctx.av_malloc];
    repeat split; try reflexivity; discriminate.
Qed.

Lemma config_input_ref_keeps_blocks_witness :
  exists r s' used answers',
    Ctx.config_input_ref (fun _ => {| Ctx.comp0_depth := 8 |})
      {| Ctx.w := 16; Ctx.h := 16; Ctx.format := 0 |}
      {| Ctx.w := 16; Ctx.h := 16; Ctx.format := 0 |}
      {| Ctx.w := 16; Ctx.h := 16; Ctx.format := 0 |}
      Ctx.zeroed [true; true; false; true] = Some (r, s', answers') /\
    [true; true; false; true] = used ++ answers' /\
    length (filter (fun p : option Z => match p with Some _ => true | None => false end)
                   (snd (Ctx.uninit s')))
    = count_occ Bool.bool_dec used true /\
    (r = Ctx.OK <-> used = [true; true; true; true; true]).
Proof.
  exact (@config_input_ref_keeps_blocks (fun _ => {| Ctx.comp0_depth := 8 |})
           {| Ctx.w := 16; Ctx.h := 16; Ctx.format := 0 |}
           {| Ctx.w := 16; Ctx.h := 16; Ctx.format := 0 |}
           {| Ctx.w := 16; Ctx.h := 16; Ctx.format := 0 |}
           [true; true; false; true]
           ltac:(vm_compute; split; congruence) ltac:(vm_compute; split; congruence)).
Defined.

End Memory.

(** * More facts on the arithmetic of a format *)

Module FloatMore.
Import Round RoundArith FloatDefs.

Lemma SFcompare_defined x y :
  x <> S754_nan -> y <> S754_nan -> SFcompare x y <> None.
Proof.
  destruct x as [?|?| |? ? ?]; destruct y as [?|?| |? ? ?];
    intros Hx Hy; try congruence; cbn [SFcompare]; discriminate.
Qed.

(** [!(x < y)] between two numbers is [y <= x]. *)
Lemma SFltb_false_leb x y :
  x <> S754_nan -> y <> S754_nan -> SFltb x y = false -> SFleb y x = true.
Proof.
  intros Hx Hy. pose proof (SFcompare_defined Hx Hy) as Hd.
  unfold SFltb, SFleb. rewrite (FloatTheory.SFcompare_antisym x y).
  destruct (SFcompare x y) as [[| |]|]; cbn; congruence.
Qed.

Section Format.
Variables prec emax : Z.
Hypothesis Hprec : 0 < prec.
Hypothesis Hemax : prec < emax.

(** A rounded result has the sign it was given, unless it is a NaN. *)
Lemma binary_round_aux_nonneg_or_nan m e l :
  nonneg_or_nan (binary_round_aux prec emax false m e l) = true.
Proof using Type.
  unfold binary_round_aux.
  destruct (shr_fexp prec emax m e l) as [mrs' e'].
  destruct (shr_fexp prec emax _ e' loc_Exact) as [mrs'' e''].
  destruct (shr_m mrs''); [reflexivity| |reflexivity].
  destruct (e'' <=? emax - prec); reflexivity.
Qed.

Lemma SFmul_nonneg_or_nan x y :
  nonneg_or_nan x = true -> nonneg_or_nan y = true ->
  nonneg_or_nan (SFmul prec emax x y) = true.
Proof using Type.
  destruct x as [[|]|[|]| |[|] mx ex]; try discriminate;
    destruct y as [[|]|[|]| |[|] my ey]; try discriminate; try reflexivity.
  intros _ _. apply binary_round_aux_nonneg_or_nan.
Qed.

Lemma SFabs_nonneg_or_nan x : nonneg_or_nan (SFabs x) = true.
Proof using Type. destruct x as [?|?| |? ? ?]; reflexivity. Qed.

Lemma SFdiv_nonneg_or_nan x y :
  nonneg_or_nan x = true -> nonneg_or_nan y = true ->
  nonneg_or_nan (SFdiv prec emax x y) = true.
Proof using Type.
  destruct x as [[|]|[|]| |[|] mx ex]; try discriminate;
    destruct y as [[|]|[|]| |[|] my ey]; try discriminate; try reflexivity.
  intros _ _. cbn [SFdiv xorb].
  destruct (SFdiv_core_binary prec emax (Zpos mx) ex (Zpos my) ey) as [[mz ez] lz].
  apply binary_round_aux_nonneg_or_nan.
Qed.

(** The absolute value of a rounded number is the rounding of the
    absolute value. *)
Lemma SFabs_binary_round s m e :
  SFabs (binary_round prec emax s m e) = binary_round prec emax false m e.
Proof using Type.
  unfold binary_round. destruct (shl_align m e _) as [mz ez].
  unfold binary_round_aux.
  destruct (shr_fexp prec emax (Zpos mz) ez loc_Exact) as [mrs' e'].
  destruct (shr_fexp prec emax _ e' loc_Exact) as [mrs'' e''].
  destruct (shr_m mrs''); [reflexivity| |reflexivity].
  destruct (e'' <=? emax - prec); reflexivity.
Qed.

(** A negative number rounds to a negative number or to [-0]. *)
Lemma binary_round_negative m e :
  is_zero (binary_round prec emax true m e) = true \/
  SFltb (binary_round prec emax true m e) (S754_zero false) = true.
Proof using Hprec Hemax.
  set (E0 := Z.min e (SpecFloat.fexp prec emax (Zdigits2 (Zpos m) + e))).
  rewrite (@FloatTheory.binary_round_spec prec emax Hprec Hemax true m e E0)
    by (subst E0; lia).
  unfold FloatDefs.pack. destruct (_ =? 0); [left; reflexivity|].
  destruct (_ <=? _); right; reflexivity.
Qed.

(** The product by a factor in [0, 1] is not larger in magnitude. *)
Lemma SFmul_le_one k o :
  valid_binary prec emax k = true -> valid_binary prec emax o = true ->
  is_finite o = true ->
  SFleb (S754_zero false) k = true -> SFleb k (SFone prec emax) = true ->
  SFleb (SFabs (SFmul prec emax k o)) (SFabs o) = true.
Proof using Hprec Hemax.
  intros Vk Vo Fo H0 H1.
  destruct k as [sk|[|]| |[|] mk ek]; try discriminate.
  - destruct o as [so| | |so mo eo]; try discriminate; reflexivity.
  - exfalso. rewrite (@FloatTheory.SFone_eq prec emax Hprec Hemax) in H1. discriminate.
  - destruct (@FloatTheory.le_one_value prec emax Hprec Hemax mk ek Vk H1) as (Hek & Hmk).
    destruct o as [so| | |so mo eo]; try discriminate; [reflexivity|].
    assert (Vo' : valid_binary prec emax (S754_finite false mo eo) = true) by exact Vo.
    rewrite (@FloatTheory.SFmul_finite prec emax Hprec Hemax) by assumption.
    rewrite SFabs_binary_round. cbn [SFabs].
    rewrite <- (@FloatTheory.binary_round_canonical prec emax Hprec Hemax
                  false mo eo (- ek) Vo') at 1 by lia.
    pose proof (pow2_pos (k := - ek) ltac:(lia)).
    apply (@FloatTheory.binary_round_mono prec emax Hprec Hemax) with (E0 := ek + eo);
      try lia.
    unfold scaled. rewrite Z2Pos.id by nia.
    replace (ek + eo - (ek + eo)) with 0 by lia.
    replace (eo - - ek - (ek + eo)) with 0 by lia.
    rewrite !Z.mul_1_r, Pos2Z.inj_mul. nia.
Qed.

(** A number minus a number that is not smaller is negative or zero. *)
Lemma SFsub_not_positive x y :
  valid_binary prec emax x = true -> valid_binary prec emax y = true ->
  is_finite x = true -> nonneg x = true -> SFleb x y = true ->
  is_zero (SFsub prec emax x y) = true \/
  SFltb (SFsub prec emax x y) (S754_zero false) = true.
Proof using Hprec Hemax.
  intros Vx Vy Fx Nx Hle.
  destruct x as [[|]| | |[|] mx ex]; try discriminate;
    destruct y as [[|]|[|]| |[|] my ey]; try discriminate;
    try (left; reflexivity); try (right; reflexivity).
  cbn [SFsub cond_Zopp].
  rewrite !(@FloatTheory.shl_align_value prec emax Hprec Hemax) by lia.
  set (ez := Z.min ex ey).
  apply (@FloatTheory.SFleb_value prec emax Hprec Hemax mx ex my ey ez Vx Vy
           ltac:(subst ez; lia) ltac:(subst ez; lia)) in Hle.
  unfold scaled in Hle.
  set (z := _ - _). assert (Hz : z <= 0) by (subst z; lia).
  destruct z as [|p|p]; try lia; cbn [binary_normalize].
  - left. reflexivity.
  - apply binary_round_negative.
Qed.

(** Taking a non-negative number away from a non-negative number does not
    give more. *)
Lemma SFsub_le x y :
  valid_binary prec emax x = true -> valid_binary prec emax y = true ->
  nonneg x = true -> nonneg y = true ->
  SFsub prec emax x y = S754_nan \/ SFleb (SFsub prec emax x y) x = true.
Proof using Hprec Hemax.
  intros Vx Vy Nx Ny.
  destruct x as [[|]|[|]| |[|] mx ex]; try discriminate;
    destruct y as [[|]|[|]| |[|] my ey]; try discriminate;
    try (left; reflexivity); try (right; reflexivity).
  - right. cbn [SFsub]. apply FloatTheory.SFleb_refl_nonneg. reflexivity.
  - right. cbn [SFsub cond_Zopp].
    rewrite !(@FloatTheory.shl_align_value prec emax Hprec Hemax) by lia.
    set (ez := Z.min ex ey).
    pose proof (pow2_pos (k := ex - ez) ltac:(subst ez; lia)) as Px.
    pose proof (pow2_pos (k := ey - ez) ltac:(subst ez; lia)) as Py.
    set (z := _ - _). assert (Hz : z < Zpos mx * 2 ^ (ex - ez)) by (subst z; nia).
    destruct z as [|p|p] eqn:Ez; cbn [binary_normalize].
    + reflexivity.
    + rewrite <- (@FloatTheory.binary_round_canonical prec emax Hprec Hemax
                    false mx ex (ex - ez) Vx) at 1 by (subst ez; lia).
      apply (@FloatTheory.binary_round_mono prec emax Hprec Hemax) with (E0 := ez);
        try (subst ez; lia).
      unfold scaled. replace (ex - (ex - ez) - ez) with 0 by lia.
      rewrite Z2Pos.id by nia. rewrite Z.sub_diag, !Z.mul_1_r. lia.
    + destruct (binary_round_negative p ez) as [Hr|Hr];
        destruct (binary_round prec emax true p ez) as [[|]|[|]| |[|] mr er];
        try discriminate; reflexivity.
Qed.

(** The rounding of a number depends on its value only, not on the
    mantissa and exponent it is written with. *)
Lemma binary_round_same_value s m1 E1 m2 E2 E0 :
  E0 <= E1 -> E0 <= E2 ->
  E0 <= SpecFloat.fexp prec emax (Zdigits2 (Zpos m1) + E1) ->
  scaled (Zpos m1) E1 E0 = scaled (Zpos m2) E2 E0 ->
  binary_round prec emax s m1 E1 = binary_round prec emax s m2 E2.
Proof using Hprec Hemax.
  intros H1 H2 H3 Heq.
  assert (D : Zdigits2 (Zpos m1) + E1 = Zdigits2 (Zpos m2) + E2).
  { unfold scaled in Heq.
    pose proof (@FloatTheory.Zdigits2_shift (Zpos m1) (E1 - E0) ltac:(lia) ltac:(lia)) as A.
    pose proof (@FloatTheory.Zdigits2_shift (Zpos m2) (E2 - E0) ltac:(lia) ltac:(lia)) as B.
    rewrite Heq in A. lia. }
  rewrite (@FloatTheory.binary_round_spec prec emax Hprec Hemax s m1 E1 E0) by lia.
  rewrite (@FloatTheory.binary_round_spec prec emax Hprec Hemax s m2 E2 E0)
    by (rewrite <- ?D; lia).
  rewrite D, Heq. reflexivity.
Qed.

(** An integer below [2^prec] converts exactly. *)
Lemma of_Z_finite (k : positive) :
  Zpos k < 2 ^ prec ->
  binary_round prec emax false k 0
  = S754_finite false (Z.to_pos (Zpos k * 2 ^ (prec - Zdigits2 (Zpos k))))
                (Zdigits2 (Zpos k) - prec).
Proof using Hprec Hemax.
  intros Hk.
  destruct (@FloatTheory.Zdigits2_bounds (Zpos k) ltac:(lia)) as (Hd & Hlo & Hhi).
  set (d := Zdigits2 (Zpos k)) in *.
  assert (Hdp : d <= prec).
  { destruct (Z_le_gt_dec d prec) as [|Hgt]; [assumption|].
    pose proof (pow2_le (a := prec) (b := d - 1) ltac:(lia)). lia. }
  assert (He : SpecFloat.fexp prec emax (d + 0) = d - prec)
    by (unfold SpecFloat.fexp, SpecFloat.emin; lia).
  rewrite (@FloatTheory.binary_round_spec prec emax Hprec Hemax false k 0 (d - prec))
    by (fold d; rewrite ?He; lia).
  fold d. rewrite He. unfold scaled. rewrite Z.sub_diag, rne_0.
  replace (0 - (d - prec)) with (prec - d) by lia.
  pose proof (pow2_pos (k := prec - d) ltac:(lia)) as Hpp.
  assert (Hq : Zpos k * 2 ^ (prec - d) < 2 ^ prec).
  { rewrite (pow2_split (a := prec - d) (b := prec)) by lia.
    replace (prec - (prec - d)) with d by lia. nia. }
  unfold FloatDefs.pack, FloatDefs.norm.
  destruct (Z.eqb_spec (Zpos k * 2 ^ (prec - d)) 0); [nia|].
  destruct (Z.ltb_spec (Zpos k * 2 ^ (prec - d)) (2 ^ prec)); [|lia]. cbn [fst snd].
  destruct (Z.leb_spec (d - prec) (emax - prec)); [reflexivity|lia].
Qed.

(** Adding one to an integer is exact while the sum is below [2^prec]. *)
Lemma add_one_exact k :
  0 <= k -> k + 1 < 2 ^ prec ->
  SFadd prec emax (binary_normalize prec emax k 0 false) (SFone prec emax)
  = binary_normalize prec emax (k + 1) 0 false.
Proof using Hprec Hemax.
  intros Hk0 Hk1.
  assert (H1 : binary_round prec emax false 1 0 = SFone prec emax) by reflexivity.
  destruct k as [|k|k]; [| |lia].
  - cbn [binary_normalize Z.add]. rewrite H1.
    rewrite (@FloatTheory.SFone_eq prec emax Hprec Hemax). reflexivity.
  - replace (Zpos k + 1) with (Zpos (k + 1)) by lia. cbn [binary_normalize].
    rewrite (of_Z_finite (k := k)) by lia.
    rewrite (@FloatTheory.SFone_eq prec emax Hprec Hemax).
    destruct (@FloatTheory.Zdigits2_bounds (Zpos k) ltac:(lia)) as (Hd & Hlo & Hhi).
    set (d := Zdigits2 (Zpos k)) in *.
    assert (Hdp : d <= prec).
    { destruct (Z_le_gt_dec d prec) as [|Hgt]; [assumption|].
      pose proof (pow2_le (a := prec) (b := d - 1) ltac:(lia)). lia. }
    pose proof (pow2_pos (k := prec - d) ltac:(lia)) as Hpp.
    pose proof (pow2_pos (k := prec - 1) ltac:(lia)) as Hp1.
    cbn [SFadd cond_Zopp].
    rewrite !(@FloatTheory.shl_align_value prec emax Hprec Hemax) by lia.
    replace (Z.min (d - prec) (1 - prec)) with (1 - prec) by lia.
    rewrite !Z2Pos.id by nia.
    replace (1 - prec - (1 - prec)) with 0 by lia.
    replace (d - prec - (1 - prec)) with (d - 1) by lia.
    rewrite Z.mul_1_r.
    assert (Es : Zpos k * 2 ^ (prec - d) * 2 ^ (d - 1) + 2 ^ (prec - 1)
                 = Zpos (k + 1) * 2 ^ (prec - 1)).
    { rewrite <- Z.mul_assoc, <- Z.pow_add_r by lia.
      replace (prec - d + (d - 1)) with (prec - 1) by lia. lia. }
    rewrite Es.
    assert (Ep : Zpos (k + 1) * 2 ^ (prec - 1)
                 = Zpos (Z.to_pos (Zpos (k + 1) * 2 ^ (prec - 1))))
      by (rewrite Z2Pos.id by nia; reflexivity).
    rewrite Ep. cbn [binary_normalize].
    apply binary_round_same_value with (E0 := 1 - prec); try lia.
    + rewrite <- Ep, FloatTheory.Zdigits2_shift by lia.
      destruct (@FloatTheory.Zdigits2_bounds (Zpos (k + 1)) ltac:(lia)) as (Hd' & _).
      unfold SpecFloat.fexp, SpecFloat.emin. lia.
    + unfold scaled. rewrite <- Ep.
      replace (1 - prec - (1 - prec)) with 0 by lia.
      replace (0 - (1 - prec)) with (prec - 1) by lia. lia.
Qed.

End Format.

End FloatMore.

(** * Numeric behaviour of the filter *)

Module Numeric.
Import Round FloatDefs ADM Spec Buffers.

Lemma add_nonneg_or_nan x y :
  nonneg_or_nan x = true -> nonneg_or_nan y = true ->
  nonneg_or_nan (F32.add x y) = true.
Proof. exact (@FloatTheory.SFadd_nonneg_or_nan F32.prec F32.emax eq_refl eq_refl x y). Qed.

(** ** The gain of the decoupler *)

Lemma clip01_valid k : F32.valid k = true -> F32.valid (clip01 k) = true.
Proof.
  intros Vk. unfold clip01.
  destruct (F32.ltb k F32.zero); [reflexivity|].
  destruct (F32.ltb F32.one k); [reflexivity|exact Vk].
Qed.

Lemma clip01_finite_case s m e :
  F32.leb F32.zero (clip01 (S754_finite s m e)) = true /\
  F32.leb (clip01 (S754_finite s m e)) F32.one = true.
Proof.
  unfold clip01.
  destruct (F32.ltb (S754_finite s m e) F32.zero) eqn:E0; [split; reflexivity|].
  destruct (F32.ltb F32.one (S754_finite s m e)) eqn:E1; [split; reflexivity|].
  split.
  - apply FloatMore.SFltb_false_leb in E0; [exact E0|discriminate|discriminate].
  - apply FloatMore.SFltb_false_leb in E1; [exact E1|discriminate|discriminate].
Qed.

(** Property X12.  The clamp [k < 0.0 ? 0.0 : (k > 1.0 ? 1.0 : k)] lets a
    NaN through; any other gain, the infinities included, ends in [0, 1]. *)
Theorem clip01_range k :
  (k = S754_nan /\ clip01 k = S754_nan) \/
  (k <> S754_nan /\ clip01 k <> S754_nan /\
   F32.leb F32.zero (clip01 k) = true /\ F32.leb (clip01 k) F32.one = true).
Proof.
  destruct k as [s|s| |s m e]; [right|right|left; split; reflexivity|right];
    (split; [discriminate|]).
  - destruct s; repeat split; try reflexivity; discriminate.
  - destruct s; repeat split; try reflexivity; discriminate.
  - destruct (clip01_finite_case s m e) as (H0 & H1).
    split; [|split; assumption].
    intros Hn. rewrite Hn in H0. discriminate.
Qed.

(** ** The reciprocal *)

(** Property X13.  Where the hardware estimate of [1/x] is an infinity (at
    [x = 0]) or a zero (at an infinite [x]), the Newton-Raphson step of
    [rcp] turns it into a NaN, and so does [DIVS]: a division by zero gives
    NaN, not an infinity. *)
Theorem rcp_at_zero_and_infinity L x n :
  (is_zero x = true /\ (exists s, rcp_ss L x = S754_infinity s)) \/
  ((exists s, x = S754_infinity s) /\ is_zero (rcp_ss L x) = true) ->
  rcp L x = S754_nan /\ DIVS L n x = S754_nan.
Proof.
  intros Hx.
  assert (E : rcp L x = S754_nan).
  { unfold rcp. destruct Hx as [(Hz & s & ->)|((s & ->) & Hz)].
    - destruct x as [sx| | |]; try discriminate. destruct s, sx; reflexivity.
    - destruct (rcp_ss L (S754_infinity s)) as [sr| | |]; try discriminate.
      destruct s, sr; reflexivity. }
  split; [exact E|]. unfold DIVS. rewrite E.
  destruct n as [?|?| |? ? ?]; reflexivity.
Qed.

Lemma rcp_at_zero_and_infinity_witness :
  rcp Ref.L F32.zero = S754_nan /\ DIVS Ref.L F32.one F32.zero = S754_nan.
Proof.
  apply rcp_at_zero_and_infinity. left. split; [reflexivity|].
  exists false. reflexivity.
Defined.

(** ** The restored coefficient *)

Lemma rcp_valid L x :
  F32.valid (rcp_ss L x) = true -> F32.valid x = true ->
  F32.valid (rcp L x) = true.
Proof.
  intros HR Vx. unfold rcp.
  apply (@FloatTheory.SFadd_valid F32.prec F32.emax eq_refl eq_refl); [exact HR|].
  apply (@FloatTheory.SFmul_valid F32.prec F32.emax eq_refl eq_refl); [exact HR|].
  apply (@FloatTheory.SFsub_valid F32.prec F32.emax eq_refl eq_refl);
    [apply (@FloatTheory.SFone_valid F32.prec F32.emax eq_refl eq_refl)|].
  apply (@FloatTheory.SFmul_valid F32.prec F32.emax eq_refl eq_refl); [exact Vx|exact HR].
Qed.

(** Property X14.  Where the angular test fails, the restored coefficient is
    the reference coefficient times a gain in [0, 1]: it is a NaN or its
    magnitude is at most the magnitude of the reference coefficient,
    whatever the distorted coefficient is. *)
Theorem restored_not_above_reference L o t :
  F32.valid (rcp_ss L (F32.add o eps)) = true ->
  F32.valid o = true -> F32.valid t = true -> is_finite o = true ->
  restored L eps false o t = S754_nan \/
  F32.leb (F32.abs (restored L eps false o t)) (F32.abs o) = true.
Proof.
  intros HR Vo Vt Fo. unfold restored.
  set (k0 := DIVS L t (F32.add o eps)).
  assert (Vk0 : F32.valid k0 = true).
  { subst k0. unfold DIVS.
    apply (@FloatTheory.SFmul_valid F32.prec F32.emax eq_refl eq_refl); [exact Vt|].
    apply rcp_valid; [exact HR|].
    apply (@FloatTheory.SFadd_valid F32.prec F32.emax eq_refl eq_refl);
      [exact Vo|reflexivity]. }
  pose proof (clip01_valid k0 Vk0) as Vk.
  assert (Hk : clip01 k0 = S754_nan \/
               (F32.leb F32.zero (clip01 k0) = true /\ F32.leb (clip01 k0) F32.one = true)).
  { destruct k0 as [[|]|[|]| |s m e];
      [right; split; reflexivity|right; split; reflexivity|right; split; reflexivity
      |right; split; reflexivity|left; reflexivity|right; apply clip01_finite_case]. }
  destruct Hk as [->|(H0 & H1)].
  - left. destruct o as [?|?| |? ? ?]; reflexivity.
  - right.
    apply (@FloatMore.SFmul_le_one F32.prec F32.emax eq_refl eq_refl); assumption.
Qed.

Lemma restored_not_above_reference_witness :
  restored Ref.L eps false (F32.of_Z 3) (F32.of_Z 7) = S754_nan \/
  F32.leb (F32.abs (restored Ref.L eps false (F32.of_Z 3) (F32.of_Z 7)))
          (F32.abs (F32.of_Z 3)) = true.
Proof.
  exact (@restored_not_above_reference Ref.L (F32.of_Z 3) (F32.of_Z 7)
           eq_refl eq_refl eq_refl eq_refl).
Defined.


(** ** The masking threshold *)

Lemma filt_coeff_positive fi fj : nonneg_or_nan (filt_coeff fi fj) = true.
Proof. unfold filt_coeff. destruct ((fi =? 1) && (fj =? 1)); vm_compute; reflexivity. Qed.

Lemma thresh_sum_nonneg_or_nan p w h i j : nonneg_or_nan (thresh_sum p w h i j) = true.
Proof.
  unfold thresh_sum.
  assert (Inner : forall fi l s, nonneg_or_nan s = true ->
            nonneg_or_nan
              (fold_left
                 (fun sum filt_j =>
                    F32.add sum
                      (F32.mul (filt_coeff fi filt_j)
                         (F32.abs (px p (mirror (i - 1 + fi) h) (mirror (j - 1 + filt_j) w)))))
                 l s) = true).
  { intros fi l. induction l as [|fj l IH]; intros s Hs; [exact Hs|].
    cbn [fold_left]. apply IH.
    apply add_nonneg_or_nan; [exact Hs|].
    apply FloatMore.SFmul_nonneg_or_nan;
      [apply filt_coeff_positive|apply FloatMore.SFabs_nonneg_or_nan]. }
  assert (Outer : forall l s, nonneg_or_nan s = true ->
            nonneg_or_nan
              (fold_left
                 (fun sum filt_i =>
                    fold_left
                      (fun sum0 filt_j =>
                         let src_i := mirror (i - 1 + filt_i) h in
                         let src_j := mirror (j - 1 + filt_j) w in
                         let img_coeff := F32.abs (px p src_i src_j) in
                         F32.add sum0 (F32.mul (filt_coeff filt_i filt_j) img_coeff))
                      (zrange 0 3) sum) l s) = true).
  { intros l. induction l as [|fi l IH]; intros s Hs; [exact Hs|].
    cbn [fold_left]. apply IH. cbv zeta. apply Inner. exact Hs. }
  apply Outer. reflexivity.
Qed.

(** Property X15.  The masking threshold is never negative: at every pixel
    it is a NaN, [+0], a positive number or [+inf]. *)
Theorem adm_cm_thresh_not_negative src w h i j :
  nonneg_or_nan (px (adm_cm_thresh src w h) i j) = true /\
  F32.ltb (px (adm_cm_thresh src w h) i j) F32.zero = false.
Proof.
  assert (N : nonneg_or_nan (px (adm_cm_thresh src w h) i j) = true).
  { destruct (Props.in_range_dec i j w h) as [[Hi Hj]|Hout].
    - unfold adm_cm_thresh. rewrite px_build by assumption. cbn [fold_left].
      apply add_nonneg_or_nan;
        [apply add_nonneg_or_nan; [apply add_nonneg_or_nan; [reflexivity|]|]|];
        apply thresh_sum_nonneg_or_nan.
    - unfold adm_cm_thresh. rewrite px_build_out by assumption. reflexivity. }
  split; [exact N|].
  destruct (px (adm_cm_thresh src w h) i j) as [[|]|[|]| |[|] m e];
    try discriminate; reflexivity.
Qed.

(** Property X16.  A coefficient whose magnitude does not exceed the
    threshold is masked to zero. *)
Theorem mask_below_threshold x thr :
  F32.valid x = true -> F32.valid thr = true -> is_finite x = true ->
  F32.leb (F32.abs x) thr = true ->
  is_zero (mask x thr) = true.
Proof.
  intros Vx Vt Fx Hle. unfold mask.
  assert (Hd : is_zero (F32.sub (F32.abs x) thr) = true \/
               F32.ltb (F32.sub (F32.abs x) thr) F32.zero = true).
  { apply (@FloatMore.SFsub_not_positive F32.prec F32.emax eq_refl eq_refl);
      try assumption.
    - apply FloatTheory.SFabs_valid. exact Vx.
    - destruct x as [?|?| |? ? ?]; try discriminate; reflexivity.
    - destruct x as [?|?| |? ? ?]; try discriminate; reflexivity. }
  destruct Hd as [Hz|Hl].
  - destruct (F32.ltb (F32.sub (F32.abs x) thr) F32.zero); [reflexivity|exact Hz].
  - rewrite Hl. reflexivity.
Qed.

(** Property X17.  Masking never increases the magnitude of a coefficient:
    against a threshold that is not negative the masked value is a NaN or at
    most [|x|]. *)
Theorem mask_not_above x thr :
  F32.valid x = true -> F32.valid thr = true -> nonneg thr = true ->
  mask x thr = S754_nan \/ F32.leb (mask x thr) (F32.abs x) = true.
Proof.
  intros Vx Vt Nt. unfold mask.
  assert (Hx : x = S754_nan \/ nonneg (F32.abs x) = true)
    by (destruct x as [?|?| |? ? ?]; [right|right|left|right]; reflexivity).
  destruct Hx as [->|Nx].
  - left. destruct thr as [?|?| |? ? ?]; reflexivity.
  - assert (Va : F32.valid (F32.abs x) = true) by (apply FloatTheory.SFabs_valid; exact Vx).
    destruct (@FloatMore.SFsub_le F32.prec F32.emax eq_refl eq_refl
                (F32.abs x) thr Va Vt Nx Nt) as [Hn|Hle].
    + left. unfold F32.sub. rewrite Hn. reflexivity.
    + right. destruct (F32.ltb (F32.sub (F32.abs x) thr) F32.zero).
      * apply FloatTheory.SFleb_zero_nonneg. exact Nx.
      * exact Hle.
Qed.

Lemma mask_not_above_witness :
  mask (F32.of_Z (-7)) (F32.of_Z 5) = S754_nan \/
  F32.leb (mask (F32.of_Z (-7)) (F32.of_Z 5)) (F32.abs (F32.of_Z (-7))) = true.
Proof.
  exact (@mask_not_above (F32.of_Z (-7)) (F32.of_Z 5) eq_refl eq_refl eq_refl).
Defined.

Lemma mask_below_threshold_witness :
  F32.leb (F32.abs (F32.of_Z (-3))) (F32.of_Z 5) = true /\
  is_zero (mask (F32.of_Z (-3)) (F32.of_Z 5)) = true.
Proof.
  split; [reflexivity|].
  exact (@mask_below_threshold (F32.of_Z (-3)) (F32.of_Z 5)
           eq_refl eq_refl eq_refl eq_refl).
Defined.

(** ** The decoupler where the reference has no detail *)

Lemma angle_flag_zero_reference c oh ov th tv :
  is_finite c = true -> is_zero oh = true -> is_zero ov = true ->
  is_finite th = true -> is_finite tv = true ->
  is_finite (F32.add (F32.mul th th) (F32.mul tv tv)) = true ->
  angle_flag c oh ov th tv = true.
Proof.
  intros Hc Hoh Hov Hth Htv Hm. unfold angle_flag.
  set (tm := F32.add (F32.mul th th) (F32.mul tv tv)) in *. clearbody tm.
  destruct oh as [so| | |]; try discriminate.
  destruct ov as [so'| | |]; try discriminate.
  assert (Eo : F32.add (F32.mul (S754_zero so) (S754_zero so))
                       (F32.mul (S754_zero so') (S754_zero so')) = S754_zero false)
    by (destruct so, so'; reflexivity).
  rewrite Eo.
  assert (Ed : is_zero (F32.add (F32.mul (S754_zero so) th) (F32.mul (S754_zero so') tv))
               = true).
  { destruct th as [st|?| |st mt et]; try discriminate;
      destruct tv as [st'|?| |st' mt' et']; try discriminate;
      destruct so, so', st, st'; reflexivity. }
  destruct (F32.add (F32.mul (S754_zero so) th) (F32.mul (S754_zero so') tv)) as [sd| | |];
    try discriminate.
  destruct c as [sc|?| |sc mc ec]; try discriminate;
    destruct tm as [sm|?| |sm mm em]; try discriminate;
    destruct sd; reflexivity.
Qed.

(** Property X18.  Where the reference has no horizontal and no vertical
    detail the angular test passes whatever the distorted coefficients are
    (as long as the sum of their squares does not overflow): all the detail
    of the distorted frame is restored, none is impairment. *)
Theorem decouple_zero_reference L ref main w h i j :
  is_finite (cos_1deg_sq L) = true ->
  0 <= i < h -> 0 <= j < w ->
  is_zero (px (band_h ref) i j) = true -> is_zero (px (band_v ref) i j) = true ->
  is_finite (px (band_h main) i j) = true -> is_finite (px (band_v main) i j) = true ->
  is_finite (px (band_d main) i j) = true ->
  is_finite (F32.add (F32.mul (px (band_h main) i j) (px (band_h main) i j))
                     (F32.mul (px (band_v main) i j) (px (band_v main) i j))) = true ->
  angle_flag (cos_1deg_sq L) (px (band_h ref) i j) (px (band_v ref) i j)
             (px (band_h main) i j) (px (band_v main) i j) = true /\
  (forall sel, In sel orientations ->
     px (sel (fst (adm_decouple L ref main w h))) i j = px (sel main) i j /\
     px (sel (snd (adm_decouple L ref main w h))) i j = F32.zero).
Proof.
  intros Hc Hi Hj Zh Zv Fh Fv Fd Fm.
  assert (Hflag : angle_flag (cos_1deg_sq L) (px (band_h ref) i j) (px (band_v ref) i j)
                             (px (band_h main) i j) (px (band_v main) i j) = true)
    by (apply angle_flag_zero_reference; assumption).
  split; [exact Hflag|].
  intros sel Hsel.
  assert (Fsel : is_finite (px (sel main) i j) = true)
    by (destruct Hsel as [<-|[<-|[<-|[]]]]; assumption).
  assert (Er : px (sel (fst (adm_decouple L ref main w h))) i j = px (sel main) i j).
  { destruct Hsel as [<-|[<-|[<-|[]]]]; unfold adm_decouple;
      cbn [fst snd band_h band_v band_d]; rewrite !px_build by assumption;
      rewrite Hflag; reflexivity. }
  split; [exact Er|].
  assert (Ea : px (sel (snd (adm_decouple L ref main w h))) i j
               = F32.sub (px (sel main) i j)
                         (px (sel (fst (adm_decouple L ref main w h))) i j)).
  { destruct Hsel as [<-|[<-|[<-|[]]]]; unfold adm_decouple;
      cbn [fst snd band_h band_v band_d]; rewrite !px_build by assumption;
      reflexivity. }
  rewrite Ea, Er.
  apply FloatTheory.SFsub_diag. exact Fsel.
Qed.

Lemma decouple_zero_reference_witness :
  is_zero (px (band_h RefMore.black_dwt) 3 4) = true /\
  px (band_d (fst (adm_decouple Ref.L RefMore.black_dwt Ref.checker_dwt 8 8))) 3 4
  = px (band_d Ref.checker_dwt) 3 4.
Proof.
  assert (Zh : is_zero (px (band_h RefMore.black_dwt) 3 4) = true)
    by (vm_compute; reflexivity).
  split; [exact Zh|].
  exact (proj1 (proj2 (@decouple_zero_reference Ref.L RefMore.black_dwt Ref.checker_dwt
                         8 8 3 4
                         ltac:(vm_compute; reflexivity) ltac:(lia) ltac:(lia)
                         Zh ltac:(vm_compute; reflexivity)
                         ltac:(vm_compute; reflexivity) ltac:(vm_compute; reflexivity)
                         ltac:(vm_compute; reflexivity) ltac:(vm_compute; reflexivity))
                      band_d (or_intror (or_intror (or_introl eq_refl))))).
Defined.

(** ** The sign of the scores *)

Section Scores.
Variable L : libm.
Variable H : adm_h.
Hypothesis HL : cube_root_like L.

Lemma conv_pool_nonneg b w h : nonneg_or_nan (F64.of_float (pool3 L H b w h)) = true.
Proof.
  destruct (Props.pool3_facts H b w h HL) as (_ & N & _).
  apply (@FloatTheory.SFconv_nonneg_or_nan F32.prec F32.emax F64.prec F64.emax
           eq_refl eq_refl eq_refl eq_refl). exact N.
Qed.

Lemma add64_nonneg_or_nan x y :
  nonneg_or_nan x = true -> nonneg_or_nan y = true ->
  nonneg_or_nan (F64.add x y) = true.
Proof using Type.
  exact (@FloatTheory.SFadd_nonneg_or_nan F64.prec F64.emax eq_refl eq_refl x y).
Qed.

Lemma floor_at_nonneg limit x :
  nonneg_or_nan x = true -> nonneg_or_nan (floor_at limit x) = true.
Proof using Type. intros Hx. unfold floor_at. destruct (F64.ltb x limit); [reflexivity|exact Hx]. Qed.

(** Property X19.  With a [powf] that returns no negative number, no value
    [compute_adm2] reports is negative: the eight entries of [scores],
    [score_num], [score_den] and the score are each a NaN, [+0], a positive
    number or [+inf]. *)
Theorem compute_adm2_never_negative ref main w h :
  let r := compute_adm2 L H ref main w h in
  nonneg_or_nan (score r) = true /\
  nonneg_or_nan (score_num r) = true /\
  nonneg_or_nan (score_den r) = true /\
  (forall k, nonneg_or_nan (nth k (out_scores r) F64.zero) = true).
Proof.
  cbv zeta. unfold compute_adm2. cbn [score score_num score_den out_scores].
  destruct (Props.scale_loop_unrolled L H ref main w h)
    as (bn0 & bd0 & n1 & d1 & n2 & d2 & n3 & d3 & Hb & HN & HD & HS).
  cbv zeta in HN, HD, HS.
  destruct Hb as (b1 & b1' & b2 & b2' & b3 & b3' & w1 & h1 & w2 & h2 & w3 & h3
                  & -> & -> & -> & -> & -> & ->).
  rewrite HS, HN, HD. clear HS HN HD.
  assert (Nn : nonneg_or_nan
                 (F64.add (F64.add (F64.add (F64.add F64.zero
                    (F64.of_float (pool3 L H bn0 ((w + 1) ÷ 2) ((h + 1) ÷ 2))))
                    (F64.of_float (pool3 L H b1 w1 h1)))
                    (F64.of_float (pool3 L H b2 w2 h2)))
                    (F64.of_float (pool3 L H b3 w3 h3))) = true).
  { repeat (apply add64_nonneg_or_nan; [|apply conv_pool_nonneg]). reflexivity. }
  assert (Nd : nonneg_or_nan
                 (F64.add (F64.add (F64.add (F64.add F64.zero
                    (F64.of_float (pool3 L H bd0 ((w + 1) ÷ 2) ((h + 1) ÷ 2))))
                    (F64.of_float (pool3 L H b1' w1 h1)))
                    (F64.of_float (pool3 L H b2' w2 h2)))
                    (F64.of_float (pool3 L H b3' w3 h3))) = true).
  { repeat (apply add64_nonneg_or_nan; [|apply conv_pool_nonneg]). reflexivity. }
  set (sn := F64.add _ (F64.of_float (pool3 L H b3 w3 h3))) in *.
  set (sd := F64.add _ (F64.of_float (pool3 L H b3' w3 h3))) in *.
  clearbody sn sd.
  assert (Fn : nonneg_or_nan (floor_at (numden_limit w h) sn) = true)
    by (apply floor_at_nonneg; exact Nn).
  assert (Fd : nonneg_or_nan (floor_at (numden_limit w h) sd) = true)
    by (apply floor_at_nonneg; exact Nd).
  split; [|split; [exact Fn|split; [exact Fd|]]].
  - destruct (F64.eqb (floor_at (numden_limit w h) sd) F64.zero); [reflexivity|].
    apply FloatMore.SFdiv_nonneg_or_nan; assumption.
  - intros k.
    do 8 (destruct k as [|k]; [cbn [nth]; apply conv_pool_nonneg|]).
    destruct k; reflexivity.
Qed.

(** Property X20.  Once the stabilizer of the first scale is at least the
    noise floor and the floor is positive, [score_den] is never zero: the
    branch that reports the score 1.0 is not taken, and the score is always
    [score_num / score_den]. *)
Theorem score_fallback_unreachable ref main w h :
  F64.leb (numden_limit w h)
          (F64.of_float (band_stabilizer L H ((w + 1) ÷ 2) ((h + 1) ÷ 2))) = true ->
  F64.ltb F64.zero (numden_limit w h) = true ->
  let r := compute_adm2 L H ref main w h in
  F64.eqb (score_den r) F64.zero = false /\
  score r = F64.div (score_num r) (score_den r).
Proof.
  intros Hdim Hpos. cbv zeta.
  unfold compute_adm2. cbn [score score_num score_den].
  destruct (Props.scale_loop_unrolled L H ref main w h)
    as (bn0 & bd0 & n1 & d1 & n2 & d2 & n3 & d3 & Hb & _ & HD & _).
  cbv zeta in HD.
  destruct Hb as (b1 & b1' & b2 & b2' & b3 & b3' & w1 & h1 & w2 & h2 & w3 & h3
                  & -> & -> & -> & -> & -> & ->).
  rewrite HD. clear HD.
  set (A := band_stabilizer L H ((w + 1) ÷ 2) ((h + 1) ÷ 2)) in *.
  assert (NA : nonneg_or_nan A = true) by (subst A; unfold band_stabilizer, stabilizer; apply HL).
  assert (VA : F32.valid A = true) by (subst A; unfold band_stabilizer, stabilizer; apply HL).
  assert (PA : nonneg A = true).
  { destruct A as [[|]|[|]| |[|] m e]; try discriminate; try reflexivity.
    cbn in Hdim. destruct (numden_limit w h); discriminate. }
  pose proof (@FloatTheory.SFconv_valid F32.prec F32.emax F64.prec F64.emax
                eq_refl eq_refl eq_refl eq_refl) as CV.
  pose proof (@FloatTheory.SFconv_nonneg_or_nan F32.prec F32.emax F64.prec F64.emax
                eq_refl eq_refl eq_refl eq_refl) as CN.
  pose proof (@FloatTheory.at_least_conv F32.prec F32.emax F64.prec F64.emax
                eq_refl eq_refl eq_refl eq_refl) as CA.
  pose proof (@FloatTheory.SFadd_valid F64.prec F64.emax eq_refl eq_refl) as AV.
  pose proof (@FloatTheory.at_least_add_l F64.prec F64.emax eq_refl eq_refl) as AL.
  destruct (Props.pool3_facts H bd0 ((w + 1) ÷ 2) ((h + 1) ÷ 2) HL) as (V0 & N0 & A0).
  destruct (Props.pool3_facts H b1' w1 h1 HL) as (V1 & N1 & _).
  destruct (Props.pool3_facts H b2' w2 h2 HL) as (V2 & N2 & _).
  destruct (Props.pool3_facts H b3' w3 h3 HL) as (V3 & N3 & _).
  fold A in A0.
  set (p0 := pool3 L H bd0 _ _) in *. set (p1 := pool3 L H b1' w1 h1) in *.
  set (p2 := pool3 L H b2' w2 h2) in *. set (p3 := pool3 L H b3' w3 h3) in *.
  clearbody p0 p1 p2 p3.
  assert (E0 : F64.add F64.zero (F64.of_float p0) = F64.of_float p0).
  { apply FloatTheory.SFadd_zero_l. apply CN. exact N0. }
  rewrite E0.
  set (sd := F64.add (F64.add (F64.add (F64.of_float p0) (F64.of_float p1))
                              (F64.of_float p2)) (F64.of_float p3)).
  assert (Nsd : nonneg_or_nan sd = true).
  { subst sd. repeat (apply add64_nonneg_or_nan; [|apply CN; assumption]).
    apply CN; assumption. }
  assert (Asd : at_least (F64.of_float A) sd).
  { subst sd.
    apply AL; [apply AV; [apply AV|]; apply CV
              | apply add64_nonneg_or_nan; [apply add64_nonneg_or_nan|]; apply CN; assumption
              | apply CN; assumption |].
    apply AL; [apply AV; apply CV | apply add64_nonneg_or_nan; apply CN; assumption
              | apply CN; assumption |].
    apply AL; [apply CV | apply CN; assumption | apply CN; assumption |].
    apply CA; assumption. }
  clearbody sd.
  assert (Efl : floor_at (numden_limit w h) sd = sd).
  { unfold floor_at, F64.ltb.
    rewrite (@FloatTheory.at_least_not_below (numden_limit w h) (F64.of_float A) sd);
      [reflexivity|apply CN; exact NA|exact Nsd|exact Hdim|exact Asd]. }
  rewrite Efl.
  assert (Ez : F64.eqb sd F64.zero = false).
  { destruct Asd as [->|Hle]; [reflexivity|].
    pose proof (CN A NA) as NcA.
    destruct sd as [sz|[|]| |[|] ms es]; try reflexivity.
    exfalso.
    destruct (F64.of_float A) as [[|]|[|]| |[|] ma ea]; try discriminate;
      destruct (numden_limit w h) as [[|]|[|]| |[|] ml el]; discriminate. }
  rewrite Ez. split; reflexivity.
Qed.

End Scores.

Lemma compute_adm2_never_negative_witness :
  nonneg_or_nan
    (score (compute_adm2 Ref.L Ref.H (Ref.plane_of Ref.ramp) (Ref.plane_of Ref.checker)
                         16 16)) = true.
Proof.
  exact (proj1 (@compute_adm2_never_negative Ref.L Ref.H Props.ref_cube_root_like
                  (Ref.plane_of Ref.ramp) (Ref.plane_of Ref.checker) 16 16)).
Defined.

Lemma score_fallback_unreachable_witness :
  F64.ltb F64.zero (numden_limit 16 16) = true /\
  F64.eqb (score_den (compute_adm2 Ref.L Ref.H (Ref.plane_of Ref.ramp)
                                   (Ref.plane_of Ref.checker) 16 16)) F64.zero = false.
Proof.
  assert (Hdim : F64.leb (numden_limit 16 16)
            (F64.of_float (band_stabilizer Ref.L Ref.H ((16 + 1) ÷ 2) ((16 + 1) ÷ 2))) = true)
    by (vm_compute; reflexivity).
  assert (Hpos : F64.ltb F64.zero (numden_limit 16 16) = true) by (vm_compute; reflexivity).
  split; [exact Hpos|].
  exact (proj1 (@score_fallback_unreachable Ref.L Ref.H Props.ref_cube_root_like
                  (Ref.plane_of Ref.ramp) (Ref.plane_of Ref.checker) 16 16 Hdim Hpos)).
Defined.

(** ** The running sums and the average *)

Lemma F64_of_Z_succ k :
  0 <= k -> k + 1 < 2 ^ 53 -> F64.add (F64.of_Z k) F64.one = F64.of_Z (k + 1).
Proof.
  intros H0 H1.
  exact (@FloatMore.add_one_exact F64.prec F64.emax eq_refl eq_refl k H0 H1).
Qed.

Lemma do_adm_all_perfect L H d frames :
  forall s,
    Ctx.desc s = Some d ->
    (forall main ref, In (main, ref) frames ->
       score (do_adm L H (Ctx.comp0_depth d) (Ctx.width s) (Ctx.height s) main ref)
       = F64.one) ->
    0 <= Ctx.nb_frames s ->
    Ctx.nb_frames s + Z.of_nat (length frames) < 2 ^ 53 ->
    Ctx.adm_sum s = F64.of_Z (Ctx.nb_frames s) ->
    exists s',
      Ctx.do_adm_all L H s frames = Some s' /\
      Ctx.nb_frames s' = Ctx.nb_frames s + Z.of_nat (length frames) /\
      Ctx.adm_sum s' = F64.of_Z (Ctx.nb_frames s').
Proof.
  induction frames as [|[main ref] rest IH]; intros s Hd Hs Hn0 Hn Hsum.
  - exists s. cbn [Ctx.do_adm_all length]. repeat split; [cbn; lia|exact Hsum].
  - cbn [Ctx.do_adm_all]. unfold Ctx.do_adm. rewrite Hd.
    rewrite (Hs main ref (or_introl eq_refl)).
    cbn [length] in Hn. rewrite Nat2Z.inj_succ in Hn.
    set (s1 := Ctx.set_sums _ _ s).
    assert (E1 : Ctx.nb_frames s1 = Ctx.nb_frames s + 1).
    { subst s1. cbn [Ctx.set_sums Ctx.nb_frames]. apply Z.mod_small.
      change (2 ^ 64) with 18446744073709551616.
      change (2 ^ 53) with 9007199254740992 in Hn. lia. }
    destruct (IH s1) as (s' & R & N & S).
    + subst s1. exact Hd.
    + intros m r Hin. subst s1. cbn [Ctx.set_sums Ctx.width Ctx.height].
      apply Hs. right. exact Hin.
    + lia.
    + lia.
    + rewrite E1. subst s1. cbn [Ctx.set_sums Ctx.adm_sum]. rewrite Hsum.
      apply F64_of_Z_succ; lia.
    + exists s'. split; [exact R|]. split; [|exact S].
      rewrite N, E1. cbn [length]. lia.
Qed.

(** Property X21.  Before the first frame [uninit] logs no average. After a
    stream of fewer than [2^53] frames that all score 1.0, [nb_frames] is
    their number, [adm_sum] is that number exactly, and the average [uninit]
    logs is exactly 1.0. *)
Theorem perfect_scores_average L H s d frames :
  Ctx.desc s = Some d -> Ctx.adm_sum s = F64.zero -> Ctx.nb_frames s = 0 ->
  (forall main ref, In (main, ref) frames ->
     score (do_adm L H (Ctx.comp0_depth d) (Ctx.width s) (Ctx.height s) main ref)
     = F64.one) ->
  frames <> [] -> Z.of_nat (length frames) < 2 ^ 53 ->
  fst (Ctx.uninit s) = None /\
  exists s',
    Ctx.do_adm_all L H s frames = Some s' /\
    Ctx.nb_frames s' = Z.of_nat (length frames) /\
    Ctx.adm_sum s' = F64.of_Z (Z.of_nat (length frames)) /\
    fst (Ctx.uninit s') = Some F64.one.
Proof.
  intros Hd Hsum Hnb Hs Hne Hlen.
  split; [unfold Ctx.uninit; rewrite Hnb; reflexivity|].
  destruct (@do_adm_all_perfect L H d frames s Hd Hs ltac:(lia) ltac:(lia)
              ltac:(rewrite Hsum, Hnb; reflexivity)) as (s' & R & N & S).
  rewrite Hnb, Z.add_0_l in N.
  exists s'. split; [exact R|]. split; [exact N|]. split; [rewrite S, N; reflexivity|].
  unfold Ctx.uninit. cbn [fst]. rewrite S, N.
  set (n := Z.of_nat (length frames)) in *.
  assert (Hn : 0 < n) by (subst n; destruct frames; [contradiction|cbn; lia]).
  destruct (Z.ltb_spec 0 n) as [_|]; [|lia].
  f_equal.
  destruct n as [|p|p]; try lia.
  change (F64.of_Z (Zpos p)) with (binary_round F64.prec F64.emax false p 0).
  rewrite (@FloatMore.of_Z_finite F64.prec F64.emax eq_refl eq_refl p) by exact Hlen.
  apply Props.F64_div_self.
Qed.

Lemma perfect_scores_average_witness :
  exists s',
    Ctx.do_adm_all Ref.L Ref.H
      (Ctx.set_link {| Ctx.comp0_depth := 8 |} 16 16 Ctx.zeroed)
      [(Ref.ramp, Ref.ramp)] = Some s' /\
    Ctx.nb_frames s' = Z.of_nat 1 /\
    Ctx.adm_sum s' = F64.of_Z (Z.of_nat 1) /\
    fst (Ctx.uninit s') = Some F64.one.
Proof.
  assert (Hr : score (do_adm Ref.L Ref.H 8 16 16 Ref.ramp Ref.ramp) = F64.one)
    by (vm_compute; reflexivity).
  refine (proj2 (@perfect_scores_average Ref.L Ref.H
            (Ctx.set_link {| Ctx.comp0_depth := 8 |} 16 16 Ctx.zeroed)
            {| Ctx.comp0_depth := 8 |}
            [(Ref.ramp, Ref.ramp)]
            eq_refl eq_refl eq_refl _ ltac:(discriminate) ltac:(reflexivity))).
  intros main ref [E|[]]. injection E as <- <-. exact Hr.
Defined.

End Numeric.

(** * The scale loop against the per-scale values of the specification *)

Module Scales.
Import Round FloatDefs ADM Spec Buffers.

Ltac euclid := Z.to_euclidean_division_equations; lia.

(** ** The supported frames *)

Lemma size_at_ge_2 k x : 9 <= x -> (k < 4)%nat -> 2 <= size_at k x.
Proof.
  intros Hx Hk. destruct k as [|[|[|[|k]]]]; try lia.
  - change (size_at 0 x) with x. lia.
  - change (size_at 1 x) with ((x + 1) ÷ 2). euclid.
  - change (size_at 2 x) with (((x + 1) ÷ 2 + 1) ÷ 2). euclid.
  - change (size_at 3 x) with ((((x + 1) ÷ 2 + 1) ÷ 2 + 1) ÷ 2). euclid.
Qed.

Lemma size_at_1 x : size_at 1 x = (x + 1) ÷ 2.
Proof. reflexivity. Qed.

Lemma in_bounds_facts H w h :
  in_bounds H w h = true ->
  filt_w H = 4 /\ 9 <= w /\ 9 <= h /\ w * h < 2 ^ 31 /\
  (forall k, (k < 4)%nat ->
     2 <= size_at k w /\ 2 <= size_at k h /\
     0 <= border (size_at (S k) w) (ADM_BORDER_FACTOR H) /\
     0 <= border (size_at (S k) h) (ADM_BORDER_FACTOR H)).
Proof.
  unfold in_bounds. intros Hb.
  repeat (apply andb_true_iff in Hb; destruct Hb as (Hb & ?)).
  apply Z.eqb_eq in Hb.
  repeat match goal with
         | X : (_ <=? _) = true |- _ => apply Z.leb_le in X
         | X : (_ <? _) = true |- _ => apply Z.ltb_lt in X
         end.
  split; [exact Hb|]. split; [assumption|]. split; [assumption|]. split; [assumption|].
  intros k Hk.
  split; [apply size_at_ge_2; assumption|]. split; [apply size_at_ge_2; assumption|].
  match goal with X : forallb _ _ = true |- _ => rewrite forallb_forall in X;
    specialize (X k ltac:(cbn; lia)); apply andb_true_iff in X; destruct X as (A & B) end.
  apply Z.leb_le in A, B. split; assumption.
Qed.

(** ** The planes of the scales *)

Lemma scale_input_sizes H n p w h :
  snd (fst (scale_input H n p w h)) = size_at n w /\
  snd (scale_input H n p w h) = size_at n h.
Proof.
  induction n as [|n IH]; [split; reflexivity|].
  cbn [scale_input]. destruct (scale_input H n p w h) as [[p' w'] h'].
  cbn [fst snd] in *. destruct IH as (-> & ->). split; reflexivity.
Qed.

Lemma scale_bands_eq H n p w h :
  scale_bands H n p w h
  = (adm_dwt2 H (fst (fst (scale_input H n p w h))) (size_at n w) (size_at n h),
     size_at (S n) w, size_at (S n) h).
Proof.
  unfold scale_bands. destruct (scale_input_sizes H n p w h) as (Ew & Eh).
  destruct (scale_input H n p w h) as [[p' w'] h']. cbn [fst snd] in *.
  rewrite Ew, Eh. reflexivity.
Qed.

Lemma scale_input_S H n p w h :
  scale_input H (S n) p w h
  = (adm_buffer_copy
       (band_a (adm_dwt2 H (fst (fst (scale_input H n p w h))) (size_at n w) (size_at n h)))
       (size_at (S n) w) (size_at (S n) h),
     size_at (S n) w, size_at (S n) h).
Proof.
  cbn [scale_input]. destruct (scale_input_sizes H n p w h) as (Ew & Eh).
  destruct (scale_input H n p w h) as [[p' w'] h']. cbn [fst snd] in *.
  rewrite Ew, Eh. reflexivity.
Qed.

Lemma pooled_pool3 L H b w h : pooled L H b w h = pool3 L H b w h.
Proof. reflexivity. Qed.

(** One iteration of the loop, written with the two bands the decoupler
    returns. *)
Lemma scale_step_fields L H orig_h st scale :
  let B := adm_dwt2 H (curr_ref_scale st) (cur_w st) (cur_h st) in
  let B' := adm_dwt2 H (curr_main_scale st) (cur_w st) (cur_h st) in
  let w := (cur_w st + 1) ÷ 2 in
  let h := (cur_h st + 1) ÷ 2 in
  let r := fst (adm_decouple L B B' w h) in
  let a := snd (adm_decouple L B B' w h) in
  let n := pool3 L H (adm_cm (adm_csf L H r orig_h scale w h)
                             (adm_cm_thresh (adm_csf L H a orig_h scale w h) w h) w h)
                 w h in
  let d := pool3 L H (adm_csf L H B orig_h scale w h) w h in
  scale_step L H orig_h st scale
  = {| curr_ref_scale := adm_buffer_copy (band_a B) w h;
       curr_main_scale := adm_buffer_copy (band_a B') w h;
       cur_w := w; cur_h := h;
       num := F64.add (num st) (F64.of_float n);
       den := F64.add (den st) (F64.of_float d);
       scores := scores st ++ [F64.of_float n; F64.of_float d] |}.
Proof.
  cbv zeta. unfold scale_step.
  destruct (adm_decouple L _ _ _ _) as [r a]. reflexivity.
Qed.

(** The state of the loop after its first [n] iterations: the planes are
    the inputs of scale [n], the diagnostic sequence holds the numerator and
    the denominator of each scale so far, in this order, and the two
    accumulators are their sums from the left. *)
Lemma scale_loop_at L H ref main w h n :
  let st :=
    fold_left (scale_step L H h) (zrange 0 (Z.of_nat n))
      {| curr_ref_scale := ref; curr_main_scale := main; cur_w := w; cur_h := h;
         num := F64.zero; den := F64.zero; scores := [] |} in
  curr_ref_scale st = fst (fst (scale_input H n ref w h)) /\
  curr_main_scale st = fst (fst (scale_input H n main w h)) /\
  cur_w st = size_at n w /\ cur_h st = size_at n h /\
  scores st
  = flat_map (fun k => [F64.of_float (scale_num L H k ref main w h);
                        F64.of_float (scale_den L H k ref w h)]) (seq 0 n) /\
  num st
  = fold_left (fun acc k => F64.add acc (F64.of_float (scale_num L H k ref main w h)))
              (seq 0 n) F64.zero /\
  den st
  = fold_left (fun acc k => F64.add acc (F64.of_float (scale_den L H k ref w h)))
              (seq 0 n) F64.zero.
Proof.
  induction n as [|n IH]; intros st.
  - subst st. cbn. repeat split.
  - subst st. rewrite Nat2Z.inj_succ. unfold Z.succ.
    rewrite Props.zrange_snoc by lia. rewrite fold_left_app. cbn [fold_left].
    cbv zeta in IH.
    set (st := fold_left _ (zrange 0 (Z.of_nat n)) _) in *.
    destruct IH as (Hr & Hm & Hw & Hh & Hs & Hn & Hd).
    rewrite scale_step_fields.
    cbn [curr_ref_scale curr_main_scale cur_w cur_h num den scores].
    rewrite Hr, Hm, Hw, Hh, Hs, Hn, Hd.
    rewrite !scale_input_S. cbn [fst snd].
    change ((size_at n w + 1) ÷ 2) with (size_at (S n) w).
    change ((size_at n h + 1) ÷ 2) with (size_at (S n) h).
    rewrite seq_S, flat_map_app, !fold_left_app. cbn [flat_map fold_left app plus].
    unfold scale_num, scale_den. rewrite !scale_bands_eq. cbn [fst snd].
    repeat split.
Qed.

(** The state at the end of the loop. *)
Lemma scale_loop_end L H ref main w h :
  let n k := F64.of_float (scale_num L H k ref main w h) in
  let d k := F64.of_float (scale_den L H k ref w h) in
  scores (scale_loop L H ref main w h)
  = [n 0%nat; d 0%nat; n 1%nat; d 1%nat; n 2%nat; d 2%nat; n 3%nat; d 3%nat] /\
  num (scale_loop L H ref main w h)
  = F64.add (F64.add (F64.add (F64.add F64.zero (n 0%nat)) (n 1%nat)) (n 2%nat))
            (n 3%nat) /\
  den (scale_loop L H ref main w h)
  = F64.add (F64.add (F64.add (F64.add F64.zero (d 0%nat)) (d 1%nat)) (d 2%nat))
            (d 3%nat).
Proof.
  cbv zeta.
  destruct (scale_loop_at L H ref main w h 4) as (_ & _ & _ & _ & Hs & Hn & Hd).
  change (Z.of_nat 4) with 4 in Hs, Hn, Hd. unfold scale_loop.
  rewrite Hs, Hn, Hd. repeat split.
Qed.

(** ** Pooled values and the noise floor *)

Lemma scale_num_facts L H n ref main w h :
  cube_root_like L ->
  F32.valid (scale_num L H n ref main w h) = true /\
  nonneg_or_nan (scale_num L H n ref main w h) = true /\
  at_least (band_stabilizer L H (size_at (S n) w) (size_at (S n) h))
           (scale_num L H n ref main w h).
Proof.
  intros HL. unfold scale_num. rewrite !scale_bands_eq. cbn [fst snd].
  rewrite pooled_pool3. apply Props.pool3_facts. exact HL.
Qed.

Lemma scale_den_facts L H n ref w h :
  cube_root_like L ->
  F32.valid (scale_den L H n ref w h) = true /\
  nonneg_or_nan (scale_den L H n ref w h) = true /\
  at_least (band_stabilizer L H (size_at (S n) w) (size_at (S n) h))
           (scale_den L H n ref w h).
Proof.
  intros HL. unfold scale_den. rewrite !scale_bands_eq. cbn [fst snd].
  rewrite pooled_pool3. apply Props.pool3_facts. exact HL.
Qed.

(** Four pooled values, the first at least the stabilizer [A] of the first
    scale: once the noise floor is at most [A], their sum is not below the
    floor; and it is not zero when the floor is positive. *)
Lemma sum4_above_floor (limit : double) (A p0 p1 p2 p3 : float) :
  F32.valid A = true -> nonneg_or_nan A = true ->
  F64.leb limit (F64.of_float A) = true ->
  F32.valid p0 = true -> nonneg_or_nan p0 = true -> at_least A p0 ->
  F32.valid p1 = true -> nonneg_or_nan p1 = true ->
  F32.valid p2 = true -> nonneg_or_nan p2 = true ->
  F32.valid p3 = true -> nonneg_or_nan p3 = true ->
  let s := F64.add (F64.add (F64.add (F64.of_float p0) (F64.of_float p1))
                            (F64.of_float p2)) (F64.of_float p3) in
  F64.add (F64.add (F64.add (F64.add F64.zero (F64.of_float p0)) (F64.of_float p1))
                   (F64.of_float p2)) (F64.of_float p3) = s /\
  F64.ltb s limit = false /\
  (F64.ltb F64.zero limit = true -> F64.eqb s F64.zero = false).
Proof.
  intros VA NA Hdim V0 N0 A0 V1 N1 V2 N2 V3 N3 s.
  pose proof (@FloatTheory.SFconv_valid F32.prec F32.emax F64.prec F64.emax
                eq_refl eq_refl eq_refl eq_refl) as CV.
  pose proof (@FloatTheory.SFconv_nonneg_or_nan F32.prec F32.emax F64.prec F64.emax
                eq_refl eq_refl eq_refl eq_refl) as CN.
  pose proof (@FloatTheory.at_least_conv F32.prec F32.emax F64.prec F64.emax
                eq_refl eq_refl eq_refl eq_refl) as CA.
  pose proof (@FloatTheory.SFadd_valid F64.prec F64.emax eq_refl eq_refl) as AV.
  pose proof (@FloatTheory.SFadd_nonneg_or_nan F64.prec F64.emax eq_refl eq_refl) as AN.
  pose proof (@FloatTheory.at_least_add_l F64.prec F64.emax eq_refl eq_refl) as AL.
  assert (PA : nonneg A = true).
  { destruct A as [[|]|[|]| |[|] m e]; try discriminate; try reflexivity.
    cbn in Hdim. destruct limit; discriminate. }
  assert (E0 : F64.add F64.zero (F64.of_float p0) = F64.of_float p0).
  { apply FloatTheory.SFadd_zero_l. apply CN. exact N0. }
  rewrite E0. split; [reflexivity|].
  assert (Ns : nonneg_or_nan s = true).
  { subst s. apply AN; [apply AN; [apply AN|]|]; apply CN; assumption. }
  assert (As : at_least (F64.of_float A) s).
  { subst s.
    apply AL; [apply AV; [apply AV|]; apply CV
              | apply AN; [apply AN|]; apply CN; assumption
              | apply CN; assumption |].
    apply AL; [apply AV; apply CV | apply AN; apply CN; assumption
              | apply CN; assumption |].
    apply AL; [apply CV | apply CN; assumption | apply CN; assumption |].
    apply CA; assumption. }
  clearbody s. split.
  - apply (@FloatTheory.at_least_not_below limit (F64.of_float A) s);
      [apply CN; exact NA|exact Ns|exact Hdim|exact As].
  - intros Hpos. destruct As as [->|Hle]; [reflexivity|].
    pose proof (CN A NA) as NcA.
    destruct s as [sz|[|]| |[|] ms es]; try reflexivity.
    exfalso.
    destruct (F64.of_float A) as [[|]|[|]| |[|] ma ea]; try discriminate;
      destruct limit as [[|]|[|]| |[|] ml el]; discriminate.
Qed.

Lemma stabilizer_facts L H w h :
  cube_root_like L ->
  F32.valid (band_stabilizer L H w h) = true /\
  nonneg_or_nan (band_stabilizer L H w h) = true.
Proof. intros HL. unfold band_stabilizer, stabilizer. apply HL. Qed.

(** ** The final reduction *)

(** Claim C2: on a supported frame, the diagnostic sequence of
    [compute_adm2] holds the numerator and the denominator of each of the 4
    scales (the pooled masked restored bands and the pooled CSF-weighted
    reference bands of that scale); [score_num] and [score_den] are their
    sums over the 4 scales, each replaced by zero when strictly below
    [1e-2 * (w * h) / (1920.0 * 1080.0)]; the score is
    [score_num / score_den], and [1.0] when [score_den] is zero. *)
Theorem compute_adm2_final_reduction L H ref main w h :
  in_bounds H w h = true ->
  let r := compute_adm2 L H ref main w h in
  let n k := F64.of_float (scale_num L H k ref main w h) in
  let d k := F64.of_float (scale_den L H k ref w h) in
  let limit :=
    F64.div (F64.mul (F64.lit 1 100) (F64.of_Z (w * h))) (F64.of_Z 2073600) in
  let sum_num :=
    F64.add (F64.add (F64.add (F64.add F64.zero (n 0%nat)) (n 1%nat)) (n 2%nat))
            (n 3%nat) in
  let sum_den :=
    F64.add (F64.add (F64.add (F64.add F64.zero (d 0%nat)) (d 1%nat)) (d 2%nat))
            (d 3%nat) in
  out_scores r
  = [n 0%nat; d 0%nat; n 1%nat; d 1%nat; n 2%nat; d 2%nat; n 3%nat; d 3%nat] /\
  score_num r = (if F64.ltb sum_num limit then F64.zero else sum_num) /\
  score_den r = (if F64.ltb sum_den limit then F64.zero else sum_den) /\
  score r = (if F64.eqb (score_den r) F64.zero then F64.one
             else F64.div (score_num r) (score_den r)).
Proof.
  intros _. cbv zeta. unfold compute_adm2. cbn [score score_num score_den out_scores].
  destruct (scale_loop_end L H ref main w h) as (HS & HN & HD).
  cbv zeta in HS, HN, HD. rewrite HS, HN, HD.
  rewrite <- Props.numden_limit_eq. unfold floor_at. repeat split.
Qed.

(** ** Scale additivity *)

(** Claim C4: on a supported frame the diagnostic sequence has eight
    entries, the numerator and the denominator of each of the 4 scales;
    [score_num] is the sum of the four numerators [scores[0], scores[2],
    scores[4], scores[6]] and [score_den] the sum of the four denominators.
    The noise floor cannot break the equality: every pooled value is at
    least the stabilizer of its band, which does not depend on the pixels,
    so once that constant of the first scale is at least the floor of the
    frame size, a condition on [w] and [h] alone, no sum is replaced by
    zero. *)
Theorem scale_additivity L H ref main w h :
  cube_root_like L ->
  F64.leb (numden_limit w h)
          (F64.of_float (band_stabilizer L H ((w + 1) ÷ 2) ((h + 1) ÷ 2))) = true ->
  in_bounds H w h = true ->
  let r := compute_adm2 L H ref main w h in
  let s k := nth k (out_scores r) F64.zero in
  length (out_scores r) = 8%nat /\
  (forall k, (k < 4)%nat ->
     s (2 * k)%nat = F64.of_float (scale_num L H k ref main w h) /\
     s (2 * k + 1)%nat = F64.of_float (scale_den L H k ref w h)) /\
  score_num r = F64.add (F64.add (F64.add (s 0%nat) (s 2%nat)) (s 4%nat)) (s 6%nat) /\
  score_den r = F64.add (F64.add (F64.add (s 1%nat) (s 3%nat)) (s 5%nat)) (s 7%nat).
Proof.
  intros HL Hdim _. cbv zeta.
  unfold compute_adm2. cbn [score_num score_den out_scores].
  destruct (scale_loop_end L H ref main w h) as (HS & HN & HD).
  cbv zeta in HS, HN, HD. rewrite HS, HN, HD. cbn [nth length]. clear HS HN HD.
  destruct (@stabilizer_facts L H ((w + 1) ÷ 2) ((h + 1) ÷ 2) HL) as (VA & NA).
  destruct (@scale_num_facts L H 0%nat ref main w h HL) as (Vn0 & Nn0 & An0).
  destruct (@scale_num_facts L H 1%nat ref main w h HL) as (Vn1 & Nn1 & _).
  destruct (@scale_num_facts L H 2%nat ref main w h HL) as (Vn2 & Nn2 & _).
  destruct (@scale_num_facts L H 3%nat ref main w h HL) as (Vn3 & Nn3 & _).
  destruct (@scale_den_facts L H 0%nat ref w h HL) as (Vd0 & Nd0 & Ad0).
  destruct (@scale_den_facts L H 1%nat ref w h HL) as (Vd1 & Nd1 & _).
  destruct (@scale_den_facts L H 2%nat ref w h HL) as (Vd2 & Nd2 & _).
  destruct (@scale_den_facts L H 3%nat ref w h HL) as (Vd3 & Nd3 & _).
  rewrite !size_at_1 in An0, Ad0.
  destruct (@sum4_above_floor (numden_limit w h) _ _ _ _ _ VA NA Hdim
              Vn0 Nn0 An0 Vn1 Nn1 Vn2 Nn2 Vn3 Nn3) as (En & Ln & _).
  destruct (@sum4_above_floor (numden_limit w h) _ _ _ _ _ VA NA Hdim
              Vd0 Nd0 Ad0 Vd1 Nd1 Vd2 Nd2 Vd3 Nd3) as (Ed & Ld & _).
  split; [reflexivity|]. split.
  - intros k Hk. destruct k as [|[|[|[|k]]]]; try lia; split; reflexivity.
  - unfold floor_at. rewrite En, Ed, Ln, Ld. split; reflexivity.
Qed.


(** ** A reference plane of zeros *)

Lemma scale_input_zero H n ref w h :
  taps_finite H = true -> (forall i j, is_zero (px ref i j) = true) ->
  forall i j, is_zero (px (fst (fst (scale_input H n ref w h))) i j) = true.
Proof.
  intros HT Hz. induction n as [|n IH]; [exact Hz|].
  intros i j. rewrite scale_input_S. cbn [fst]. unfold adm_buffer_copy.
  apply Props.is_zero_px_build. intros i' j'.
  apply Props.adm_dwt2_zero; [exact HT|exact IH|left; reflexivity].
Qed.

Lemma scale_den_zero_reference L H n ref w h :
  taps_finite H = true ->
  is_finite (rfactor L H (Z.of_nat n) 0) = true ->
  is_finite (rfactor L H (Z.of_nat n) 2) = true ->
  (forall i j, is_zero (px ref i j) = true) ->
  scale_den L H n ref w h = zero_pool L H (size_at (S n) w) (size_at (S n) h).
Proof.
  intros HT R0 R2 Hz. unfold scale_den. rewrite scale_bands_eq. cbn [fst snd].
  rewrite pooled_pool3. apply Props.pool3_zero.
  apply Props.adm_csf_zero; try assumption.
  intros sel i j Hsel. apply Props.adm_dwt2_zero; [exact HT| |right; exact Hsel].
  apply scale_input_zero; assumption.
Qed.

Lemma rfactors_ok_at L H k :
  rfactors_ok L H = true -> (k < 4)%nat ->
  is_finite (rfactor L H (Z.of_nat k) 0) = true /\
  is_finite (rfactor L H (Z.of_nat k) 2) = true.
Proof.
  intros HR Hk. unfold rfactors_ok in HR. rewrite forallb_forall in HR.
  assert (Hin : In (Z.of_nat k) [0; 1; 2; 3]) by (cbn; lia).
  specialize (HR _ Hin). apply andb_true_iff in HR. exact HR.
Qed.

(** Claim C3, amended: on a supported frame whose reference plane is all
    zeros, whatever the distorted plane, the denominator of each scale is
    the constant [zero_pool] of the band size of that scale (three times
    [powf (0, 1/3)] plus the stabilizer) and [score_den] is the sum of the
    four constants.  Once the noise floor of the frame size is positive and
    at most the stabilizer of the first scale, [score_den] is not below the
    floor and is not zero, and the score is [score_num / score_den], not the
    1.0 of the fallback. *)
Theorem zero_reference_denominator L H ref main w h :
  taps_finite H = true -> rfactors_ok L H = true -> cube_root_like L ->
  in_bounds H w h = true ->
  F64.ltb F64.zero (numden_limit w h) = true ->
  F64.leb (numden_limit w h)
          (F64.of_float (band_stabilizer L H ((w + 1) ÷ 2) ((h + 1) ÷ 2))) = true ->
  (forall i j, is_zero (px ref i j) = true) ->
  let r := compute_adm2 L H ref main w h in
  let d k := F64.of_float (zero_pool L H (size_at (S k) w) (size_at (S k) h)) in
  (forall n, (n < 4)%nat ->
     scale_den L H n ref w h = zero_pool L H (size_at (S n) w) (size_at (S n) h) /\
     nth (2 * n + 1) (out_scores r) F64.zero = d n) /\
  score_den r = F64.add (F64.add (F64.add (d 0%nat) (d 1%nat)) (d 2%nat)) (d 3%nat) /\
  F64.ltb (score_den r) (numden_limit w h) = false /\
  F64.eqb (score_den r) F64.zero = false /\
  score r = F64.div (score_num r) (score_den r).
Proof.
  intros HT HR HL _ Hpos Hdim Hz. cbv zeta.
  assert (Hd : forall n, (n < 4)%nat ->
            scale_den L H n ref w h = zero_pool L H (size_at (S n) w) (size_at (S n) h)).
  { intros n Hn. destruct (@rfactors_ok_at L H n HR Hn) as (R0 & R2).
    apply scale_den_zero_reference; assumption. }
  unfold compute_adm2. cbn [score score_num score_den out_scores].
  destruct (scale_loop_end L H ref main w h) as (HS & _ & HD).
  cbv zeta in HS, HD. rewrite HS, HD. clear HS HD.
  destruct (@stabilizer_facts L H ((w + 1) ÷ 2) ((h + 1) ÷ 2) HL) as (VA & NA).
  destruct (@scale_den_facts L H 0%nat ref w h HL) as (Vd0 & Nd0 & Ad0).
  destruct (@scale_den_facts L H 1%nat ref w h HL) as (Vd1 & Nd1 & _).
  destruct (@scale_den_facts L H 2%nat ref w h HL) as (Vd2 & Nd2 & _).
  destruct (@scale_den_facts L H 3%nat ref w h HL) as (Vd3 & Nd3 & _).
  rewrite !size_at_1 in Ad0.
  destruct (@sum4_above_floor (numden_limit w h) _ _ _ _ _ VA NA Hdim
              Vd0 Nd0 Ad0 Vd1 Nd1 Vd2 Nd2 Vd3 Nd3) as (Ed & Ld & Zd).
  specialize (Zd Hpos).
  pose proof (Hd 0%nat ltac:(lia)) as E0. pose proof (Hd 1%nat ltac:(lia)) as E1.
  pose proof (Hd 2%nat ltac:(lia)) as E2. pose proof (Hd 3%nat ltac:(lia)) as E3.
  rewrite E0, E1, E2, E3 in Ed, Ld, Zd |- *.
  rewrite Ed.
  match type of Ld with F64.ltb ?s ?l = false =>
    assert (Efl : floor_at l s = s) by (unfold floor_at; rewrite Ld; reflexivity)
  end.
  rewrite Efl, Ld, Zd.
  split.
  { intros n Hn. split; [apply Hd; exact Hn|].
    destruct n as [|[|[|[|n]]]]; try lia; reflexivity. }
  split; [reflexivity|]. split; [reflexivity|]. split; reflexivity.
Qed.

(** ** Identical planes *)

Lemma scales_ok_at L H ref w h k :
  rfactors_ok L H = true -> scales_ok H ref w h = true -> (k < 4)%nat ->
  band_ok (fst (fst (scale_bands H k ref w h))) (snd (fst (scale_bands H k ref w h)))
          (snd (scale_bands H k ref w h)) = true /\
  is_finite (rfactor L H (Z.of_nat k) 0) = true /\
  is_finite (rfactor L H (Z.of_nat k) 2) = true.
Proof.
  intros HR HS Hk. split; [|apply rfactors_ok_at; assumption].
  unfold scales_ok in HS. rewrite forallb_forall in HS.
  apply HS. cbn. lia.
Qed.

Lemma scale_num_identical L H n ref w h :
  cos_ok L = true -> rfactors_ok L H = true -> scales_ok H ref w h = true ->
  (n < 4)%nat ->
  scale_num L H n ref ref w h = scale_den L H n ref w h.
Proof.
  intros Hc HR HS Hn. destruct (@scales_ok_at L H ref w h n HR HS Hn) as (HB & R0 & R2).
  unfold scale_num, scale_den. rewrite !pooled_pool3.
  apply Props.pools_identical; assumption.
Qed.

(** The quotient of a double by itself. *)
Lemma F64_div_self_cases x :
  (is_finite x = true -> F64.eqb x F64.zero = false -> F64.div x x = F64.one) /\
  (is_finite x = false -> F64.eqb x F64.zero = false /\ F64.div x x = S754_nan).
Proof.
  destruct x as [s|s| |s m e]; split.
  - intros _ E. destruct s; discriminate E.
  - intros F. discriminate F.
  - intros F. discriminate F.
  - intros _. destruct s; split; reflexivity.
  - intros F. discriminate F.
  - intros _. split; reflexivity.
  - intros _ _. apply Props.F64_div_self.
  - intros F. discriminate F.
Qed.



(** ** What the loop reads of a frame *)

(** Property X7.  On a supported frame (a four-tap filter and at least
    9 x 9 samples), at each of the four scales every sample [adm_dwt2]
    reads is inside the plane of that scale and the pooled region starts
    inside its band; and the result of [compute_adm2] depends on the
    [w x h] samples of the two planes only: nothing that lies outside them,
    such as the padding of a row, reaches the score. *)
Theorem compute_adm2_reads_frame_only L H ref ref' main main' w h :
  in_bounds H w h = true ->
  (forall i j, 0 <= i < h -> 0 <= j < w -> px ref i j = px ref' i j) ->
  (forall i j, 0 <= i < h -> 0 <= j < w -> px main i j = px main' i j) ->
  (forall k, (k < 4)%nat ->
     let wk := snd (fst (scale_input H k ref w h)) in
     let hk := snd (scale_input H k ref w h) in
     (forall n t, 0 <= n < (hk + 1) ÷ 2 -> 0 <= t < filt_w H ->
        0 <= mirror (2 * n - 1 + t) hk < hk) /\
     (forall n t, 0 <= n < (wk + 1) ÷ 2 -> 0 <= t < filt_w H ->
        0 <= mirror (2 * n - 1 + t) wk < wk) /\
     0 <= border ((wk + 1) ÷ 2) (ADM_BORDER_FACTOR H) /\
     0 <= border ((hk + 1) ÷ 2) (ADM_BORDER_FACTOR H)) /\
  compute_adm2 L H ref main w h = compute_adm2 L H ref' main' w h.
Proof.
  intros Hb Hr Hm.
  destruct (in_bounds_facts H w h Hb) as (Hf & Hw & Hh & _ & Hk).
  split.
  - intros k Hlt wk hk.
    destruct (scale_input_sizes H k ref w h) as (Ew & Eh).
    subst wk hk. rewrite Ew, Eh.
    destruct (Hk k Hlt) as (Hw2 & Hh2 & Bw & Bh).
    split; [|split; [|split]].
    + intros n t Hn Ht. rewrite Hf in Ht.
      apply Memory.mirror_dwt_in_range; assumption.
    + intros n t Hn Ht. rewrite Hf in Ht.
      apply Memory.mirror_dwt_in_range; assumption.
    + exact Bw.
    + exact Bh.
  - pose proof (@Memory.adm_dwt2_ext H ref ref' w h Hf ltac:(lia) ltac:(lia) Hr) as Er.
    pose proof (@Memory.adm_dwt2_ext H main main' w h Hf ltac:(lia) ltac:(lia) Hm) as Em.
    unfold compute_adm2, scale_loop.
    change (zrange 0 4) with [0; 1; 2; 3].
    cbn [fold_left].
    assert (E : scale_step L H h
                  {| curr_ref_scale := ref; curr_main_scale := main; cur_w := w;
                     cur_h := h; num := F64.zero; den := F64.zero; scores := [] |} 0
                = scale_step L H h
                  {| curr_ref_scale := ref'; curr_main_scale := main'; cur_w := w;
                     cur_h := h; num := F64.zero; den := F64.zero; scores := [] |} 0).
    { unfold scale_step. cbn [curr_ref_scale curr_main_scale cur_w cur_h num den scores].
      rewrite Er, Em. reflexivity. }
    rewrite E. reflexivity.
Qed.

(** ** The properties on the frames of [Ref] *)

Lemma ref_in_bounds : in_bounds Ref.H 16 16 = true.
Proof. vm_compute. reflexivity. Qed.

(** Every size of [Ref.frame_sizes] is a supported frame with a positive
    noise floor. *)
Lemma frame_sizes_supported :
  forallb (fun s => in_bounds Ref.H (fst s) (snd s)
                    && F64.ltb F64.zero (numden_limit (fst s) (snd s)))
          Ref.frame_sizes = true.
Proof. vm_compute. reflexivity. Qed.

Lemma compute_adm2_reads_frame_only_witness :
  in_bounds Ref.H 16 16 = true /\
  compute_adm2 Ref.L Ref.H (Ref.plane_of Ref.ramp) (Ref.plane_of Ref.checker) 16 16
  = compute_adm2 Ref.L Ref.H RefMore.padded_ramp (Ref.plane_of Ref.checker) 16 16.
Proof.
  split; [exact ref_in_bounds|].
  exact (proj2 (@compute_adm2_reads_frame_only Ref.L Ref.H
                  (Ref.plane_of Ref.ramp) RefMore.padded_ramp
                  (Ref.plane_of Ref.checker) (Ref.plane_of Ref.checker) 16 16
                  ref_in_bounds Memory.padded_ramp_agrees (fun _ _ _ _ => eq_refl))).
Defined.

Lemma compute_adm2_final_reduction_witness :
  in_bounds Ref.H 16 16 = true /\
  out_scores (compute_adm2 Ref.L Ref.H (Ref.plane_of Ref.ramp) (Ref.plane_of Ref.checker)
                           16 16)
  = [F64.of_float (scale_num Ref.L Ref.H 0 (Ref.plane_of Ref.ramp) (Ref.plane_of Ref.checker) 16 16);
     F64.of_float (scale_den Ref.L Ref.H 0 (Ref.plane_of Ref.ramp) 16 16);
     F64.of_float (scale_num Ref.L Ref.H 1 (Ref.plane_of Ref.ramp) (Ref.plane_of Ref.checker) 16 16);
     F64.of_float (scale_den Ref.L Ref.H 1 (Ref.plane_of Ref.ramp) 16 16);
     F64.of_float (scale_num Ref.L Ref.H 2 (Ref.plane_of Ref.ramp) (Ref.plane_of Ref.checker) 16 16);
     F64.of_float (scale_den Ref.L Ref.H 2 (Ref.plane_of Ref.ramp) 16 16);
     F64.of_float (scale_num Ref.L Ref.H 3 (Ref.plane_of Ref.ramp) (Ref.plane_of Ref.checker) 16 16);
     F64.of_float (scale_den Ref.L Ref.H 3 (Ref.plane_of Ref.ramp) 16 16)].
Proof.
  split; [exact ref_in_bounds|].
  exact (proj1 (@compute_adm2_final_reduction Ref.L Ref.H (Ref.plane_of Ref.ramp)
                  (Ref.plane_of Ref.checker) 16 16 ref_in_bounds)).
Defined.

Lemma scale_additivity_witness :
  F64.leb (numden_limit 16 16)
          (F64.of_float (band_stabilizer Ref.L Ref.H ((16 + 1) ÷ 2) ((16 + 1) ÷ 2))) = true /\
  in_bounds Ref.H 16 16 = true /\
  length (out_scores (compute_adm2 Ref.L Ref.H (Ref.plane_of Ref.ramp)
                                   (Ref.plane_of Ref.checker) 16 16)) = 8%nat.
Proof.
  assert (Hdim : F64.leb (numden_limit 16 16)
          (F64.of_float (band_stabilizer Ref.L Ref.H ((16 + 1) ÷ 2) ((16 + 1) ÷ 2))) = true)
    by (vm_compute; reflexivity).
  split; [exact Hdim|]. split; [exact ref_in_bounds|].
  exact (proj1 (@scale_additivity Ref.L Ref.H (Ref.plane_of Ref.ramp)
                  (Ref.plane_of Ref.checker) 16 16
                  Props.ref_cube_root_like Hdim ref_in_bounds)).
Defined.

Lemma black_is_zero i j : is_zero (px (Ref.plane_of Ref.black) i j) = true.
Proof.
  change (Ref.plane_of Ref.black)
    with (build 16 16 (fun i j => F32.of_Z (sample Ref.black i j))).
  apply Props.is_zero_px_build. intros i' j'.
  assert (E : sample Ref.black i' j' = 0).
  { unfold sample. apply (zth_default (fun row => zth 0 row j' = 0)).
    - apply (zth_default (fun v => v = 0)); [reflexivity|intros v []].
    - intros row Hin. unfold Ref.black in Hin.
      apply in_map_iff in Hin. destruct Hin as (k & <- & _).
      apply (zth_default (fun v => v = 0)); [reflexivity|].
      intros v Hv. apply in_map_iff in Hv. destruct Hv as (k' & <- & _).
      reflexivity. }
  rewrite E. reflexivity.
Qed.

Lemma zero_reference_denominator_witness :
  taps_finite Ref.H = true /\ rfactors_ok Ref.L Ref.H = true /\
  in_bounds Ref.H 16 16 = true /\
  F64.ltb F64.zero (numden_limit 16 16) = true /\
  F64.leb (numden_limit 16 16)
          (F64.of_float (band_stabilizer Ref.L Ref.H ((16 + 1) ÷ 2) ((16 + 1) ÷ 2))) = true /\
  (forall i j, is_zero (px (Ref.plane_of Ref.black) i j) = true) /\
  F64.ltb (score_den (compute_adm2 Ref.L Ref.H (Ref.plane_of Ref.black)
                                   (Ref.plane_of Ref.checker) 16 16))
          (numden_limit 16 16) = false.
Proof.
  assert (Ht : taps_finite Ref.H = true) by (vm_compute; reflexivity).
  assert (Hr : rfactors_ok Ref.L Ref.H = true) by (vm_compute; reflexivity).
  assert (Hpos : F64.ltb F64.zero (numden_limit 16 16) = true) by (vm_compute; reflexivity).
  assert (Hdim : F64.leb (numden_limit 16 16)
          (F64.of_float (band_stabilizer Ref.L Ref.H ((16 + 1) ÷ 2) ((16 + 1) ÷ 2))) = true)
    by (vm_compute; reflexivity).
  split; [exact Ht|]. split; [exact Hr|]. split; [exact ref_in_bounds|].
  split; [exact Hpos|]. split; [exact Hdim|]. split; [exact black_is_zero|].
  exact (proj1 (proj2 (proj2
           (@zero_reference_denominator Ref.L Ref.H (Ref.plane_of Ref.black)
              (Ref.plane_of Ref.checker) 16 16 Ht Hr Props.ref_cube_root_like
              ref_in_bounds Hpos Hdim black_is_zero)))).
Defined.


End Scales.

(** * The decoupler and its sum invariant *)

Module Decouple.
Import Round RoundArith FloatDefs ADM Spec Buffers.

Section Format.
Variables prec emax : Z.
Hypothesis Hprec : 0 < prec.
Hypothesis Hemax : prec < emax.

Lemma binary_round_not_nan s m E : binary_round prec emax s m E <> S754_nan.
Proof using Hprec Hemax.
  set (E0 := Z.min E (SpecFloat.fexp prec emax (Zdigits2 (Zpos m) + E))).
  rewrite (@FloatTheory.binary_round_spec prec emax Hprec Hemax s m E E0)
    by (subst E0; lia).
  unfold FloatDefs.pack. destruct (_ =? 0); [discriminate|].
  destruct (_ <=? _); discriminate.
Qed.

(** The product of two finite numbers is a number, perhaps an infinity. *)
Lemma SFmul_not_nan x y :
  valid_binary prec emax x = true -> valid_binary prec emax y = true ->
  is_finite x = true -> is_finite y = true ->
  SFmul prec emax x y <> S754_nan.
Proof using Hprec Hemax.
  intros Vx Vy Fx Fy.
  destruct x as [sx| | |sx mx ex]; try discriminate Fx;
    destruct y as [sy| | |sy my ey]; try discriminate Fy; try discriminate.
  rewrite (@FloatTheory.SFmul_finite prec emax Hprec Hemax) by assumption.
  apply binary_round_not_nan.
Qed.

(** A non-negative number below a finite number is finite. *)
Lemma finite_below a b :
  nonneg a = true -> is_finite b = true -> SFleb a b = true -> is_finite a = true.
Proof using Type.
  intros Na Fb Hle.
  destruct a as [[|]|[|]| |[|] ma ea]; try discriminate Na; try reflexivity.
  destruct b as [[|]| | |[|] mb eb]; try discriminate Fb; discriminate Hle.
Qed.

Lemma is_finite_binary_round s m E :
  is_finite (binary_round prec emax s m E)
  = is_finite (binary_round prec emax false m E).
Proof using Type.
  rewrite <- (@FloatMore.SFabs_binary_round prec emax s m E).
  destruct (binary_round prec emax s m E); reflexivity.
Qed.

Lemma abs_signed_diff (s s' : bool) (a b : Z) :
  0 < a -> 0 < b -> Z.abs (cond_Zopp s a - cond_Zopp s' b) <= a + b.
Proof using Type. intros Ha Hb. destruct s, s'; cbn [cond_Zopp]; lia. Qed.

(** The difference [t - r] does not overflow when [|r| <= |o|] and the
    sum [|t| + |o|] does not. *)
Lemma SFsub_finite_of_bound t r o :
  valid_binary prec emax t = true -> valid_binary prec emax r = true ->
  valid_binary prec emax o = true ->
  is_finite t = true -> is_finite o = true ->
  SFleb (SFabs r) (SFabs o) = true ->
  is_finite (SFadd prec emax (SFabs t) (SFabs o)) = true ->
  is_finite (SFsub prec emax t r) = true.
Proof using Hprec Hemax.
  intros Vt Vr Vo Ft Fo Hle Hsum.
  destruct r as [sr|sr| |sr mr er].
  - destruct t as [st| | |st mt et]; try discriminate Ft.
    + destruct st, sr; reflexivity.
    + reflexivity.
  - destruct o as [so| | |so mo eo]; try discriminate Fo; discriminate Hle.
  - discriminate Hle.
  - destruct t as [st| | |st mt et]; try discriminate Ft; [reflexivity|].
    destruct o as [so| | |so mo eo]; try discriminate Fo; [discriminate Hle|].
    cbn [SFabs] in Hle, Hsum.
    assert (Vr' : valid_binary prec emax (S754_finite false mr er) = true) by exact Vr.
    assert (Vo' : valid_binary prec emax (S754_finite false mo eo) = true) by exact Vo.
    set (E0 := Z.min (Z.min et er) eo).
    apply (@FloatTheory.SFleb_value prec emax Hprec Hemax mr er mo eo E0 Vr' Vo'
             ltac:(subst E0; lia) ltac:(subst E0; lia)) in Hle.
    unfold scaled in Hle.
    cbn [SFsub SFadd cond_Zopp] in Hsum |- *.
    rewrite !(@FloatTheory.shl_align_value prec emax Hprec Hemax) in Hsum |- * by lia.
    set (ez := Z.min et er) in *. set (ez' := Z.min et eo) in *.
    pose proof (pow2_pos (k := et - ez) ltac:(subst ez; lia)) as PA.
    pose proof (pow2_pos (k := er - ez) ltac:(subst ez; lia)) as PR.
    pose proof (pow2_pos (k := et - ez') ltac:(subst ez'; lia)) as PA'.
    pose proof (pow2_pos (k := eo - ez') ltac:(subst ez'; lia)) as PO'.
    pose proof (pow2_pos (k := ez - E0) ltac:(subst ez E0; lia)) as PX.
    pose proof (pow2_pos (k := ez' - E0) ltac:(subst ez' E0; lia)) as PX'.
    assert (P1 : 2 ^ (et - ez) * 2 ^ (ez - E0) = 2 ^ (et - E0))
      by (rewrite <- Z.pow_add_r by (subst ez E0; lia); f_equal; lia).
    assert (P2 : 2 ^ (er - ez) * 2 ^ (ez - E0) = 2 ^ (er - E0))
      by (rewrite <- Z.pow_add_r by (subst ez E0; lia); f_equal; lia).
    assert (P3 : 2 ^ (et - ez') * 2 ^ (ez' - E0) = 2 ^ (et - E0))
      by (rewrite <- Z.pow_add_r by (subst ez' E0; lia); f_equal; lia).
    assert (P4 : 2 ^ (eo - ez') * 2 ^ (ez' - E0) = 2 ^ (eo - E0))
      by (rewrite <- Z.pow_add_r by (subst ez' E0; lia); f_equal; lia).
    set (zs := Zpos mt * 2 ^ (et - ez') + Zpos mo * 2 ^ (eo - ez')) in *.
    assert (Hzs : 0 < zs).
    { subst zs. apply Z.add_pos_pos; apply Z.mul_pos_pos; lia. }
    set (z := cond_Zopp st (Zpos mt * 2 ^ (et - ez))
              - cond_Zopp sr (Zpos mr * 2 ^ (er - ez))).
    assert (Hz : Z.abs z <= Zpos mt * 2 ^ (et - ez) + Zpos mr * 2 ^ (er - ez)).
    { subst z. apply abs_signed_diff; apply Z.mul_pos_pos; lia. }
    assert (Hval : Z.abs z * 2 ^ (ez - E0) <= zs * 2 ^ (ez' - E0)).
    { apply Z.le_trans
        with ((Zpos mt * 2 ^ (et - ez) + Zpos mr * 2 ^ (er - ez)) * 2 ^ (ez - E0)).
      - apply Z.mul_le_mono_nonneg_r; lia.
      - subst zs.
        replace ((Zpos mt * 2 ^ (et - ez) + Zpos mr * 2 ^ (er - ez)) * 2 ^ (ez - E0))
          with (Zpos mt * (2 ^ (et - ez) * 2 ^ (ez - E0))
                + Zpos mr * (2 ^ (er - ez) * 2 ^ (ez - E0))) by ring.
        replace ((Zpos mt * 2 ^ (et - ez') + Zpos mo * 2 ^ (eo - ez')) * 2 ^ (ez' - E0))
          with (Zpos mt * (2 ^ (et - ez') * 2 ^ (ez' - E0))
                + Zpos mo * (2 ^ (eo - ez') * 2 ^ (ez' - E0))) by ring.
        rewrite P1, P2, P3, P4. lia. }
    destruct zs as [|ps|ps] eqn:Ezs; try lia. cbn [binary_normalize] in Hsum.
    assert (Hmono : forall p, Zpos p = Z.abs z ->
              is_finite (binary_round prec emax false p ez) = true).
    { intros p Hp.
      apply finite_below with (b := binary_round prec emax false ps ez');
        [apply (@FloatTheory.binary_round_nonneg prec emax Hprec Hemax)|exact Hsum|].
      apply (@FloatTheory.binary_round_mono prec emax Hprec Hemax) with (E0 := E0);
        try (subst ez ez' E0; lia).
      unfold scaled. rewrite Hp. exact Hval. }
    destruct z as [|p|p] eqn:Ez; cbn [binary_normalize].
    + reflexivity.
    + apply Hmono. reflexivity.
    + rewrite is_finite_binary_round. apply Hmono. reflexivity.
Qed.

(** Rounding keeps the sign it is given. *)
Lemma signbit_binary_round s m E : signbit (binary_round prec emax s m E) = s.
Proof using Hprec Hemax.
  set (E0 := Z.min E (SpecFloat.fexp prec emax (Zdigits2 (Zpos m) + E))).
  rewrite (@FloatTheory.binary_round_spec prec emax Hprec Hemax s m E E0)
    by (subst E0; lia).
  unfold FloatDefs.pack. destruct (_ =? 0); [reflexivity|].
  destruct (_ <=? _); reflexivity.
Qed.

Lemma SFmul_signbit sx mx ex sy my ey :
  valid_binary prec emax (S754_finite sx mx ex) = true ->
  valid_binary prec emax (S754_finite sy my ey) = true ->
  signbit (SFmul prec emax (S754_finite sx mx ex) (S754_finite sy my ey))
  = xorb sx sy.
Proof using Hprec Hemax.
  intros Vx Vy.
  rewrite (@FloatTheory.SFmul_finite prec emax Hprec Hemax) by assumption.
  apply signbit_binary_round.
Qed.

(** The difference of two numbers of the same sign does not overflow. *)
Lemma SFsub_same_sign_finite s mt et mr er :
  valid_binary prec emax (S754_finite s mt et) = true ->
  valid_binary prec emax (S754_finite s mr er) = true ->
  is_finite (SFsub prec emax (S754_finite s mt et) (S754_finite s mr er)) = true.
Proof using Hprec Hemax.
  intros Vt Vr.
  assert (Vt' : valid_binary prec emax (S754_finite false mt et) = true) by exact Vt.
  assert (Vr' : valid_binary prec emax (S754_finite false mr er) = true) by exact Vr.
  cbn [SFsub].
  rewrite !(@FloatTheory.shl_align_value prec emax Hprec Hemax) by lia.
  set (ez := Z.min et er).
  pose proof (pow2_pos (k := et - ez) ltac:(subst ez; lia)) as PA.
  pose proof (pow2_pos (k := er - ez) ltac:(subst ez; lia)) as PR.
  set (A := Zpos mt * 2 ^ (et - ez)). set (B := Zpos mr * 2 ^ (er - ez)).
  assert (HA : 0 < A) by (subst A; apply Z.mul_pos_pos; lia).
  assert (HB : 0 < B) by (subst B; apply Z.mul_pos_pos; lia).
  assert (Hbound : forall p, Zpos p <= A \/ Zpos p <= B ->
            is_finite (binary_round prec emax false p ez) = true).
  { intros p [Hp|Hp].
    - apply finite_below with (b := S754_finite false mt et);
        [apply (@FloatTheory.binary_round_nonneg prec emax Hprec Hemax)|reflexivity|].
      rewrite <- (@FloatTheory.binary_round_canonical prec emax Hprec Hemax
                    false mt et (et - ez) Vt') by (subst ez; lia).
      apply (@FloatTheory.binary_round_mono prec emax Hprec Hemax) with (E0 := ez);
        try (subst ez; lia).
      unfold scaled. replace (et - (et - ez) - ez) with 0 by lia.
      fold A. rewrite Z2Pos.id by exact HA. rewrite Z.sub_diag, !Z.mul_1_r. exact Hp.
    - apply finite_below with (b := S754_finite false mr er);
        [apply (@FloatTheory.binary_round_nonneg prec emax Hprec Hemax)|reflexivity|].
      rewrite <- (@FloatTheory.binary_round_canonical prec emax Hprec Hemax
                    false mr er (er - ez) Vr') by (subst ez; lia).
      apply (@FloatTheory.binary_round_mono prec emax Hprec Hemax) with (E0 := ez);
        try (subst ez; lia).
      unfold scaled. replace (er - (er - ez) - ez) with 0 by lia.
      fold B. rewrite Z2Pos.id by exact HB. rewrite Z.sub_diag, !Z.mul_1_r. exact Hp. }
  assert (Hz : Z.abs (cond_Zopp s A - cond_Zopp s B) <= A
               \/ Z.abs (cond_Zopp s A - cond_Zopp s B) <= B).
  { clearbody A B. destruct s; cbn [cond_Zopp]; lia. }
  destruct (cond_Zopp s A - cond_Zopp s B) as [|p|p] eqn:Ez; cbn [binary_normalize].
  - reflexivity.
  - apply Hbound. exact Hz.
  - rewrite is_finite_binary_round. apply Hbound. exact Hz.
Qed.

(** The sign of a sum with a positive number [c]: positive when the other
    term is positive; and when the other term is negative, the sum has no
    sign bit only if that term is at most [c] in magnitude. *)
Lemma SFadd_positive_sign so mo eo mc ec :
  valid_binary prec emax (S754_finite so mo eo) = true ->
  valid_binary prec emax (S754_finite false mc ec) = true ->
  (so = false ->
   signbit (SFadd prec emax (S754_finite so mo eo) (S754_finite false mc ec)) = false) /\
  (so = true ->
   signbit (SFadd prec emax (S754_finite so mo eo) (S754_finite false mc ec)) = false ->
   SFleb (S754_finite false mo eo) (S754_finite false mc ec) = true).
Proof using Hprec Hemax.
  intros Vo Vc.
  assert (Vo' : valid_binary prec emax (S754_finite false mo eo) = true) by exact Vo.
  cbn [SFadd].
  rewrite !(@FloatTheory.shl_align_value prec emax Hprec Hemax) by lia.
  set (ez := Z.min eo ec).
  pose proof (pow2_pos (k := eo - ez) ltac:(subst ez; lia)) as PA.
  pose proof (pow2_pos (k := ec - ez) ltac:(subst ez; lia)) as PC.
  set (A := Zpos mo * 2 ^ (eo - ez)). set (C := Zpos mc * 2 ^ (ec - ez)).
  assert (HA : 0 < A) by (subst A; apply Z.mul_pos_pos; lia).
  assert (HC : 0 < C) by (subst C; apply Z.mul_pos_pos; lia).
  split.
  - intros ->. cbn [cond_Zopp].
    destruct (A + C) as [|p|p] eqn:Ez; try lia. cbn [binary_normalize].
    apply signbit_binary_round.
  - intros ->. cbn [cond_Zopp].
    destruct (- A + C) as [|p|p] eqn:Ez; cbn [binary_normalize].
    + intros _.
      apply (@FloatTheory.SFleb_value prec emax Hprec Hemax mo eo mc ec ez Vo' Vc
               ltac:(subst ez; lia) ltac:(subst ez; lia)).
      unfold scaled. fold A C. lia.
    + intros _.
      apply (@FloatTheory.SFleb_value prec emax Hprec Hemax mo eo mc ec ez Vo' Vc
               ltac:(subst ez; lia) ltac:(subst ez; lia)).
      unfold scaled. fold A C. lia.
    + rewrite signbit_binary_round. discriminate.
Qed.

End Format.

Lemma finite_abs_below r o :
  is_finite o = true -> SFleb (SFabs r) (SFabs o) = true -> is_finite r = true.
Proof.
  intros Fo Hle.
  destruct r as [sr|sr| |sr mr er]; try reflexivity.
  - destruct o as [so| | |so mo eo]; try discriminate Fo; discriminate Hle.
  - discriminate Hle.
Qed.

Lemma eps_eq : eps = S754_finite false 10633824 (-123).
Proof. reflexivity. Qed.

Lemma eps_valid : F32.valid eps = true.
Proof. reflexivity. Qed.

(** Adding [eps] to the magnitude of a finite float does not overflow: not
    even the largest float moves. *)
Lemma add_eps_finite t :
  F32.valid t = true -> is_finite t = true ->
  is_finite (F32.add (F32.abs t) eps) = true.
Proof.
  intros Vt Ft. rewrite eps_eq.
  destruct t as [s| | |s m e]; try discriminate Ft; [reflexivity|].
  destruct (@FloatTheory.valid_finite_facts F32.prec F32.emax eq_refl eq_refl s m e Vt)
    as (_ & He & _ & Hm & _).
  change (F32.emax - F32.prec) with 104 in He.
  change (2 ^ F32.prec) with 16777216 in Hm.
  unfold F32.add, F32.abs. cbn [SFabs SFadd cond_Zopp].
  rewrite !(@FloatTheory.shl_align_value F32.prec F32.emax eq_refl eq_refl) by lia.
  set (ez := Z.min e (-123)).
  pose proof (pow2_pos (k := e - ez) ltac:(subst ez; lia)) as PA.
  pose proof (pow2_pos (k := -123 - ez) ltac:(subst ez; lia)) as PC.
  assert (Hpow : 2 ^ (e - ez) <= 2 ^ 227 * 2 ^ (-123 - ez)).
  { rewrite <- Z.pow_add_r by (subst ez; lia). apply pow2_le. subst ez. lia. }
  set (K := 2 ^ 227) in *. assert (HK : 0 < K) by (subst K; reflexivity).
  set (z := Zpos m * 2 ^ (e - ez) + 10633824 * 2 ^ (-123 - ez)).
  assert (Hz : 0 < z) by (subst z; apply Z.add_pos_pos; apply Z.mul_pos_pos; lia).
  assert (Hle : z <= (16777215 * K + 10633824) * 2 ^ (-123 - ez)).
  { subst z.
    assert (Zpos m * 2 ^ (e - ez) <= 16777215 * (K * 2 ^ (-123 - ez))).
    { apply Z.mul_le_mono_nonneg; lia. }
    lia. }
  destruct z as [|p|p] eqn:Ez; try lia. cbn [binary_normalize].
  apply finite_below
    with (b := binary_round F32.prec F32.emax false
                 (Z.to_pos (16777215 * K + 10633824)) (-123));
    [apply (@FloatTheory.binary_round_nonneg F32.prec F32.emax eq_refl eq_refl)
    |subst K; vm_compute; reflexivity|].
  apply (@FloatTheory.binary_round_mono F32.prec F32.emax eq_refl eq_refl)
    with (E0 := ez); try (subst ez; lia).
  unfold scaled. rewrite Z2Pos.id by lia. rewrite Z.sub_diag, Z.mul_1_r. exact Hle.
Qed.

(** The gain of a quotient that is a number is in [0, 1]. *)
Lemma clip01_of_number k0 :
  k0 <> S754_nan ->
  F32.leb F32.zero (clip01 k0) = true /\ F32.leb (clip01 k0) F32.one = true.
Proof.
  intros Hn.
  destruct k0 as [[|]|[|]| |s m e]; try (split; reflexivity);
    [congruence|apply Numeric.clip01_finite_case].
Qed.

(** A positive gain comes from a positive quotient. *)
Lemma clip01_positive k0 mk ek :
  clip01 k0 = S754_finite false mk ek -> signbit k0 = false /\ is_zero k0 = false.
Proof.
  unfold clip01. intros Hk.
  destruct k0 as [s|[|]| |[|] m e]; try (split; reflexivity).
  - destruct s; discriminate Hk.
  - discriminate Hk.
  - exfalso. assert (E : F32.ltb (S754_finite true m e) F32.zero = true) by reflexivity.
    rewrite E in Hk. discriminate Hk.
Qed.

(** Where the angular test fails the impairment does not overflow: the
    restored coefficient [r = k * o] has the sign of [o], and [k > 0] only
    if [t] has the sign of [rcp (o + eps)].  So either [t] and [r] have the
    same sign, or [o + eps] and [o] have not, which makes [o], and [r] with
    it, at most [eps] in magnitude. *)
Lemma impairment_finite (rho o t k0 : float) :
  F32.valid o = true -> is_finite o = true ->
  F32.valid t = true -> is_finite t = true ->
  F32.valid rho = true -> is_finite rho = true ->
  signbit rho = signbit (F32.add o eps) ->
  k0 = F32.mul t rho ->
  F32.valid (clip01 k0) = true ->
  F32.leb F32.zero (clip01 k0) = true ->
  F32.leb (F32.abs (F32.mul (clip01 k0) o)) (F32.abs o) = true ->
  F32.valid (F32.mul (clip01 k0) o) = true ->
  is_finite (F32.sub t (F32.mul (clip01 k0) o)) = true.
Proof.
  intros Vo Fo Vt Ft Vrho Frho Hsg Ek0 Vk H0 Hle Vr.
  destruct (F32.mul (clip01 k0) o) as [sr|sr| |sr mr er] eqn:Er.
  - destruct t as [st| | |st mt et]; try discriminate Ft; [|reflexivity].
    destruct st, sr; reflexivity.
  - destruct o as [so| | |so mo eo]; try discriminate Fo; discriminate Hle.
  - discriminate Hle.
  - destruct t as [st| | |st mt et]; try discriminate Ft; [reflexivity|].
    destruct (clip01 k0) as [sk|sk| |sk mk ek] eqn:Ek.
    + destruct o as [so| | |so mo eo]; try discriminate Fo; discriminate Er.
    + destruct o as [so| | |so mo eo]; try discriminate Fo; discriminate Er.
    + discriminate H0.
    + destruct sk; [discriminate H0|].
      destruct o as [so| | |so mo eo]; try discriminate Fo; [discriminate Er|].
      pose proof (@SFmul_signbit F32.prec F32.emax eq_refl eq_refl
                    false mk ek so mo eo Vk Vo) as Sr.
      unfold F32.mul in Er. rewrite Er in Sr. cbn [signbit xorb] in Sr.
      destruct (clip01_positive k0 Ek) as (Sk0 & Zk0).
      destruct rho as [srho| | |srho mrho erho]; try discriminate Frho.
      { rewrite Ek0 in Zk0. discriminate Zk0. }
      pose proof (@SFmul_signbit F32.prec F32.emax eq_refl eq_refl
                    st mt et srho mrho erho Vt Vrho) as Sk.
      unfold F32.mul in Ek0. rewrite <- Ek0, Sk0 in Sk.
      cbn [signbit] in Hsg.
      destruct (@SFadd_positive_sign F32.prec F32.emax eq_refl eq_refl
                  so mo eo 10633824 (-123) Vo eq_refl) as (Hpos & Hneg).
      rewrite eps_eq in Hsg. unfold F32.add in Hsg.
      destruct (Bool.bool_dec st sr) as [Hsame|Hdiff].
      * subst sr. rewrite Hsame.
        apply (@SFsub_same_sign_finite F32.prec F32.emax eq_refl eq_refl);
          [rewrite <- Hsame; exact Vt|exact Vr].
      * assert (Hrho : srho = st) by (destruct st, srho; cbn in Sk; congruence).
        assert (Hso : so = true).
        { destruct so; [reflexivity|]. exfalso.
          rewrite (Hpos eq_refl) in Hsg. apply Hdiff. congruence. }
        assert (Hg : signbit (SFadd F32.prec F32.emax (S754_finite so mo eo)
                                (S754_finite false 10633824 (-123))) = false).
        { rewrite <- Hsg, Hrho. destruct st; [|reflexivity].
          exfalso. apply Hdiff. congruence. }
        pose proof (Hneg Hso Hg) as Hoe.
        apply (@SFsub_finite_of_bound F32.prec F32.emax eq_refl eq_refl
                 (S754_finite st mt et) (S754_finite sr mr er) eps);
          [exact Vt|exact Vr|exact eps_valid|reflexivity|reflexivity| |].
        -- rewrite eps_eq. cbn [SFabs]. cbn [F32.abs SFabs] in Hle.
           apply FloatTheory.SFleb_trans_nonneg with (b := S754_finite false mo eo);
             [reflexivity|reflexivity|exact Hle|exact Hoe].
        -- change (SFabs eps) with eps.
           apply (add_eps_finite (S754_finite st mt et) Vt eq_refl).
Qed.

(** One coefficient of the decoupler: the restored value and the
    impairment [t - r] are finite numbers, their sum is [t] up to the
    rounding of the subtraction, and exactly where the flag is set. *)
Lemma restored_sum L flag o t :
  decouple_input_ok L flag o t = true ->
  ok_coeff (restored L eps flag o t) = true /\
  ok_coeff (F32.sub t (restored L eps flag o t)) = true /\
  within_epsilon t (restored L eps flag o t) (F32.sub t (restored L eps flag o t)) /\
  (flag = true ->
   restored L eps flag o t = t /\ F32.sub t (restored L eps flag o t) = F32.zero).
Proof.
  unfold decouple_input_ok. intros Hok.
  apply andb_true_iff in Hok. destruct Hok as (Hok & Hcase).
  apply andb_true_iff in Hok. destruct Hok as (Oo & Ot).
  apply Props.ok_coeff_iff in Oo. destruct Oo as (Vo & Fo).
  apply Props.ok_coeff_iff in Ot. destruct Ot as (Vt & Ft).
  assert (Hmain : forall r, F32.valid r = true -> is_finite r = true ->
            is_finite (F32.sub t r) = true ->
            ok_coeff r = true /\ ok_coeff (F32.sub t r) = true /\
            within_epsilon t r (F32.sub t r)).
  { intros r Vr Fr Fa. split; [apply Props.ok_coeff_iff; split; assumption|].
    split; [|apply Props.within_epsilon_sub; assumption].
    apply Props.ok_coeff_iff. split; [|exact Fa].
    apply (@FloatTheory.SFsub_valid F32.prec F32.emax eq_refl eq_refl); assumption. }
  destruct flag.
  - unfold restored.
    assert (Ed : F32.sub t t = F32.zero) by (apply FloatTheory.SFsub_diag; exact Ft).
    destruct (Hmain t Vt Ft ltac:(rewrite Ed; reflexivity)) as (A & B & C).
    split; [exact A|]. split; [exact B|]. split; [exact C|].
    intros _. split; [reflexivity|exact Ed].
  - cbn [orb] in Hcase.
    apply andb_true_iff in Hcase. destruct Hcase as (Hcase & Hsg).
    apply andb_true_iff in Hcase. destruct Hcase as (Hrss & Hrf).
    apply Bool.eqb_prop in Hsg.
    unfold restored.
    set (gs := F32.add o eps) in *.
    assert (Vgs : F32.valid gs = true).
    { subst gs. apply (@FloatTheory.SFadd_valid F32.prec F32.emax eq_refl eq_refl);
        [exact Vo|exact eps_valid]. }
    pose proof (Numeric.rcp_valid L gs Hrss Vgs) as Vrcp.
    set (k0 := DIVS L t gs).
    assert (Vk0 : F32.valid k0 = true).
    { subst k0. unfold DIVS.
      apply (@FloatTheory.SFmul_valid F32.prec F32.emax eq_refl eq_refl); assumption. }
    assert (Nk0 : k0 <> S754_nan).
    { subst k0. unfold DIVS.
      apply (@SFmul_not_nan F32.prec F32.emax eq_refl eq_refl); assumption. }
    pose proof (Numeric.clip01_valid k0 Vk0) as Vk.
    destruct (clip01_of_number Nk0) as (H0 & H1).
    assert (Hle : F32.leb (F32.abs (F32.mul (clip01 k0) o)) (F32.abs o) = true).
    { apply (@FloatMore.SFmul_le_one F32.prec F32.emax eq_refl eq_refl); assumption. }
    assert (Vr : F32.valid (F32.mul (clip01 k0) o) = true).
    { apply (@FloatTheory.SFmul_valid F32.prec F32.emax eq_refl eq_refl); assumption. }
    assert (Fr : is_finite (F32.mul (clip01 k0) o) = true).
    { apply finite_abs_below with (o := o); assumption. }
    assert (Fa : is_finite (F32.sub t (F32.mul (clip01 k0) o)) = true).
    { apply (@impairment_finite (rcp L gs) o t k0); try assumption. reflexivity. }
    destruct (Hmain _ Vr Fr Fa) as (A & B & C).
    split; [exact A|]. split; [exact B|]. split; [exact C|].
    intros Hf. discriminate Hf.
Qed.




End Decouple.
